(** * Neurology: pooled allocations, bindings and split accesses

    A shallow embedding of the allocator sources of the repository:

    - [Ptr]: the pointer-based [Allocator]/[Allocation] pair, in which an
      [Allocation] object carries its own [pointer] and [size] and the
      allocator owns the memory pool ([new BYTE[size]]);
    - [Addr]: the tables of the [Address]-based [Allocator], the raw
      primitives of [LocalAllocator] ([poolAddress], [unpoolAddress],
      [readAddress], [writeAddress]), and the split read/write engine
      with the questions it asks an allocation answered from the tables;
    - [Frame] and [Calls]: the functions of the [Address]-based pair as
      they are written, call by call. They call each other in a circle,
      so that a call either throws before it enters the circle or does
      not return.

    C++ exceptions are the [Throw] results of a small error monad, the
    mutable allocator is passed explicitly, and [Allocation] objects are
    named by a handle (their identity as [Allocation *]). Where a run
    leaves what the language defines (a loop that steps from an element
    its body has erased, a copy to behind the end of a vector) or uses up
    the stack, it ends in a [Throw] that names the event and is followed
    no further. *)

From Stdlib Require Import ZArith Lia.
From stdpp Require Import base option list functions gmap sets sorting.

Local Open Scope Z_scope.

(** ** Machine words *)

(** [SIZE_T] and pointers are 64-bit unsigned words; arithmetic on them
    wraps around. *)
Definition SIZE_BITS : Z := 64.
Definition SIZE_MOD : Z := 2 ^ SIZE_BITS.
Definition wrap (z : Z) : Z := z mod SIZE_MOD.

(** [Data] is [std::vector<BYTE>]. *)
Abbreviation BYTE := Byte.byte.
Abbreviation Data := (list Byte.byte).

(** [Data::max_size()]: a [Data] of more bytes cannot be built. *)
Definition Data_max_size : Z := 2 ^ (SIZE_BITS - 1) - 1.

(** An [Allocation *]; handles are ordered as the pointers are. *)
Abbreviation handle := positive.

(** ** Exceptions *)

Inductive Exception : Type :=
  (* Allocation::... *)
  | NoAllocatorException
  | DoubleAllocationException
  | DeadAllocationException
  | Allocation_ZeroSizeException
  | AddressOutOfRangeException (address size : Z)
  | OffsetOutOfRangeException (offset size : Z)
  (* Allocator::... *)
  | Allocator_ZeroSizeException
  | PoolAllocationException
  | UnpooledAddressException (address : Z)
  | BoundAllocationException
  | UnboundAllocationException
  | UnmanagedAllocationException
  | AddressHasNoAllocationException (address : Z)
  | SplitsExceededException (address size : Z)
  | VoidAllocatorException
  (* raw copy faults *)
  | BadPointerException (address size : Z)
  | KernelFaultException (address size : Z)
  (* a structured exception raised by the processor outside any __try *)
  | AccessViolation
  | StackOverflow
  (* the run has left what the language defines and is followed no
     further: [++it] on an iterator whose element has been erased,
     [--it] on the iterator [begin()], and a copy to behind the last
     element of a vector *)
  | ErasedIterator
  | DecrementedBegin
  | BufferOverrun.



Inductive result (A : Type) : Type :=
  | Ok (a : A)
  | Throw (e : Exception).
Arguments Ok {A} a.
Arguments Throw {A} e.

Global Instance result_ret : MRet result := λ A a, Ok a.
Global Instance result_bind : MBind result := λ A B f m,
  match m with Ok a => f a | Throw e => Throw e end.
Global Instance result_fmap : FMap result := λ A B f m,
  match m with Ok a => Ok (f a) | Throw e => Throw e end.

(** [try { m } catch (AddressOutOfRangeException &) { throw e; }] *)
Definition catchAddressOutOfRange {A} (m : result A) (e : Exception) : result A :=
  match m with
  | Throw (AddressOutOfRangeException _ _) => Throw e
  | r => r
  end.

Fixpoint foldM {S X} (f : S → X → result S) (s : S) (l : list X) : result S :=
  match l with
  | [] => Ok s
  | x :: l' => s' ← f s x; foldM f s' l'
  end.

(** Iteration order of a [std::set<Allocation *>]: ascending. *)
Definition ordered (s : gset handle) : list handle :=
  merge_sort Pos.le (elements s).

(** [s.begin()], when the set is not empty. *)
Definition begin (s : gset handle) : option handle := head (ordered s).

(** Iteration order of the keys of a [std::map] keyed by addresses. *)
Definition keys {V} (m : gmap Z V) : list Z :=
  merge_sort Z.le (elements (dom m)).

(** [m.upper_bound(a)]: the first key above [a]. *)
Definition upper_bound {V} (m : gmap Z V) (a : Z) : option Z :=
  head (filter (λ k, a < k) (keys m)).

(** [m.lower_bound(a)]: the first key not below [a]. *)
Definition lower_bound {V} (m : gmap Z V) (a : Z) : option Z :=
  head (filter (λ k, a ≤ k) (keys m)).

(** [--it] from the position [m.upper_bound(a)], or from a
    [m.lower_bound(a)] that missed [a]: the last key that is not above
    [a]; [None] when the position was [m.begin()]. *)
Definition last_at_or_below {V} (m : gmap Z V) (a : Z) : option Z :=
  last (filter (λ k, k ≤ a) (keys m)).

(** ** Raw memory *)

(** The bytes of the process that can be accessed; an address without an
    entry faults. *)
Abbreviation Memory := (gmap Z Byte.byte).

Fixpoint readBytes (m : Memory) (a : Z) (n : nat) : option Data :=
  match n with
  | O => Some []
  | S n' =>
      match m !! a with
      | Some b => cons b <$> readBytes m (a + 1) n'
      | None => None
      end
  end.

Fixpoint writeBytes (m : Memory) (a : Z) (d : Data) : option Memory :=
  match d with
  | [] => Some m
  | b :: d' =>
      match m !! a with
      | Some _ => writeBytes (<[a := b]> m) (a + 1) d'
      | None => None
      end
  end.

(** Storage handed out by [new BYTE[n]], zeroed. *)
Fixpoint mapBytes (m : Memory) (a : Z) (n : nat) : Memory :=
  match n with
  | O => m
  | S n' => <[a := Byte.x00]> (mapBytes m (a + 1) n')
  end.

(** Storage given back by [delete[]]. *)
Fixpoint unmapBytes (m : Memory) (a : Z) (n : nat) : Memory :=
  match n with
  | O => m
  | S n' => delete a (unmapBytes m (a + 1) n')
  end.

Definition zeros (n : Z) : Data := replicate (Z.to_nat n) Byte.x00.

(** [CopyData(destination, source, size)] between two places of the
    process memory; [None] when the copy faults. *)
Definition CopyData (m : Memory) (destination source size : Z) : option Memory :=
  d ← readBytes m source (Z.to_nat size); writeBytes m destination d.

(** Every byte of [a, a + n) can be accessed. *)
Definition accessible (m : Memory) (a n : Z) : Prop :=
  ∀ i, 0 ≤ i < n → is_Some (m !! (a + i)).

(** No byte of [a, a + n) is in use. *)
Definition unused (m : Memory) (a n : Z) : Prop :=
  ∀ i, 0 ≤ i < n → m !! (a + i) = None.

(** ** The pointer-based allocator *)

Module Ptr.

(** An [Allocation] object. [allocator] records whether the member is a
    non-null pointer to the allocator; [pointer = 0] is [NULL]. *)
Record Allocation : Type := mkAllocation {
  allocator : bool;
  pointer : Z;
  size : Z;
}.

(** The allocator: [memoryPool], [bindings] and [allocations] are its
    members; [objects] holds the [Allocation] objects its sets point to,
    and [memory] the process memory its pool lives in. *)
Record Allocator : Type := mkAllocator {
  memoryPool : gmap Z Z;
  bindings : gmap Z (gset handle);
  allocations : gset handle;
  objects : handle → Allocation;
  memory : Memory;
}.

Definition empty : Allocator :=
  mkAllocator ∅ ∅ ∅ (λ _, mkAllocation false 0 0) ∅.

Definition setPool (p : gmap Z Z) (mm : Memory) (st : Allocator) : Allocator :=
  mkAllocator p (bindings st) (allocations st) (objects st) mm.
Definition setBindings (b : gmap Z (gset handle)) (st : Allocator) : Allocator :=
  mkAllocator (memoryPool st) b (allocations st) (objects st) (memory st).
Definition setAllocations (s : gset handle) (st : Allocator) : Allocator :=
  mkAllocator (memoryPool st) (bindings st) s (objects st) (memory st).
Definition setObject (h : handle) (a : Allocation) (st : Allocator) : Allocator :=
  mkAllocator (memoryPool st) (bindings st) (allocations st)
    (<[h := a]> (objects st)) (memory st).
Definition setMemory (mm : Memory) (st : Allocator) : Allocator :=
  mkAllocator (memoryPool st) (bindings st) (allocations st) (objects st) mm.

(** [this->bindings[address]], read. *)
Definition bindingSet (st : Allocator) (address : Z) : gset handle :=
  default ∅ (bindings st !! address).
(** [this->memoryPool[address]], read. *)
Definition poolSize (st : Allocator) (address : Z) : Z :=
  default 0 (memoryPool st !! address).

(** *** Allocator predicates *)

Definition isPooled (st : Allocator) (p : Z) : bool :=
  bool_decide (is_Some (memoryPool st !! p)).

Definition isAllocated (st : Allocator) (h : handle) : bool :=
  bool_decide (h ∈ allocations st).

Definition Allocator_isBound (st : Allocator) (h : handle) : bool :=
  match bindings st !! pointer (objects st h) with
  | None => false
  | Some refs => bool_decide (h ∈ refs)
  end.

Definition throwIfNotPooled (st : Allocator) (p : Z) : result unit :=
  if isPooled st p then Ok () else Throw (UnpooledAddressException p).

Definition throwIfNotAllocated (st : Allocator) (h : handle) : result unit :=
  if isAllocated st h then Ok () else Throw UnmanagedAllocationException.

Definition throwIfBound (st : Allocator) (h : handle) : result unit :=
  if Allocator_isBound st h then Throw BoundAllocationException else Ok ().

Definition throwIfNotBound (st : Allocator) (h : handle) : result unit :=
  if Allocator_isBound st h then Ok () else Throw UnboundAllocationException.

Definition bindCount (st : Allocator) (address : Z) : Z :=
  match bindings st !! address with
  | None => 0
  | Some refs => Z.of_nat (base.size refs)
  end.

(** *** Allocation predicates *)

Definition isValid (st : Allocator) (a : Allocation) : bool :=
  allocator a && negb (pointer a =? 0) && negb (size a =? 0)
  && isPooled st (pointer a).

Definition isBound (st : Allocator) (h : handle) : bool :=
  isValid st (objects st h) && Allocator_isBound st h.

Definition isNull (a : Allocation) : bool :=
  negb (allocator a) || (pointer a =? 0) || (size a =? 0).

(** [inRange(SIZE_T offset)] *)
Definition inRange_offset (a : Allocation) (offset : Z) : bool :=
  if (pointer a =? 0) || (size a =? 0) then false
  else
    let p := wrap (pointer a + offset) in
    let start := pointer a in
    let end_ := wrap (start + size a) in
    (start <=? p) && (p <=? end_).

(** [inRange(SIZE_T offset, SIZE_T size)] *)
Definition inRange_offset_size (a : Allocation) (offset sz : Z) : bool :=
  inRange_offset a offset && inRange_offset a (wrap (offset + sz)).

(** [inRange(const LPVOID address)] *)
Definition inRange_address (a : Allocation) (address : Z) : bool :=
  if (pointer a =? 0) || (size a =? 0) then false
  else
    let start := pointer a in
    let end_ := wrap (pointer a + size a) in
    (start <=? address) && (address <=? end_).

(** [inRange(const LPVOID address, SIZE_T size)] *)
Definition inRange_address_size (a : Allocation) (address sz : Z) : bool :=
  let endAddr := wrap (address + sz) in
  inRange_address a address && inRange_address a endAddr.

Definition throwIfNoAllocator (a : Allocation) : result unit :=
  if allocator a then Ok () else Throw NoAllocatorException.

Definition throwIfInvalid (st : Allocator) (a : Allocation) : result unit :=
  if isValid st a then Ok ()
  else if negb (allocator a) then Throw NoAllocatorException
  else if pointer a =? 0 then Throw DeadAllocationException
  else if size a =? 0 then Throw Allocation_ZeroSizeException
  else throwIfNotPooled st (pointer a).

(** [throwIfNotInRange(const LPVOID address, SIZE_T size)] *)
Definition throwIfNotInRange (a : Allocation) (address sz : Z) : result unit :=
  if inRange_address_size a address sz then Ok ()
  else Throw (AddressOutOfRangeException address sz).

(** [address(SIZE_T offset)] *)
Definition address (st : Allocator) (a : Allocation) (offset : Z) : result Z :=
  throwIfInvalid st a;;
  if size a <? offset then Throw (OffsetOutOfRangeException offset 0)
  else Ok (wrap (pointer a + offset)).

(** *** Pool *)

(** [pool(size)]. [fresh] is the pointer [new BYTE[size]] hands out. *)
Definition pool (st : Allocator) (fresh sz : Z) : result (Z * Allocator) :=
  if sz =? 0 then Throw Allocator_ZeroSizeException
  else if fresh =? 0 then Throw PoolAllocationException
  else
    Ok (fresh, setPool (<[fresh := sz]> (memoryPool st))
                       (mapBytes (memory st) fresh (Z.to_nat sz)) st).

(** The end of [unpool]: [ZeroMemory], [delete[]] and the erasure from
    [memoryPool]. *)
Definition unpool_release (st : Allocator) (address : Z) : result Allocator :=
  let n := poolSize st address in
  match writeBytes (memory st) address (zeros n) with
  | None => Throw AccessViolation
  | Some _ =>
      Ok (setPool (delete address (memoryPool st))
                  (unmapBytes (memory st) address (Z.to_nat n)) st)
  end.

(** [unpool(address)] as it runs for an address that has no entry in
    [bindings]; [unbind] calls it after erasing the entry. *)
Definition unpool_unbound (st : Allocator) (address : Z) : result Allocator :=
  throwIfNotPooled st address;;
  unpool_release st address.

(** [unbind(allocation)] *)
Definition unbind (st : Allocator) (h : handle) : result Allocator :=
  throwIfNotBound st h;;
  throwIfNotPooled st (pointer (objects st h));;
  let boundAddress := pointer (objects st h) in
  let refs := bindingSet st boundAddress ∖ {[h]} in
  let count := base.size refs in
  let st1 :=
    if decide (count = 0%nat)
    then setBindings (delete boundAddress (bindings st)) st
    else setBindings (<[boundAddress := refs]> (bindings st)) st in
  let st2 :=
    setObject h (mkAllocation (allocator (objects st h)) 0 0) st1 in
  (* an allocation created by the allocator is deleted here *)
  let st3 :=
    if isAllocated st2 h then setAllocations (allocations st2 ∖ {[h]}) st2
    else st2 in
  if decide (count = 0%nat) then
    if isPooled st3 boundAddress then unpool_unbound st3 boundAddress
    else Ok st3
  else Ok st3.

(** The loop of [unpool] over [this->bindings[address]], with [setIter]
    at the head of [l], the allocations from [setIter] to the end of the
    set in its order. A round calls [unbind] on the allocation under
    [setIter]; when that has erased the allocation from the set, the
    [++setIter] that follows steps from an erased element. An allocation
    of [l] that is no longer in the set is not met by [++setIter]. *)
Fixpoint unpool_loop (st : Allocator) (address : Z) (l : list handle)
  : result Allocator :=
  match l with
  | [] => Ok st
  | h :: l' =>
      if bool_decide (h ∈ bindingSet st address) then
        st' ← unbind st h;
        if bool_decide (h ∈ bindingSet st' address)
        then unpool_loop st' address l'
        else Throw ErasedIterator
      else unpool_loop st address l'
  end.

(** [unpool(address)] *)
Definition unpool (st : Allocator) (address : Z) : result Allocator :=
  throwIfNotPooled st address;;
  match bindings st !! address with
  | Some refs =>
      st1 ← unpool_loop st address (ordered refs);
      (* did unbind destroy us? return if so *)
      if negb (isPooled st1 address) then Ok st1
      else unpool_release st1 address
  | None => unpool_release st address
  end.

(** *** Binding *)

(** [bind(allocation, address)] *)
Definition bind (st : Allocator) (h : handle) (address : Z) : result Allocator :=
  throwIfNotPooled st address;;
  throwIfBound st h;;
  let st1 :=
    setBindings (<[address := {[h]} ∪ bindingSet st address]> (bindings st)) st in
  Ok (setObject h (mkAllocation true address (poolSize st1 address)) st1).

(** [rebind(allocation, newAddress)] *)
Definition rebind (st : Allocator) (h : handle) (newAddress : Z)
  : result Allocator :=
  if negb (Allocator_isBound st h) then bind st h newAddress
  else
    throwIfNotPooled st (pointer (objects st h));;
    throwIfNotPooled st newAddress;;
    let oldAddress := pointer (objects st h) in
    let st1 :=
      setBindings (<[newAddress := {[h]} ∪ bindingSet st newAddress]>
                     (bindings st)) st in
    let st2 :=
      setBindings (<[oldAddress := bindingSet st1 oldAddress ∖ {[h]}]>
                     (bindings st1)) st1 in
    let st3 :=
      setObject h (mkAllocation true newAddress (poolSize st2 newAddress)) st2 in
    if decide (base.size (bindingSet st3 oldAddress) = 0%nat)
    then unpool st3 oldAddress
    else Ok st3.

(** The loop of [repool] over [this->bindings[address]], with [setIter]
    at the head of [l]. A round calls [rebind] on the allocation under
    [setIter]; when that has erased the allocation from the set, the
    [++setIter] that follows steps from an erased element. *)
Fixpoint repool_loop (st : Allocator) (address newPool : Z) (l : list handle)
  : result Allocator :=
  match l with
  | [] => Ok st
  | h :: l' =>
      if bool_decide (h ∈ bindingSet st address) then
        st' ← rebind st h newPool;
        if bool_decide (h ∈ bindingSet st' address)
        then repool_loop st' address newPool l'
        else Throw ErasedIterator
      else repool_loop st address newPool l'
  end.

(** [repool(address, size)] *)
Definition repool (st : Allocator) (fresh address sz : Z)
  : result (Z * Allocator) :=
  throwIfNotPooled st address;;
  '(newPool, st1) ← pool st fresh sz;
  let n := Z.min sz (poolSize st1 address) in
  match CopyData (memory st1) newPool address n with
  | None => Throw (BadPointerException address n)
  | Some mm =>
      let st2 := setMemory mm st1 in
      st3 ← match bindings st2 !! address with
            | Some refs => repool_loop st2 address newPool (ordered refs)
            | None => Ok st2
            end;
      st4 ← (if isPooled st3 address then unpool st3 address else Ok st3);
      Ok (newPool, st4)
  end.

(** *** Allocator entry points *)

(** [Allocator::allocate(size)]; [h] is the [new Allocation]. *)
Definition Allocator_allocate (st : Allocator) (h : handle) (fresh sz : Z)
  : result (handle * Allocator) :=
  '(p, st1) ← pool st fresh sz;
  throwIfNotPooled st1 p;;
  let st2 := setObject h (mkAllocation true p sz) st1 in
  let st3 := setAllocations ({[h]} ∪ allocations st2) st2 in
  st4 ← bind st3 h (pointer (objects st3 h));
  Ok (h, st4).

(** [Allocator::reallocate(allocation, size)] *)
Definition Allocator_reallocate (st : Allocator) (h : handle) (fresh sz : Z)
  : result Allocator :=
  throwIfNotAllocated st h;;
  throwIfNotPooled st (pointer (objects st h));;
  snd <$> repool st fresh (pointer (objects st h)) sz.

(** [Allocator::deallocate(allocation)] *)
Definition Allocator_deallocate (st : Allocator) (h : handle) : result Allocator :=
  throwIfNotAllocated st h;;
  throwIfNotPooled st (pointer (objects st h));;
  unpool st (pointer (objects st h)).

(** [Allocator::read(allocation, address, size)]. The [Data data(size)]
    it returns is declared ahead of the range check; a vector of [size]
    bytes is taken to be there. *)
Definition Allocator_read (st : Allocator) (a : Allocation) (address sz : Z)
  : result Data :=
  throwIfNotInRange a address sz;;
  match readBytes (memory st) address (Z.to_nat sz) with
  | None => Throw (BadPointerException address sz)
  | Some data => Ok data
  end.

(** [Allocator::write(allocation, address, pointer, size)], the source
    buffer being the bytes [data]. *)
Definition Allocator_write (st : Allocator) (a : Allocation) (address : Z)
    (data : Data) : result Allocator :=
  let sz := Z.of_nat (length data) in
  throwIfNotInRange a address sz;;
  match writeBytes (memory st) address data with
  | None => Throw (BadPointerException address sz)
  | Some mm => Ok (setMemory mm st)
  end.

(** *** Allocation entry points *)

(** [allocate(size)] *)
Definition allocate (st : Allocator) (h : handle) (fresh sz : Z)
  : result Allocator :=
  let a := objects st h in
  throwIfNoAllocator a;;
  if negb (pointer a =? 0) && isPooled st (pointer a)
  then Throw DoubleAllocationException
  else
    '(p, st1) ← pool st fresh sz;
    let st2 := setObject h (mkAllocation (allocator a) p sz) st1 in
    bind st2 h p.

(** [reallocate(size)] *)
Definition reallocate (st : Allocator) (h : handle) (fresh sz : Z)
  : result Allocator :=
  if negb (isValid st (objects st h)) then allocate st h fresh sz
  else
    '(p, st1) ← repool st fresh (pointer (objects st h)) sz;
    Ok (setObject h (mkAllocation (allocator (objects st1 h)) p sz) st1).

(** [deallocate()] *)
Definition deallocate (st : Allocator) (h : handle) : result Allocator :=
  throwIfInvalid st (objects st h);;
  throwIfNotBound st h;;
  unbind st h.

(** [this->allocator->...] on an object whose [allocator] is [NULL]. *)
Definition derefAllocator {A} (a : Allocation) (k : result A) : result A :=
  if allocator a then k else Throw AccessViolation.

(** [read(const LPVOID address, SIZE_T size)] *)
Definition read_address (st : Allocator) (h : handle) (address sz : Z)
  : result Data :=
  derefAllocator (objects st h)
    (throwIfNotBound st h;;
     Allocator_read st (objects st h) address sz).

(** [read(SIZE_T offset, SIZE_T size)] *)
Definition read (st : Allocator) (h : handle) (offset sz : Z) : result Data :=
  catchAddressOutOfRange
    (read_address st h (wrap (pointer (objects st h) + offset)) sz)
    (OffsetOutOfRangeException offset sz).

(** [write(LPVOID address, const Data data)], through
    [write(LPVOID address, const LPVOID pointer, SIZE_T size)] *)
Definition write_address (st : Allocator) (h : handle) (address : Z)
    (data : Data) : result Allocator :=
  derefAllocator (objects st h)
    (throwIfNotBound st h;;
     Allocator_write st (objects st h) address data).

(** [write(SIZE_T offset, const Data data)] *)
Definition write (st : Allocator) (h : handle) (offset : Z) (data : Data)
  : result Allocator :=
  catchAddressOutOfRange
    (address ← address st (objects st h) offset;
     write_address st h address data)
    (OffsetOutOfRangeException offset (size (objects st h))).

(** [copy(allocation)]: alias the extent of [other]. *)
Definition copy (st : Allocator) (h other : handle) : result Allocator :=
  throwIfInvalid st (objects st other);;
  let st1 :=
    setObject h (mkAllocation (allocator (objects st other))
                   (pointer (objects st h)) (size (objects st h))) st in
  if isBound st1 h then rebind st1 h (pointer (objects st1 other))
  else bind st1 h (pointer (objects st1 other)).

(** [operator=(Allocation &allocation)] *)
Definition assign (st : Allocator) (h other : handle) : result Allocator :=
  let st1 :=
    setObject h (mkAllocation (allocator (objects st other))
                   (pointer (objects st h)) (size (objects st h))) st in
  if isValid st1 (objects st1 other) then copy st1 h other
  else
    Ok (setObject h (mkAllocation (allocator (objects st1 h))
                       (pointer (objects st1 other)) (size (objects st1 other)))
          st1).

(** [clone(allocation)]; [fresh] is the pointer [new BYTE[size]] hands
    out when the clone has to be resized. *)
Definition clone (st : Allocator) (h other : handle) (fresh : Z)
  : result Allocator :=
  throwIfInvalid st (objects st other);;
  st1 ← (if size (objects st h) =? size (objects st other) then Ok st
         else reallocate st h fresh (size (objects st other)));
  data ← read st1 other 0 (size (objects st1 other));
  write st1 h 0 data.

(** [~Allocation()] *)
Definition destroy (st : Allocator) (h : handle) : result Allocator :=
  if negb (allocator (objects st h)) then Ok st
  else if isBound st h then unbind st h
  else Ok st.

(** One round of the first loop of [~Allocator()], with [key] the first
    key of [bindings]. *)
Definition unbindFirst (st : Allocator) (key : Z) : result Allocator :=
  match begin (bindingSet st key) with
  | Some h => unbind st h
  | None =>
      (* the binding set is empty, check if it's still pooled.
         if so, erase it. *)
      st1 ← (if isPooled st key then unpool st key else Ok st);
      Ok (setBindings (delete key (bindings st1)) st1)
  end.

(** The first loop of [~Allocator()]: after every round it starts over
    from [bindings.begin()], until [bindings] is empty. [None]: the
    [fuel] rounds allowed were not enough. *)
Fixpoint unbindEverything (fuel : nat) (st : Allocator)
  : option (result Allocator) :=
  match head (keys (bindings st)) with
  | None => Some (Ok st)
  | Some key =>
      match fuel with
      | O => None
      | S fuel' =>
          match unbindFirst st key with
          | Ok st' => unbindEverything fuel' st'
          | Throw e => Some (Throw e)
          end
      end
  end.

(** One round for every entry of [bindings] and one for every allocation
    bound: the rounds the first loop of [~Allocator()] takes at most. *)
Definition rounds (st : Allocator) : nat :=
  map_fold (λ (_ : Z) (refs : gset handle) (acc : nat),
              S (base.size refs + acc)) 0%nat (bindings st).

(** The second loop of [~Allocator()], over [allocations], with [iter]
    at the head of [l]. When [deallocate] has erased the allocation
    under [iter] from [allocations], the [++iter] that follows steps from
    an erased element. *)
Fixpoint deallocate_loop (st : Allocator) (l : list handle) : result Allocator :=
  match l with
  | [] => Ok st
  | h :: l' =>
      if bool_decide (h ∈ allocations st) then
        st' ← Allocator_deallocate st h;
        if bool_decide (h ∈ allocations st')
        then deallocate_loop st' l'
        else Throw ErasedIterator
      else deallocate_loop st l'
  end.

(** The third loop of [~Allocator()], over [memoryPool], with [iter] at
    the head of [l]. When [unpool] has erased the entry under [iter],
    the [++iter] that follows steps from an erased element. *)
Fixpoint unpool_everything (st : Allocator) (l : list Z) : result Allocator :=
  match l with
  | [] => Ok st
  | key :: l' =>
      if isPooled st key then
        st' ← unpool st key;
        if isPooled st' key
        then unpool_everything st' l'
        else Throw ErasedIterator
      else unpool_everything st l'
  end.

(** [~Allocator()] *)
Definition Allocator_destroy (fuel : nat) (st : Allocator)
  : option (result Allocator) :=
  unbound ← unbindEverything fuel st;
  Some (st1 ← unbound;
        (* if there are any allocations left, delete them *)
        st2 ← deallocate_loop st1 (ordered (allocations st1));
        (* if there are any entries left in the memory pool, delete them *)
        unpool_everything st2 (keys (memoryPool st2))).

(** *** Consistency of the tables *)

(** Every allocation in a binding set points at the extent it is bound
    to and has its size, and the extent is pooled. *)
Definition extent_bound (st : Allocator) (key : Z) (refs : gset handle) : Prop :=
  set_Forall (λ h, allocator (objects st h) = true
                   ∧ pointer (objects st h) = key
                   ∧ size (objects st h) = poolSize st key
                   ∧ is_Some (memoryPool st !! key)) refs.

(** A pooled extent is not empty, does not start at [NULL], lies inside
    the address space, is backed by accessible memory and shares no byte
    with another pooled extent. *)
Definition extent_pooled (st : Allocator) (key n : Z) : Prop :=
  0 < key ∧ 0 < n ∧ key + n < SIZE_MOD
  ∧ Forall (λ i, is_Some (memory st !! (key + i))) (seqZ 0 n)
  ∧ map_Forall (λ key' n', key ≠ key' → key + n ≤ key' ∨ key' + n' ≤ key)
               (memoryPool st).

Definition consistent (st : Allocator) : Prop :=
  map_Forall (extent_bound st) (bindings st)
  ∧ map_Forall (extent_pooled st) (memoryPool st).

(** [st'] is [st] with some of its pooled extents released: what is
    still pooled was pooled, the bytes of a released extent are given
    back, and no other byte of the memory has changed. *)
Definition released (st st' : Allocator) : Prop :=
  (∀ k n, memoryPool st' !! k = Some n → memoryPool st !! k = Some n)
  ∧ (∀ k n, memoryPool st !! k = Some n → memoryPool st' !! k = None →
       unused (memory st') k n)
  ∧ (∀ x, (∀ k n, memoryPool st !! k = Some n → ¬ k ≤ x < k + n) →
       memory st' !! x = memory st !! x)
  ∧ (∀ x, memory st' !! x = None ∨ memory st' !! x = memory st !! x).


Global Instance extent_bound_dec st key refs : Decision (extent_bound st key refs).
Proof. unfold extent_bound. apply _. Defined.
Global Instance extent_pooled_dec st key n : Decision (extent_pooled st key n).
Proof. unfold extent_pooled. apply _. Defined.
Global Instance consistent_dec st : Decision (consistent st).
Proof. unfold consistent. apply _. Defined.

End Ptr.

(** ** The address-based allocator and its split engine *)

(** Modelled from the spec: [Address] and [AddressPool] (address.hpp is not
    among the sources). An [Address] is a position in the allocator's
    space, ordered by position, with offset arithmetic on the position; it
    is the word [label()] returns. An [AddressPool] is the pair of labels
    it was built from, and its [size()] is their distance. *)

Module Addr.

(** An [Allocation] object: in this version its only state is the
    pointer to its allocator; base address and size live in the
    allocator's tables. *)
Record Allocation : Type := mkAllocation {
  allocator : bool;
}.

Record Allocator : Type := mkAllocator {
  split : bool;
  pooledMemory : gmap Z Z;
  bindings : gmap Z (gset handle);
  associations : gmap handle Z;
  addressPools : gmap Z (Z * Z);
  objects : handle → Allocation;
  memory : Memory;
}.

Definition empty : Allocator :=
  mkAllocator true ∅ ∅ ∅ ∅ (λ _, mkAllocation false) ∅.

Definition setSplit (b : bool) (st : Allocator) : Allocator :=
  mkAllocator b (pooledMemory st) (bindings st) (associations st)
    (addressPools st) (objects st) (memory st).
Definition setPool (p : gmap Z Z) (mm : Memory) (st : Allocator) : Allocator :=
  mkAllocator (split st) p (bindings st) (associations st)
    (addressPools st) (objects st) mm.
Definition setMemory (mm : Memory) (st : Allocator) : Allocator :=
  mkAllocator (split st) (pooledMemory st) (bindings st) (associations st)
    (addressPools st) (objects st) mm.
Definition setTables (b : gmap Z (gset handle)) (a : gmap handle Z)
    (p : gmap Z (Z * Z)) (st : Allocator) : Allocator :=
  mkAllocator (split st) (pooledMemory st) b a p (objects st) (memory st).
Definition setObject (h : handle) (a : Allocation) (st : Allocator) : Allocator :=
  mkAllocator (split st) (pooledMemory st) (bindings st) (associations st)
    (addressPools st) (<[h := a]> (objects st)) (memory st).

Definition allowSplitting (st : Allocator) : Allocator := setSplit true st.
Definition denySplitting (st : Allocator) : Allocator := setSplit false st.
Definition splits (st : Allocator) : bool := split st.

Definition bindingSet (st : Allocator) (address : Z) : gset handle :=
  default ∅ (bindings st !! address).
Definition poolSize (st : Allocator) (address : Z) : Z :=
  default 0 (pooledMemory st !! address).
(** [this->addressPools[base]]; a pool that was never built spans
    nothing. *)
Definition addressPool (st : Allocator) (base : Z) : Z * Z :=
  default (0, 0) (addressPools st !! base).

(** *** The raw primitives of the local backing store *)

(** [LocalAllocator::readAddress] *)
Definition readAddress (st : Allocator) (address sz : Z) : result Data :=
  match readBytes (memory st) address (Z.to_nat sz) with
  | Some data => Ok data
  | None => Throw (KernelFaultException address sz)
  end.

(** [LocalAllocator::writeAddress] *)
Definition writeAddress (st : Allocator) (destination : Z) (data : Data)
  : result Allocator :=
  match writeBytes (memory st) destination data with
  | Some mm => Ok (setMemory mm st)
  | None => Throw (KernelFaultException destination (Z.of_nat (length data)))
  end.

(** Modelled from the spec: [zeroAddress] (not among the sources) writes
    [sz] zero bytes at [address]; it is what makes a pooled extent
    zero-initialized. *)
Definition zeroAddress (st : Allocator) (address sz : Z) : result Allocator :=
  writeAddress st address (zeros sz).

Definition isPooled (st : Allocator) (address : Z) : bool :=
  bool_decide (is_Some (pooledMemory st !! address)).

Definition throwIfNotPooled (st : Allocator) (address : Z) : result unit :=
  if isPooled st address then Ok () else Throw (UnpooledAddressException address).

(** [LocalAllocator::poolAddress]; [fresh] is what [new BYTE[size]]
    hands out (release build: the extent is zeroed). *)
Definition poolAddress (st : Allocator) (fresh sz : Z) : result (Z * Allocator) :=
  let st1 := setPool (<[fresh := sz]> (pooledMemory st))
                     (mapBytes (memory st) fresh (Z.to_nat sz)) st in
  st2 ← zeroAddress st1 fresh sz;
  Ok (fresh, st2).

(** [LocalAllocator::unpoolAddress] *)
Definition unpoolAddress (st : Allocator) (address : Z) : result Allocator :=
  throwIfNotPooled st address;;
  st1 ← zeroAddress st address (poolSize st address);
  Ok (setPool (delete address (pooledMemory st1))
              (unmapBytes (memory st1) address (Z.to_nat (poolSize st address)))
              st1).

(** [LocalAllocator::repoolAddress] *)
Definition repoolAddress (st : Allocator) (fresh address newSize : Z)
  : result (Z * Allocator) :=
  throwIfNotPooled st address;;
  '(newAddress, st1) ← poolAddress st fresh newSize;
  data ← readAddress st1 address (Z.min (poolSize st1 address) newSize);
  st2 ← writeAddress st1 newAddress data;
  (* delete the old address, but don't unpool its bindings *)
  if decide (newAddress ≠ address)
  then st3 ← unpoolAddress st2 address; Ok (newAddress, st3)
  else Ok (newAddress, st2).

(** *** Allocator predicates *)

(** From here on [Addr] reads the source with the circle of calls
    taken out: where a function asks an allocation for its [address()],
    the answer is the address the allocation is associated with. The
    functions as they are written, with the call in its place, are in
    [Frame]. *)

Definition isAssociated (st : Allocator) (h : handle) : bool :=
  bool_decide (is_Some (associations st !! h)).

(** [Allocator::isBound]. The source asks the allocation for its
    address, which resolves through [Allocator::address] to the base the
    allocation is associated with; an allocation that is associated with
    nothing is bound nowhere. *)
Definition Allocator_isBound (st : Allocator) (h : handle) : bool :=
  match associations st !! h with
  | None => false
  | Some address =>
      match bindings st !! address with
      | None => false
      | Some refs => bool_decide (h ∈ refs)
      end
  end.

Definition throwIfNotBound (st : Allocator) (h : handle) : result unit :=
  if Allocator_isBound st h then Ok () else Throw UnboundAllocationException.

(** Declared in the header only; reached after [isBound] succeeded. *)
Definition throwIfNotAssociated (st : Allocator) (h : handle) : result unit :=
  if isAssociated st h then Ok () else Throw UnboundAllocationException.

(** [this->associations[&allocation]] *)
Definition baseOf (st : Allocator) (h : handle) : Z :=
  default 0 (associations st !! h).

(** [Allocator::address(allocation, offset)] *)
Definition Allocator_address (st : Allocator) (h : handle) (offset : Z)
  : result Z :=
  throwIfNotBound st h;;
  Ok (wrap (baseOf st h + offset)).

(** [Allocator::querySize] *)
Definition querySize (st : Allocator) (h : handle) : result Z :=
  throwIfNotBound st h;;
  let '(lo, hi) := addressPool st (baseOf st h) in
  Ok (wrap (hi - lo)).

(** *** Allocation predicates *)

Definition throwIfNoAllocator (st : Allocator) (h : handle) : result unit :=
  if allocator (objects st h) then Ok () else Throw NoAllocatorException.

(** [Allocation::size] *)
Definition Allocation_size (st : Allocator) (h : handle) : result Z :=
  throwIfNoAllocator st h;;
  querySize st h.

Definition isNull (st : Allocator) (h : handle) : result bool :=
  if negb (allocator (objects st h)) then Ok true
  else if negb (isAssociated st h) then Ok true
  else n ← Allocation_size st h; Ok (n =? 0).

Definition isBound (st : Allocator) (h : handle) : result bool :=
  isNull st h ≫= λ nul : bool,
  if nul then Ok false else Ok (Allocator_isBound st h).

(** [Allocation::isValid]; the address tested is the base the
    allocation is associated with. *)
Definition isValid (st : Allocator) (h : handle) : result bool :=
  isBound st h ≫= λ bound : bool,
  if bound then Ok (isPooled st (baseOf st h)) else Ok false.

(** [Allocation::throwIfInvalid]. The allocation's address is null when
    the allocation is associated with nothing. *)
Definition throwIfInvalid (st : Allocator) (h : handle) : result unit :=
  isValid st h ≫= λ valid : bool,
  if valid then Ok ()
  else if negb (allocator (objects st h)) then Throw NoAllocatorException
  else if negb (isAssociated st h) then Throw DeadAllocationException
  else
    n ← Allocation_size st h;
    if n =? 0 then Throw Allocation_ZeroSizeException
    else throwIfNotPooled st (baseOf st h).

(** [Allocation::address(offset)] *)
Definition address (st : Allocator) (h : handle) (offset : Z) : result Z :=
  throwIfInvalid st h;;
  Allocator_address st h offset.

Definition start (st : Allocator) (h : handle) : result Z := address st h 0.

(** [Allocation::end] *)
Definition end_ (st : Allocator) (h : handle) : result Z :=
  n ← Allocation_size st h;
  address st h n.

(** [inRange(const Address &address)] *)
Definition inRange_address (st : Allocator) (h : handle) (a : Z) : result bool :=
  s ← start st h;
  if s <=? a then e ← end_ st h; Ok (a <? e) else Ok false.

(** [inRange(const Address &address, SIZE_T size)] *)
Definition inRange_address_size (st : Allocator) (h : handle) (a sz : Z)
  : result bool :=
  if sz =? 0 then Ok false
  else
    inRange_address st h a ≫= λ first : bool,
    if first then inRange_address st h (wrap (a + sz - 1)) else Ok false.

(** [throwIfNotInRange(const Address &address)] *)
Definition throwIfNotInRange (st : Allocator) (h : handle) (a : Z) : result unit :=
  inRange_address st h a ≫= λ ok : bool,
  if ok then Ok () else Throw (AddressOutOfRangeException a 0).

(** [throwIfNotInRange(const Address &address, SIZE_T size)] *)
Definition throwIfNotInRange_size (st : Allocator) (h : handle) (a sz : Z)
  : result unit :=
  inRange_address_size st h a sz ≫= λ ok : bool,
  if ok then Ok () else Throw (AddressOutOfRangeException a sz).

(** *** Locating allocations *)

(** [*bindIter->second.begin()] for the entry of [bindings] at [key];
    dereferencing [begin()] of an empty set reads what is not there. *)
Definition front (st : Allocator) (key : Z) : result handle :=
  match begin (bindingSet st key) with
  | Some h => Ok h
  | None => Throw AccessViolation
  end.

(** [Allocator::find]. The result is the allocation found, named by its
    handle; [None] is [this->null()]. *)
Definition find (st : Allocator) (a : Z) : result (option handle) :=
  if decide (is_Some (bindings st !! a)) then Some <$> front st a
  else
    (* bindings.upper_bound(address), wound back by one *)
    match last_at_or_below (bindings st) a with
    | None => Ok None
    | Some key =>
        h ← front st key;
        inRange_address st h a ≫= λ ok : bool,
        if ok then Ok (Some h) else Ok None
    end.

(** [isNull()] of what [find] returned; the null allocation has an
    allocator and is associated with nothing. *)
Definition found_isNull (st : Allocator) (found : option handle) : result bool :=
  match found with
  | None => Ok true
  | Some h => isNull st h
  end.

Definition hasAddress (st : Allocator) (a : Z) : result bool :=
  found ← find st a;
  negb <$> found_isNull st found.

Definition throwIfNoAllocation (st : Allocator) (a : Z) : result unit :=
  hasAddress st a ≫= λ ok : bool,
  if ok then Ok () else Throw (AddressHasNoAllocationException a).

(** [Allocator::willSplit] *)
Definition willSplit (st : Allocator) (a sz : Z) : result bool :=
  found ← find st a;
  (* technically false-- you won't split an allocation that doesn't exist. *)
  found_isNull st found ≫= λ nul : bool,
  if nul then Ok false
  else
    match found with
    | None => Ok false
    | Some foundAllocation =>
        (* address and size are within range of the allocation, won't split *)
        inRange_address_size st foundAllocation a sz ≫= λ inside : bool,
        if inside then Ok false
        else
          endAddr ← end_ st foundAllocation;
          match upper_bound (pooledMemory st) a with
          | None => Ok false
          | Some next => Ok (bool_decide (endAddr = next))
          end
    end.

(** *** Reading and writing *)

(** [Allocator::read(allocation, address, size)] *)
Definition read_allocation (st : Allocator) (h : handle) (a sz : Z)
  : result Data :=
  throwIfNotInRange_size st h a sz;;
  readAddress st a sz.

(** [Allocator::write(allocation, destination, data)] *)
Definition write_allocation (st : Allocator) (h : handle) (destination : Z)
    (data : Data) : result Allocator :=
  throwIfNotInRange_size st h destination (Z.of_nat (length data));;
  writeAddress st destination data.

(** [find(address)] passed on as an allocation: the null allocation
    fails its range check on [start()]. *)
Definition read_found (st : Allocator) (a sz : Z) : result Data :=
  found ← find st a;
  match found with
  | Some h => read_allocation st h a sz
  | None =>
      if sz =? 0 then Throw (AddressOutOfRangeException a sz)
      else Throw DeadAllocationException
  end.

Definition write_found (st : Allocator) (a : Z) (data : Data)
  : result Allocator :=
  found ← find st a;
  match found with
  | Some h => write_allocation st h a data
  | None =>
      if Z.of_nat (length data) =? 0
      then Throw (AddressOutOfRangeException a 0)
      else Throw DeadAllocationException
  end.

(** [result.resize(result.size() + stackData.size())] followed by
    [MoveMemory(result.data() + result.size(), stackData.data(),
    stackData.size())]: the destination is computed after the resize,
    so it starts one past the last element and no element of [result]
    is overwritten. *)
Definition append_chunk (collected stackData : Data) : Data :=
  let resized := collected ++ replicate (length stackData) Byte.x00 in
  list_inserts (length resized) stackData resized.

(** The loop of [splitRead] from the entry of [bindings] at the head of
    [ks]; [ks] are the keys from [bindIter] to [bindings.end()]. It
    yields what is left of [size] and the [result] vector ([collected])
    when the loop is left. *)
Fixpoint splitRead_loop (st : Allocator) (ks : list Z)
    (addressIter sz : Z) (collected : Data) : result (Z * Data) :=
  match ks with
  | [] => Ok (sz, collected)
  | key :: ks' =>
      boundAlloc ← front st key;
      inRange_address_size st boundAlloc addressIter sz ≫= λ inRange : bool,
      '(stackData, sz') ←
        (if inRange then
           stackData ← read_allocation st boundAlloc addressIter sz;
           Ok (stackData, 0)
         else
           e ← end_ st boundAlloc;
           let newSize := wrap (e - addressIter) in
           stackData ← read_allocation st boundAlloc addressIter newSize;
           Ok (stackData, wrap (sz - newSize)));
      let result' := append_chunk collected stackData in
      if sz' =? 0 then Ok (sz', result')
      else
        match ks' with
        | [] => Ok (sz', result')
        | next :: _ =>
            nextAlloc ← front st next;
            e ← end_ st boundAlloc;
            s ← start st nextAlloc;
            (* we've reached a splitting boundary, break out *)
            if decide (e ≠ s) then Ok (sz', result')
            else splitRead_loop st ks' next sz' result'
        end
  end.

(** The keys of [bindings] from the entry [splitRead] starts at:
    [lower_bound(startAddress)], wound back by one unless it is exact. *)
Definition keysFrom (st : Allocator) (a : Z) : list Z :=
  match last_at_or_below (bindings st) a with
  | Some first => filter (λ k, first ≤ k) (keys (bindings st))
  | None => keys (bindings st)
  end.

(** [Allocator::read(address, size)] as it runs when [willSplit] has
    answered no. *)
Definition read_unsplit (st : Allocator) (a sz : Z) : result Data :=
  throwIfNoAllocation st a;;
  read_found st a sz.

(** [Allocator::splitRead] *)
Definition splitRead (st : Allocator) (startAddress sz : Z) : result Data :=
  let oldSize := sz in
  throwIfNoAllocation st startAddress;;
  willSplit st startAddress sz ≫= λ will : bool,
  (* won't split, do a normal read *)
  (if will then Ok () else read_unsplit st startAddress sz;; Ok ());;
  '(remaining, collected) ←
    splitRead_loop st (keysFrom st startAddress) startAddress sz [];
  if remaining =? 0 then Ok collected
  else Throw (SplitsExceededException startAddress oldSize).

(** [BlockData(data.data() + windowLeft, n)]; bytes past the end of
    [data] lie outside the vector and read as zero here. *)
Definition BlockData (data : Data) (windowLeft n : Z) : Data :=
  take (Z.to_nat n)
    (drop (Z.to_nat windowLeft) data ++ replicate (Z.to_nat n) Byte.x00).

(** The loop of [splitWrite]; it yields [windowLeft] and the allocator
    when the loop is left. *)
Fixpoint splitWrite_loop (st : Allocator) (ks : list Z) (data : Data)
    (addressIter sz windowLeft windowRight : Z) : result (Z * Allocator) :=
  match ks with
  | [] => Ok (windowLeft, st)
  | key :: ks' =>
      boundAlloc ← front st key;
      inRange_address_size st boundAlloc addressIter sz ≫= λ inRange : bool,
      windowRight' ←
        (if inRange then Ok sz
         else e ← end_ st boundAlloc;
              Ok (wrap (windowRight + wrap (e - addressIter))));
      let dataSlice := BlockData data windowLeft (wrap (windowRight' - windowLeft)) in
      st' ← write_allocation st boundAlloc addressIter dataSlice;
      let windowLeft' := windowRight' in
      if windowLeft' =? Z.of_nat (length data) then Ok (windowLeft', st')
      else
        match ks' with
        | [] => Ok (windowLeft', st')
        | next :: _ =>
            nextAlloc ← front st' next;
            e ← end_ st' boundAlloc;
            s ← start st' nextAlloc;
            if decide (e ≠ s) then Ok (windowLeft', st')
            else splitWrite_loop st' ks' data next sz windowLeft' windowRight'
        end
  end.

(** [Allocator::write(address, data)] as it runs when [willSplit] has
    answered no (the source passes [data] on to the three-argument
    access of the allocation found). *)
Definition write_unsplit (st : Allocator) (a : Z) (data : Data)
  : result Allocator :=
  throwIfNoAllocation st a;;
  write_found st a data.

(** [Allocator::splitWrite] *)
Definition splitWrite (st : Allocator) (destination : Z) (data : Data)
  : result Allocator :=
  let sz := Z.of_nat (length data) in
  throwIfNoAllocation st destination;;
  willSplit st destination sz ≫= λ will : bool,
  st1 ← (if will then Ok st else write_unsplit st destination data);
  '(windowLeft, st2) ←
    splitWrite_loop st1 (keysFrom st1 destination) data destination sz 0 0;
  if windowLeft =? sz then Ok st2
  else Throw (SplitsExceededException destination sz).

(** *** Allocation entry points *)

(** [Allocation::read(const Address &address, SIZE_T size)] *)
Definition read_address (st : Allocator) (h : handle) (a sz : Z) : result Data :=
  throwIfInvalid st h;;
  throwIfNotInRange st h a;;
  willSplit st a sz ≫= λ will : bool,
  if will then splitRead st a sz else read_allocation st h a sz.

(** [Allocation::read(SIZE_T offset, SIZE_T size)] *)
Definition read (st : Allocator) (h : handle) (offset sz : Z) : result Data :=
  catchAddressOutOfRange
    (a ← address st h offset; read_address st h a sz)
    (OffsetOutOfRangeException offset sz).

(** [Allocation::write(const Address &destAddress, const Data data)] *)
Definition write_address (st : Allocator) (h : handle) (destAddress : Z)
    (data : Data) : result Allocator :=
  throwIfInvalid st h;;
  throwIfNotInRange st h destAddress;;
  willSplit st destAddress (Z.of_nat (length data)) ≫= λ will : bool,
  if will then splitWrite st destAddress data
  else write_allocation st h destAddress data.

(** [Allocation::write(SIZE_T offset, const Data data)] *)
Definition write (st : Allocator) (h : handle) (offset : Z) (data : Data)
  : result Allocator :=
  catchAddressOutOfRange
    (a ← address st h offset; write_address st h a data)
    (OffsetOutOfRangeException offset (Z.of_nat (length data))).


End Addr.

(** ** The address-based allocator, call by call *)

(** The functions of the address-based version call each other in a
    circle: [Allocator::isBound] asks the allocation for its [address()],
    which checks [throwIfInvalid()], which asks [isValid()], [isBound()],
    [isNull()], [size()], [Allocator::querySize], [throwIfNotBound] and so
    [Allocator::isBound] again. [Frame] holds the bodies of the functions
    as they are written, with the call of [address()] passed in;
    [Calls] closes the circle, with a bound on the calls of [address()]
    that can be nested before the stack is used up. *)

Module Frame.

(** What a call leaves behind: the allocator as it is when the call
    returns, or when the exception leaves it. *)
Inductive outcome (A : Type) : Type :=
  | Returns (a : A) (st : Addr.Allocator)
  | Throws (e : Exception) (st : Addr.Allocator).
Arguments Returns {A} a st.
Arguments Throws {A} e st.

Definition run (A : Type) : Type := Addr.Allocator → outcome A.

Global Instance run_ret : MRet run := λ A a st, Returns a st.
Global Instance run_bind : MBind run := λ A B f m st,
  match m st with
  | Returns a st' => f a st'
  | Throws e st' => Throws e st'
  end.

(** A [const] member function reads the allocator. *)
Definition const {A} (q : Addr.Allocator → result A) : run A := λ st,
  match q st with Ok a => Returns a st | Throw e => Throws e st end.

Definition throw {A} (e : Exception) : run A := λ st, Throws e st.

Definition update (f : Addr.Allocator → Addr.Allocator) : run unit :=
  λ st, Returns () (f st).

Definition get {A} (f : Addr.Allocator → A) : run A := λ st, Returns (f st) st.

(** The exception a call ended with, and the allocator it left. *)
Definition raised {A} (o : outcome A) : option Exception :=
  match o with Returns _ _ => None | Throws e _ => Some e end.
Definition left {A} (o : outcome A) : Addr.Allocator :=
  match o with Returns _ st | Throws _ st => st end.

Section frame.

(** [allocation.address()], as the call runs. *)
Variable address' : Addr.Allocator → handle → result Z.

(** [clone], as the call of it in [operator=] runs. It comes back to
    [find] through [read]. *)
Variable clone' : handle → handle → run unit.

(** [this->read(startAddress, size)], as the call runs from [splitRead],
    which [Allocator::read] calls in turn. *)
Variable read' : Z → Z → run Data.

(** The place of the [Allocation] that [find] returns by value. *)
Variable tmp : handle.

(** *** Allocator predicates *)

(** [Allocator::isBound] *)
Definition Allocator_isBound (st : Addr.Allocator) (h : handle) : result bool :=
  address ← address' st h;
  match Addr.bindings st !! address with
  | None => Ok false
  | Some refs => Ok (bool_decide (h ∈ refs))
  end.

Definition throwIfBound (st : Addr.Allocator) (h : handle) : result unit :=
  Allocator_isBound st h ≫= λ bound : bool,
  if bound then Throw BoundAllocationException else Ok ().

Definition throwIfNotBound (st : Addr.Allocator) (h : handle) : result unit :=
  Allocator_isBound st h ≫= λ bound : bool,
  if bound then Ok () else Throw UnboundAllocationException.

(** [Allocator::addressOf] *)
Definition addressOf (st : Addr.Allocator) (h : handle) : result Z :=
  throwIfNotBound st h;;
  Ok (Addr.baseOf st h).

(** [Allocator::address(allocation, offset)] *)
Definition Allocator_address (st : Addr.Allocator) (h : handle) (offset : Z)
  : result Z :=
  throwIfNotBound st h;;
  Ok (wrap (Addr.baseOf st h + offset)).

(** [Allocator::querySize] *)
Definition querySize (st : Addr.Allocator) (h : handle) : result Z :=
  throwIfNotBound st h;;
  let '(lo, hi) := Addr.addressPool st (Addr.baseOf st h) in
  Ok (wrap (hi - lo)).

(** *** Allocation predicates *)

(** [Allocation::size] *)
Definition Allocation_size (st : Addr.Allocator) (h : handle) : result Z :=
  Addr.throwIfNoAllocator st h;;
  querySize st h.

Definition isNull (st : Addr.Allocator) (h : handle) : result bool :=
  if negb (Addr.allocator (Addr.objects st h)) then Ok true
  else if negb (Addr.isAssociated st h) then Ok true
  else n ← Allocation_size st h; Ok (n =? 0).

Definition isBound (st : Addr.Allocator) (h : handle) : result bool :=
  isNull st h ≫= λ nul : bool,
  if nul then Ok false else Allocator_isBound st h.

Definition isValid (st : Addr.Allocator) (h : handle) : result bool :=
  isBound st h ≫= λ bound : bool,
  if bound then a ← address' st h; Ok (Addr.isPooled st a) else Ok false.

(** [Allocation::throwIfInvalid]. After [isValid()] it names three
    members this version of the class does not have: [address] is read as
    the address the allocation is associated with, null when there is
    none, [size] as [size()] and [allocation] as that address again. *)
Definition throwIfInvalid (st : Addr.Allocator) (h : handle) : result unit :=
  isValid st h ≫= λ valid : bool,
  if valid then Ok ()
  else if negb (Addr.allocator (Addr.objects st h)) then Throw NoAllocatorException
  else if negb (Addr.isAssociated st h) then Throw DeadAllocationException
  else
    n ← Allocation_size st h;
    if n =? 0 then Throw Allocation_ZeroSizeException
    else Addr.throwIfNotPooled st (Addr.baseOf st h).

(** [Allocation::address(void)] *)
Definition address (st : Addr.Allocator) (h : handle) : result Z :=
  throwIfInvalid st h;;
  Allocator_address st h 0.

(** [Allocation::address(std::intptr_t offset)] *)
Definition address_offset (st : Addr.Allocator) (h : handle) (offset : Z)
  : result Z :=
  throwIfInvalid st h;;
  Allocator_address st h offset.

Definition start (st : Addr.Allocator) (h : handle) : result Z := address' st h.

(** [Allocation::end]; [getSize()] is [size()]. *)
Definition end_ (st : Addr.Allocator) (h : handle) : result Z :=
  n ← Allocation_size st h;
  address_offset st h n.

(** [Allocation::baseAddress]. The class has no [throwIfNotBound()] of
    its own in this version; the call is read as the allocator's
    [throwIfNotBound] of this allocation, which [addressOf] runs again. *)
Definition baseAddress (st : Addr.Allocator) (h : handle) : result Z :=
  throwIfNotBound st h;;
  addressOf st h.

(** [inRange(const Address &address)] *)
Definition inRange_address (st : Addr.Allocator) (h : handle) (a : Z)
  : result bool :=
  s ← start st h;
  if s <=? a then e ← end_ st h; Ok (a <? e) else Ok false.

(** [inRange(const Address &address, SIZE_T size)] *)
Definition inRange_address_size (st : Addr.Allocator) (h : handle) (a sz : Z)
  : result bool :=
  if sz =? 0 then Ok false
  else
    inRange_address st h a ≫= λ first : bool,
    if first then inRange_address st h (wrap (a + sz - 1)) else Ok false.

(** [inRange(SIZE_T offset)] *)
Definition inRange_offset (st : Addr.Allocator) (h : handle) (offset : Z)
  : result bool :=
  isNull st h ≫= λ nul : bool,
  if nul then Ok false
  else
    n ← Allocation_size st h;
    if n =? 0 then Ok false
    else s ← start st h; inRange_address st h (wrap (s + offset)).

(** [inRange(SIZE_T offset, SIZE_T size)] *)
Definition inRange_offset_size (st : Addr.Allocator) (h : handle) (offset sz : Z)
  : result bool :=
  if sz =? 0 then Ok false
  else
    inRange_offset st h offset ≫= λ first : bool,
    if first then inRange_offset st h (wrap (offset + sz - 1)) else Ok false.

(** [throwIfNotInRange(const Address &address, SIZE_T size)] *)
Definition throwIfNotInRange_size (st : Addr.Allocator) (h : handle) (a sz : Z)
  : result unit :=
  inRange_address_size st h a sz ≫= λ ok : bool,
  if ok then Ok () else Throw (AddressOutOfRangeException a sz).

(** *** Binding *)

(** The statements of [bind] that follow its two checks. *)
Definition bind_tables (h : handle) (a : Z) (st : Addr.Allocator)
  : Addr.Allocator :=
  let b := <[a := {[h]} ∪ Addr.bindingSet st a]> (Addr.bindings st) in
  let pools :=
    if decide (is_Some (Addr.addressPools st !! a)) then Addr.addressPools st
    else <[a := (a, wrap (a + Addr.poolSize st a))]> (Addr.addressPools st) in
  Addr.setObject h (Addr.mkAllocation true)
    (Addr.setTables b (<[h := a]> (Addr.associations st)) pools st).

(** [Allocator::bind] *)
Definition bind (h : handle) (a : Z) : run unit :=
  const (λ st, Addr.throwIfNotPooled st a);;
  const (λ st, throwIfBound st h);;
  update (bind_tables h a).

(** [Allocator::unpool] *)
Definition unpool (a : Z) : run unit := throw VoidAllocatorException.

(** The statements of [rebind] from its last check up to the test of
    the old binding set. *)
Definition rebind_tables (h : handle) (newAddress : Z) (st : Addr.Allocator)
  : Addr.Allocator :=
  let oldAddress := Addr.baseOf st h in
  let b1 := <[newAddress := {[h]} ∪ Addr.bindingSet st newAddress]>
              (Addr.bindings st) in
  let b2 := <[oldAddress := default ∅ (b1 !! oldAddress) ∖ {[h]}]> b1 in
  Addr.setObject h (Addr.mkAllocation true)
    (Addr.setTables b2 (<[h := newAddress]> (Addr.associations st))
       (Addr.addressPools st) st).

(** [this->bindings.erase(address)] *)
Definition erase (a : Z) (st : Addr.Allocator) : Addr.Allocator :=
  Addr.setTables (delete a (Addr.bindings st)) (Addr.associations st)
    (Addr.addressPools st) st.

(** [Allocator::rebind]; [moveIdentifier] re-labels [Address] objects
    and touches none of the tables. *)
Definition rebind (h : handle) (newAddress : Z) : run unit :=
  const (λ st, Allocator_isBound st h) ≫= λ bound : bool,
  if negb bound then bind h newAddress
  else
    const (λ st, Addr.throwIfNotAssociated st h);;
    const (λ st, a ← address' st h; Addr.throwIfNotPooled st a);;
    const (λ st, Addr.throwIfNotPooled st newAddress);;
    oldAddress ← get (λ st, Addr.baseOf st h);
    update (rebind_tables h newAddress);;
    get (λ st, size (Addr.bindingSet st oldAddress)) ≫= λ count : nat,
    if decide (count = 0%nat) then
      update (erase oldAddress);;
      unpool oldAddress
    else mret ().

(** The statements of [unbind] from its last check up to the test of
    the binding set. *)
Definition unbind_tables (h : handle) (st : Addr.Allocator) : Addr.Allocator :=
  let boundAddress := Addr.baseOf st h in
  Addr.setTables
    (<[boundAddress := Addr.bindingSet st boundAddress ∖ {[h]}]> (Addr.bindings st))
    (delete h (Addr.associations st))
    (delete boundAddress (Addr.addressPools st)) st.

(** [Allocator::unbind]. [allocation->pointer] names a member this
    version of the class does not have; it is read as the address the
    allocation is associated with. *)
Definition unbind (h : handle) : run unit :=
  const (λ st, throwIfNotBound st h);;
  const (λ st, Addr.throwIfNotPooled st (Addr.baseOf st h));;
  boundAddress ← get (λ st, Addr.baseOf st h);
  update (unbind_tables h);;
  get (λ st, size (Addr.bindingSet st boundAddress)) ≫= λ count : nat,
  if decide (count = 0%nat) then
    update (erase boundAddress);;
    get (λ st, Addr.isPooled st boundAddress) ≫= λ pooled : bool,
    if pooled then unpool boundAddress else mret ()
  else mret ().

(** *** Allocation entry points *)

(** [Allocation::deallocate] *)
Definition deallocate (h : handle) : run unit :=
  const (λ st, throwIfInvalid st h);;
  const (λ st, throwIfNotBound st h);;
  unbind h.

(** [this->allocator = allocation.allocator] *)
Definition adopt (h other : handle) : run unit :=
  update (λ st, Addr.setObject h
                  (Addr.mkAllocation (Addr.allocator (Addr.objects st other))) st).

(** [Allocation::copy] *)
Definition copy (h other : handle) : run unit :=
  const (λ st, throwIfInvalid st other);;
  adopt h other;;
  const (λ st, isBound st h) ≫= λ bound : bool,
  target ← const (λ st, baseAddress st other);
  if bound then rebind h target else bind h target.

(** [operator=(Allocation &allocation)]; its last statement copies
    between members the class does not have. *)
Definition assign (h other : handle) : run unit :=
  adopt h other;;
  const (λ st, isValid st other) ≫= λ valid : bool,
  if valid then copy h other else mret ().

(** [operator=(const Allocation *allocation)] *)
Definition assign_pointer (h other : handle) : run unit :=
  adopt h other;;
  const (λ st, isValid st other) ≫= λ valid : bool,
  if valid then clone' h other else mret ().

(** [~Allocation()] *)
Definition destroy (h : handle) : run unit :=
  get (λ st, Addr.allocator (Addr.objects st h)) ≫= λ hasAllocator : bool,
  if negb hasAllocator then mret ()
  else
    const (λ st, isBound st h) ≫= λ bound : bool,
    (if bound then unbind h else mret ());;
    update (Addr.setObject h (Addr.mkAllocation false)).

(** The scope of the temporary [h] around [body]: its destructor runs
    when [body] returns and when an exception leaves [body]; what the
    destructor throws ends the call in both cases. *)
Definition scoped {A} (h : handle) (body : run A) : run A := λ st,
  match body st with
  | Returns a st1 =>
      match destroy h st1 with
      | Returns _ st2 => Returns a st2
      | Throws e st2 => Throws e st2
      end
  | Throws e st1 =>
      match destroy h st1 with
      | Returns _ st2 => Throws e st2
      | Throws e' st2 => Throws e' st2
      end
  end.

(** *** Locating allocations *)

(** [Allocator::null]: [Allocation(this)], built at [tmp]. *)
Definition null : run handle :=
  update (Addr.setObject tmp (Addr.mkAllocation true));;
  mret tmp.

(** [*bindIter->second.begin()] for the entry of [bindings] at [key]. *)
Definition front (key : Z) : run handle := const (λ st, Addr.front st key).

(** [Allocator::find]. It returns an [Allocation] by value: the
    allocation found is copied to [tmp], through the constructor from
    [Allocation &] where [find] returns
    [**this->bindings[address].begin()], and through the constructor from
    [const Allocation *] where it returns [*bindIter->second.begin()]. *)
Definition find (address : Z) : run handle :=
  get (λ st, bool_decide (is_Some (Addr.bindings st !! address)))
    ≫= λ exact : bool,
  if exact then
    h ← front address;
    assign tmp h;;
    mret tmp
  else
    (* bindings.upper_bound(address), wound back by one *)
    get (λ st, last_at_or_below (Addr.bindings st) address)
      ≫= λ floor : option Z,
    match floor with
    | None => null
    | Some key =>
        h ← front key;
        const (λ st, inRange_address st h address) ≫= λ inside : bool,
        if inside then
          assign_pointer tmp h;;
          mret tmp
        else
          (* couldn't find it in our allocations, return a null allocation. *)
          null
    end.

(** [Allocator::hasAddress] *)
Definition hasAddress (address : Z) : run bool :=
  found ← find address;
  scoped found (nul ← const (λ st, isNull st found); mret (negb nul)).

(** [Allocator::throwIfNoAllocation] *)
Definition throwIfNoAllocation (address : Z) : run unit :=
  hasAddress address ≫= λ has : bool,
  if has then mret () else throw (AddressHasNoAllocationException address).

(** [Allocator::willSplit] *)
Definition willSplit (address sz : Z) : run bool :=
  foundAllocation ← find address;
  scoped foundAllocation
    (const (λ st, isNull st foundAllocation) ≫= λ nul : bool,
     (* technically false-- you won't split an allocation that doesn't exist. *)
     if nul then mret false
     else
       const (λ st, inRange_address_size st foundAllocation address sz)
         ≫= λ inside : bool,
       (* address and size are within range of the allocation, won't split *)
       if inside then mret false
       else
         endAddr ← const (λ st, end_ st foundAllocation);
         get (λ st, match upper_bound (Addr.pooledMemory st) address with
                    | None => false
                    | Some next => bool_decide (endAddr = next)
                    end)).

(** *** Reading *)

(** [Allocator::read(allocation, address, size)]; [readAddress] is the
    one of the local backing store. *)
Definition read_allocation (st : Addr.Allocator) (h : handle) (a sz : Z)
  : result Data :=
  throwIfNotInRange_size st h a sz;;
  Addr.readAddress st a sz.

(** [this->read(this->find(address), address, size)] *)
Definition read_found (a sz : Z) : run Data :=
  found ← find a;
  scoped found (const (λ st, read_allocation st found a sz)).

(** [result.resize(result.size() + stackData.size())] followed by
    [MoveMemory(result.data() + result.size(), stackData.data(),
    stackData.size())]: the destination is computed after the resize, so
    it is the end of the vector, and what is copied there lies behind
    the last element. [collected] is [result]. *)
Definition append (collected stackData : Data) : result Data :=
  if decide (stackData = []) then Ok collected else Throw BufferOverrun.

(** The loop of [splitRead] from the entry of [bindings] at the head of
    [ks]; [ks] are the keys from [bindIter] to [bindings.end()]. It
    yields what is left of [size] and the [result] vector ([collected])
    when the loop is left. *)
Fixpoint splitRead_loop (st : Addr.Allocator) (ks : list Z)
    (addressIter sz : Z) (collected : Data) : result (Z * Data) :=
  match ks with
  | [] => Ok (sz, collected)
  | key :: ks' =>
      boundAlloc ← Addr.front st key;
      inRange_address_size st boundAlloc addressIter sz ≫= λ inRange : bool,
      '(stackData, sz') ←
        (if inRange then
           stackData ← read_allocation st boundAlloc addressIter sz;
           Ok (stackData, 0)
         else
           e ← end_ st boundAlloc;
           let newSize := wrap (e - addressIter) in
           stackData ← read_allocation st boundAlloc addressIter newSize;
           Ok (stackData, wrap (sz - newSize)));
      result' ← append collected stackData;
      if sz' =? 0 then Ok (sz', result')
      else
        match ks' with
        | [] => Ok (sz', result')
        | next :: _ =>
            nextAlloc ← Addr.front st next;
            e ← end_ st boundAlloc;
            (* [nextAlloc->begin()] is [start()] *)
            s ← start st nextAlloc;
            (* we've reached a splitting boundary, break out *)
            if decide (e ≠ s) then Ok (sz', result')
            else splitRead_loop st ks' next sz' result'
        end
  end.

(** The keys of [bindings] from the entry [splitRead] starts at:
    [lower_bound(startAddress)], wound back by one unless it is exact. *)
Definition keysFrom (st : Addr.Allocator) (a : Z) : result (list Z) :=
  match last_at_or_below (Addr.bindings st) a with
  | Some first => Ok (filter (λ k, first ≤ k) (keys (Addr.bindings st)))
  | None => Throw DecrementedBegin
  end.

(** [Allocator::splitRead] *)
Definition splitRead (startAddress sz : Z) : run Data :=
  let oldSize := sz in
  throwIfNoAllocation startAddress;;
  willSplit startAddress sz ≫= λ will : bool,
  (* won't split, do a normal read *)
  (if will then mret () else read' startAddress sz;; mret ());;
  const (λ st,
    ks ← keysFrom st startAddress;
    '(remaining, collected) ← splitRead_loop st ks startAddress sz [];
    if remaining =? 0 then Ok collected
    else Throw (SplitsExceededException startAddress oldSize)).

(** [Allocator::read(address, size)] *)
Definition Allocator_read (a sz : Z) : run Data :=
  throwIfNoAllocation a;;
  willSplit a sz ≫= λ will : bool,
  if will then splitRead a sz else read_found a sz.

End frame.


End Frame.

Module Calls.

(** [Allocation::address()] with room on the stack for [depth] calls of
    it, one inside the other. *)
Fixpoint address (depth : nat) (st : Addr.Allocator) (h : handle) : result Z :=
  match depth with
  | O => Throw StackOverflow
  | S depth' => Frame.address (address depth') st h
  end.

Definition Allocator_isBound (depth : nat) := Frame.Allocator_isBound (address depth).
Definition Allocation_size (depth : nat) := Frame.Allocation_size (address depth).
Definition isNull (depth : nat) := Frame.isNull (address depth).
Definition isBound (depth : nat) := Frame.isBound (address depth).
Definition isValid (depth : nat) := Frame.isValid (address depth).
Definition throwIfInvalid (depth : nat) := Frame.throwIfInvalid (address depth).
Definition start (depth : nat) := Frame.start (address depth).
Definition end_ (depth : nat) := Frame.end_ (address depth).
Definition inRange_address (depth : nat) := Frame.inRange_address (address depth).
Definition inRange_address_size (depth : nat) :=
  Frame.inRange_address_size (address depth).
Definition inRange_offset (depth : nat) := Frame.inRange_offset (address depth).
Definition inRange_offset_size (depth : nat) :=
  Frame.inRange_offset_size (address depth).
Definition bind (depth : nat) := Frame.bind (address depth).
Definition rebind (depth : nat) := Frame.rebind (address depth).
Definition unbind (depth : nat) := Frame.unbind (address depth).
Definition deallocate (depth : nat) := Frame.deallocate (address depth).
Definition copy (depth : nat) := Frame.copy (address depth).

Section calls.

Variable clone' : handle → handle → Frame.run unit.
Variable tmp : handle.

Definition find (depth : nat) := Frame.find (address depth) clone' tmp.
Definition hasAddress (depth : nat) := Frame.hasAddress (address depth) clone' tmp.
Definition throwIfNoAllocation (depth : nat) :=
  Frame.throwIfNoAllocation (address depth) clone' tmp.
Definition willSplit (depth : nat) := Frame.willSplit (address depth) clone' tmp.

(** [Allocator::read(address, size)] with room on the stack for [depth]
    calls of it, one inside the other. *)
Fixpoint Allocator_read (depth : nat) (a sz : Z) : Frame.run Data :=
  match depth with
  | O => Frame.throw StackOverflow
  | S depth' =>
      Frame.Allocator_read (address depth') clone' (Allocator_read depth') tmp a sz
  end.

Definition splitRead (depth : nat) :=
  Frame.splitRead (address depth) clone' (Allocator_read depth) tmp.

End calls.

(** The tables as [bind] fills them: no binding set is empty, and every
    allocation in a binding set has its allocator and is associated. *)
Definition entered (st : Addr.Allocator) : Prop :=
  map_Forall (λ (_ : Z) (refs : gset handle),
                refs ≠ ∅
                ∧ set_Forall (λ h, Addr.allocator (Addr.objects st h) = true
                                   ∧ Addr.isAssociated st h = true) refs)
             (Addr.bindings st).

(** The allocator after the null [Allocation] was built at [tmp] and
    destroyed. *)
Definition visited (tmp : handle) (st : Addr.Allocator) : Addr.Allocator :=
  Addr.setObject tmp (Addr.mkAllocation false)
    (Addr.setObject tmp (Addr.mkAllocation true) st).

(** The tables of the allocator and the memory behind them. *)
Definition tables (st : Addr.Allocator)
  : gmap Z Z * gmap Z (gset handle) * gmap handle Z * gmap Z (Z * Z) * Memory :=
  (Addr.pooledMemory st, Addr.bindings st, Addr.associations st,
   Addr.addressPools st, Addr.memory st).

Global Instance entered_dec st : Decision (entered st).
Proof. unfold entered. apply _. Defined.

End Calls.

(** ** Scenarios *)

Module Scenario.

(** [n] bytes counting up from [first]. *)
Definition bytesFrom (first : N) (n : nat) : Data :=
  (λ i, default Byte.x00 (Byte.of_N (first + N.of_nat i))) <$> seq 0 n.

Definition orElse {A} (d : A) (m : result A) : A :=
  match m with Ok a => a | Throw _ => d end.

(** Extents A = [0, 16) and B = [16, 24) pooled in the local backing
    store, byte [i] of the space holding [i + 1], and the allocations 1
    and 2 built on the allocator. *)
Definition pooledAB : Addr.Allocator :=
  orElse Addr.empty
    ('(_, s1) ← Addr.poolAddress Addr.empty 0 16;
     '(_, s2) ← Addr.poolAddress s1 16 8;
     s3 ← Addr.writeAddress s2 0 (bytesFrom 1 24);
     Ok (Addr.setObject 2%positive (Addr.mkAllocation true)
           (Addr.setObject 1%positive (Addr.mkAllocation true) s3))).

(** [pooledAB] with its tables filled the way [bind(1, A)] and
    [bind(2, B)] are written to fill them. *)
Definition AB : Addr.Allocator :=
  Frame.bind_tables 2%positive 16 (Frame.bind_tables 1%positive 0 pooledAB).





(** The pointer-based allocator after [allocate(8)] created allocation 1
    at 4096 and allocation 2 copied it. *)
Definition shared : Ptr.Allocator :=
  orElse Ptr.empty
    ('(_, s1) ← Ptr.Allocator_allocate Ptr.empty 1%positive 4096 8;
     Ptr.copy s1 2%positive 1%positive).

(** The pointer-based allocator after allocation 1, built on the
    allocator, was allocated with 16 bytes at 4096. *)
Definition single : Ptr.Allocator :=
  orElse Ptr.empty
    (Ptr.allocate
       (Ptr.setObject 1%positive (Ptr.mkAllocation true 0 0) Ptr.empty)
       1%positive 4096 16).

(** The pointer-based allocator after allocation 1, built on the
    allocator, was allocated with 8 bytes at 8192 and written with the
    bytes 1 to 8. *)
Definition written : Ptr.Allocator :=
  orElse Ptr.empty
    (s1 ← Ptr.allocate
            (Ptr.setObject 1%positive (Ptr.mkAllocation true 0 0) Ptr.empty)
            1%positive 8192 8;
     Ptr.write s1 1%positive 0 (bytesFrom 1 8)).

End Scenario.

(** * Properties *)

(** ** The error monad *)

Lemma bind_Ok {A B} (f : A → result B) (m : result A) (b : B) :
  m ≫= f = Ok b → ∃ a, m = Ok a ∧ f a = Ok b.
Proof. destruct m as [a|e]; cbn; [eauto | discriminate]. Qed.

Lemma fmap_Ok {A B} (f : A → B) (m : result A) (b : B) :
  f <$> m = Ok b → ∃ a, m = Ok a ∧ b = f a.
Proof. destruct m as [a|e]; cbn; [intros [= <-]; eauto | discriminate]. Qed.

(** Both sides run the same steps: split on each step in turn. *)
Ltac same_steps :=
  repeat match goal with
  | |- mbind _ ?m = mbind _ ?m =>
      destruct m as [?|?]; cbn [mbind result_bind]; [|reflexivity]
  | |- (let '(_, _) := ?p in _) = (let '(_, _) := ?p in _) => destruct p
  | |- (if ?c then _ else _) = (if ?c then _ else _) => destruct c
  | |- _ => reflexivity
  end.

(** ** The split toggle *)

Section split_toggle.
Variables (b : bool) (st : Addr.Allocator).

Lemma setSplit_splitRead_loop ks a sz collected :
  Addr.splitRead_loop (Addr.setSplit b st) ks a sz collected
  = Addr.splitRead_loop st ks a sz collected.
Proof.
  revert a sz collected.
  induction ks as [|key ks IH]; intros; [reflexivity|].
  cbn [Addr.splitRead_loop].
  change (Addr.front (Addr.setSplit b st)) with (Addr.front st).
  change (Addr.inRange_address_size (Addr.setSplit b st))
    with (Addr.inRange_address_size st).
  change (Addr.read_allocation (Addr.setSplit b st))
    with (Addr.read_allocation st).
  change (Addr.end_ (Addr.setSplit b st)) with (Addr.end_ st).
  change (Addr.start (Addr.setSplit b st)) with (Addr.start st).
  same_steps.
  all: destruct ks; same_steps; apply IH.
Qed.

Lemma setSplit_willSplit a sz :
  Addr.willSplit (Addr.setSplit b st) a sz = Addr.willSplit st a sz.
Proof. reflexivity. Qed.

Lemma setSplit_splitRead a sz :
  Addr.splitRead (Addr.setSplit b st) a sz = Addr.splitRead st a sz.
Proof. unfold Addr.splitRead. rewrite setSplit_splitRead_loop. reflexivity. Qed.

Lemma setSplit_read_address h a sz :
  Addr.read_address (Addr.setSplit b st) h a sz = Addr.read_address st h a sz.
Proof.
  unfold Addr.read_address. rewrite setSplit_willSplit.
  change (Addr.throwIfInvalid (Addr.setSplit b st)) with (Addr.throwIfInvalid st).
  change (Addr.throwIfNotInRange (Addr.setSplit b st))
    with (Addr.throwIfNotInRange st).
  same_steps. apply setSplit_splitRead.
Qed.

Lemma setSplit_read h offset sz :
  Addr.read (Addr.setSplit b st) h offset sz = Addr.read st h offset sz.
Proof.
  unfold Addr.read. f_equal.
  change (Addr.address (Addr.setSplit b st)) with (Addr.address st).
  same_steps. apply setSplit_read_address.
Qed.
End split_toggle.

(** The writing side threads the allocator through, flag included. *)
Lemma setSplit_write_allocation b st h a data :
  Addr.write_allocation (Addr.setSplit b st) h a data
  = Addr.setSplit b <$> Addr.write_allocation st h a data.
Proof.
  unfold Addr.write_allocation, Addr.writeAddress.
  change (Addr.throwIfNotInRange_size (Addr.setSplit b st))
    with (Addr.throwIfNotInRange_size st).
  destruct (Addr.throwIfNotInRange_size st h a _); cbn; [|reflexivity].
  destruct (writeBytes _ _ _); reflexivity.
Qed.

Lemma setSplit_splitWrite_loop b ks : ∀ st data a sz wl wr,
  Addr.splitWrite_loop (Addr.setSplit b st) ks data a sz wl wr
  = prod_map id (Addr.setSplit b) <$> Addr.splitWrite_loop st ks data a sz wl wr.
Proof.
  induction ks as [|key ks IH]; intros; [reflexivity|].
  cbn [Addr.splitWrite_loop].
  change (Addr.front (Addr.setSplit b st)) with (Addr.front st).
  change (Addr.inRange_address_size (Addr.setSplit b st))
    with (Addr.inRange_address_size st).
  change (Addr.end_ (Addr.setSplit b st)) with (Addr.end_ st).
  destruct (Addr.front st key) as [h|]; cbn [mbind result_bind]; [|reflexivity].
  destruct (Addr.inRange_address_size st h a sz) as [inside|];
    cbn [mbind result_bind]; [|reflexivity].
  destruct (if inside then _ else _) as [wr'|]; cbn [mbind result_bind];
    [|reflexivity].
  rewrite setSplit_write_allocation.
  destruct (Addr.write_allocation st h a _) as [st'|];
    cbn [mbind result_bind fmap result_fmap]; [|reflexivity].
  destruct (wr' =? _); [reflexivity|].
  destruct ks as [|next ks]; [reflexivity|].
  change (Addr.front (Addr.setSplit b st')) with (Addr.front st').
  change (Addr.end_ (Addr.setSplit b st')) with (Addr.end_ st').
  change (Addr.start (Addr.setSplit b st')) with (Addr.start st').
  destruct (Addr.front st' next); cbn [mbind result_bind]; [|reflexivity].
  destruct (Addr.end_ st' h); cbn [mbind result_bind]; [|reflexivity].
  destruct (Addr.start st' _); cbn [mbind result_bind]; [|reflexivity].
  destruct (decide _); [reflexivity|]. apply IH.
Qed.

Lemma setSplit_write_found b st a data :
  Addr.write_found (Addr.setSplit b st) a data
  = Addr.setSplit b <$> Addr.write_found st a data.
Proof.
  unfold Addr.write_found.
  change (Addr.find (Addr.setSplit b st)) with (Addr.find st).
  destruct (Addr.find st a) as [[h|]|]; cbn [mbind result_bind]; try reflexivity.
  - apply setSplit_write_allocation.
  - destruct (_ =? _); reflexivity.
Qed.

Lemma setSplit_splitWrite b st a data :
  Addr.splitWrite (Addr.setSplit b st) a data
  = Addr.setSplit b <$> Addr.splitWrite st a data.
Proof.
  unfold Addr.splitWrite, Addr.write_unsplit. cbv zeta.
  rewrite setSplit_willSplit.
  change (Addr.throwIfNoAllocation (Addr.setSplit b st))
    with (Addr.throwIfNoAllocation st).
  destruct (Addr.throwIfNoAllocation st a); cbn [mbind result_bind]; [|reflexivity].
  destruct (Addr.willSplit st a _) as [will|]; cbn [mbind result_bind]; [|reflexivity].
  assert (Hloop : ∀ s,
    (Addr.splitWrite_loop (Addr.setSplit b s) (Addr.keysFrom (Addr.setSplit b s) a)
       data a (Z.of_nat (length data)) 0 0
     ≫= λ '(windowLeft, st2),
          if windowLeft =? Z.of_nat (length data) then Ok st2
          else Throw (SplitsExceededException a (Z.of_nat (length data))))
    = Addr.setSplit b <$>
      (Addr.splitWrite_loop s (Addr.keysFrom s a) data a (Z.of_nat (length data)) 0 0
       ≫= λ '(windowLeft, st2),
            if windowLeft =? Z.of_nat (length data) then Ok st2
            else Throw (SplitsExceededException a (Z.of_nat (length data))))).
  { intros s. rewrite setSplit_splitWrite_loop.
    change (Addr.keysFrom (Addr.setSplit b s) a) with (Addr.keysFrom s a).
    destruct (Addr.splitWrite_loop s _ _ _ _ _ _) as [[wl s']|]; cbn; [|reflexivity].
    destruct (wl =? _); reflexivity. }
  destruct will; cbn [mbind result_bind].
  - apply Hloop.
  - rewrite setSplit_write_found.
    destruct (Addr.write_found st a data) as [s|];
      cbn [mbind result_bind fmap result_fmap]; [|reflexivity].
    apply Hloop.
Qed.

Lemma setSplit_write_address b st h a data :
  Addr.write_address (Addr.setSplit b st) h a data
  = Addr.setSplit b <$> Addr.write_address st h a data.
Proof.
  unfold Addr.write_address. rewrite setSplit_willSplit.
  change (Addr.throwIfInvalid (Addr.setSplit b st)) with (Addr.throwIfInvalid st).
  change (Addr.throwIfNotInRange (Addr.setSplit b st))
    with (Addr.throwIfNotInRange st).
  destruct (Addr.throwIfInvalid st h); cbn [mbind result_bind]; [|reflexivity].
  destruct (Addr.throwIfNotInRange st h a); cbn [mbind result_bind]; [|reflexivity].
  destruct (Addr.willSplit st a _) as [[]|]; cbn [mbind result_bind];
    [apply setSplit_splitWrite | apply setSplit_write_allocation | reflexivity].
Qed.

Lemma setSplit_write b st h offset data :
  Addr.write (Addr.setSplit b st) h offset data
  = Addr.setSplit b <$> Addr.write st h offset data.
Proof.
  unfold Addr.write.
  change (Addr.address (Addr.setSplit b st)) with (Addr.address st).
  destruct (Addr.address st h offset) as [a|e]; cbn [mbind result_bind].
  - rewrite setSplit_write_address.
    destruct (Addr.write_address st h a data) as [|[]]; reflexivity.
  - destruct e; reflexivity.
Qed.

Lemma fmap_setSplit_twice b b' (m : result Addr.Allocator) :
  Addr.setSplit b <$> (Addr.setSplit b' <$> m) = Addr.setSplit b <$> m.
Proof. destruct m; reflexivity. Qed.

(** C10. The split toggle has no observable effect: [willSplit], the reads
    (with their dispatch into [splitRead]) and the writes (with their
    dispatch into [splitWrite]) give the same results after
    [allowSplitting()] and after [denySplitting()]; the allocators the
    writes leave differ in the flag only. *)
Theorem split_toggle_unobserved (st : Addr.Allocator) :
  (∀ a sz, Addr.willSplit (Addr.allowSplitting st) a sz
           = Addr.willSplit (Addr.denySplitting st) a sz)
  ∧ (∀ a sz, Addr.splitRead (Addr.allowSplitting st) a sz
             = Addr.splitRead (Addr.denySplitting st) a sz)
  ∧ (∀ h a sz, Addr.read_address (Addr.allowSplitting st) h a sz
               = Addr.read_address (Addr.denySplitting st) h a sz)
  ∧ (∀ h offset sz, Addr.read (Addr.allowSplitting st) h offset sz
                    = Addr.read (Addr.denySplitting st) h offset sz)
  ∧ (∀ a data, Addr.denySplitting <$> Addr.splitWrite (Addr.allowSplitting st) a data
               = Addr.splitWrite (Addr.denySplitting st) a data)
  ∧ (∀ h a data,
       Addr.denySplitting <$> Addr.write_address (Addr.allowSplitting st) h a data
       = Addr.write_address (Addr.denySplitting st) h a data)
  ∧ (∀ h offset data,
       Addr.denySplitting <$> Addr.write (Addr.allowSplitting st) h offset data
       = Addr.write (Addr.denySplitting st) h offset data).
Proof.
  unfold Addr.allowSplitting, Addr.denySplitting.
  repeat apply conj; intros.
  - by rewrite !setSplit_willSplit.
  - by rewrite !setSplit_splitRead.
  - by rewrite !setSplit_read_address.
  - by rewrite !setSplit_read.
  - by rewrite !setSplit_splitWrite, fmap_setSplit_twice.
  - by rewrite !setSplit_write_address, fmap_setSplit_twice.
  - by rewrite !setSplit_write, fmap_setSplit_twice.
Qed.

(** ** Words *)

Lemma SIZE_MOD_pos : 0 < SIZE_MOD.
Proof. reflexivity. Qed.

Lemma wrap_small z : 0 ≤ z < SIZE_MOD → wrap z = z.
Proof. intros H. unfold wrap. apply Z.mod_small, H. Qed.


Lemma wrap_range z : 0 ≤ wrap z < SIZE_MOD.
Proof. unfold wrap. apply Z.mod_pos_bound, SIZE_MOD_pos. Qed.

(** ** Ordered keys *)

Section sorted_lists.
Context (P : Z → Prop) `{!∀ x, Decision (P x)}.

Lemma head_filter_sorted l x :
  StronglySorted Z.le l → head (filter P l) = Some x →
  x ∈ l ∧ P x ∧ ∀ y, y ∈ l → P y → x ≤ y.
Proof.
  induction 1 as [|z l Hs IH Hall]; [done|].
  rewrite filter_cons. destruct (decide (P z)) as [Hz|Hz]; cbn.
  - intros [= <-]. split_and!; [left | done |].
    intros y [->|Hy]%elem_of_cons _; [lia|].
    by eapply Forall_forall in Hall.
  - intros (Hx & HP & Hmin)%IH. split_and!; [by right | done |].
    intros y [->|Hy]%elem_of_cons Hy'; [done | by apply Hmin].
Qed.

Lemma head_filter_none l y :
  head (filter P l) = None → y ∈ l → ¬ P y.
Proof.
  intros Hh Hy HP.
  assert (y ∈ filter P l) as Hin by (by apply list_elem_of_filter).
  destruct (filter P l); [by apply elem_of_nil in Hin | done].
Qed.

Lemma last_filter_sorted l x :
  StronglySorted Z.le l → last (filter P l) = Some x →
  x ∈ l ∧ P x ∧ ∀ y, y ∈ l → P y → y ≤ x.
Proof.
  induction 1 as [|z l Hs IH Hall]; [done|].
  rewrite filter_cons. destruct (decide (P z)) as [Hz|Hz]; cbn.
  - rewrite last_cons. destruct (last (filter P l)) as [x'|] eqn:Hl.
    + intros [= <-]. destruct (IH eq_refl) as (Hx & HP & Hmax).
      split_and!; [by right | done |].
      intros y [->|Hy]%elem_of_cons HPy; [|by apply Hmax].
      by eapply Forall_forall in Hall.
    + intros [= <-]. split_and!; [left | done |].
      intros y [->|Hy]%elem_of_cons HPy; [lia|].
      apply last_None in Hl.
      assert (y ∈ filter P l) as Hin by (by apply list_elem_of_filter).
      rewrite Hl in Hin. by apply elem_of_nil in Hin.
  - intros (Hx & HP & Hmax)%IH. split_and!; [by right | done |].
    intros y [->|Hy]%elem_of_cons HPy; [done | by apply Hmax].
Qed.

Lemma last_filter_none l y :
  last (filter P l) = None → y ∈ l → ¬ P y.
Proof.
  intros Hh Hy HP.
  assert (y ∈ filter P l) as Hin by (by apply list_elem_of_filter).
  apply last_None in Hh. rewrite Hh in Hin. by apply elem_of_nil in Hin.
Qed.
End sorted_lists.

Section keys.
Context {V : Type} (m : gmap Z V).

Lemma elem_of_keys k : k ∈ keys m ↔ is_Some (m !! k).
Proof.
  unfold keys. rewrite merge_sort_Permutation, elem_of_elements.
  apply elem_of_dom.
Qed.

Lemma keys_sorted : StronglySorted Z.le (keys m).
Proof. apply (StronglySorted_merge_sort _). Qed.

Lemma upper_bound_Some a k :
  upper_bound m a = Some k →
  is_Some (m !! k) ∧ a < k ∧ ∀ k', is_Some (m !! k') → a < k' → k ≤ k'.
Proof.
  intros (Hk & Ha & Hmin)%head_filter_sorted; [|apply keys_sorted].
  split_and!; [by apply elem_of_keys | done |].
  intros k' Hk'%elem_of_keys. by apply Hmin.
Qed.

Lemma upper_bound_None a k' :
  upper_bound m a = None → is_Some (m !! k') → k' ≤ a.
Proof.
  intros Hnone Hk'%elem_of_keys.
  eapply head_filter_none in Hnone; [|done]. lia.
Qed.

Lemma last_at_or_below_Some a k :
  last_at_or_below m a = Some k →
  is_Some (m !! k) ∧ k ≤ a ∧ ∀ k', is_Some (m !! k') → k' ≤ a → k' ≤ k.
Proof.
  intros (Hk & Ha & Hmax)%last_filter_sorted; [|apply keys_sorted].
  split_and!; [by apply elem_of_keys | done |].
  intros k' Hk'%elem_of_keys. by apply Hmax.
Qed.

Lemma last_at_or_below_None a k' :
  last_at_or_below m a = None → is_Some (m !! k') → a < k'.
Proof.
  intros Hnone Hk'%elem_of_keys.
  eapply last_filter_none in Hnone; [|done]. lia.
Qed.

End keys.

(** ** Raw memory *)

Lemma accessible_seqZ (m : Memory) a n :
  Forall (λ i, is_Some (m !! (a + i))) (seqZ 0 n) → accessible m a n.
Proof.
  intros H i Hi. eapply Forall_forall in H; [done|].
  apply elem_of_seqZ. lia.
Qed.

Lemma accessible_sub (m : Memory) a n a' n' :
  accessible m a n → a ≤ a' → a' + n' ≤ a + n → accessible m a' n'.
Proof.
  intros H Ha Hn i Hi. replace (a' + i) with (a + (a' - a + i)) by lia.
  apply H. lia.
Qed.

Lemma readBytes_length (m : Memory) n : ∀ a d,
  readBytes m a n = Some d → length d = n.
Proof.
  induction n as [|n IH]; intros a d; cbn.
  - by intros [= <-].
  - destruct (m !! a); [|done].
    destruct (readBytes m (a + 1) n) as [d'|] eqn:Hd; [|done].
    intros [= <-]. cbn. f_equal. by eapply IH.
Qed.

Lemma readBytes_Some (m : Memory) n : ∀ a,
  accessible m a (Z.of_nat n) → is_Some (readBytes m a n).
Proof.
  induction n as [|n IH]; intros a Hacc; cbn; [done|].
  destruct (Hacc 0) as [b Hb]; [lia|]. rewrite Z.add_0_r in Hb. rewrite Hb.
  destruct (IH (a + 1)) as [d ->]; [|done].
  intros i Hi. replace (a + 1 + i) with (a + (1 + i)) by lia. apply Hacc. lia.
Qed.

Lemma readBytes_ext (m m' : Memory) n : ∀ a,
  (∀ i, 0 ≤ i < Z.of_nat n → m !! (a + i) = m' !! (a + i)) →
  readBytes m a n = readBytes m' a n.
Proof.
  induction n as [|n IH]; intros a H; cbn; [done|].
  assert (m !! a = m' !! a) as <-.
  { rewrite <- (Z.add_0_r a). apply H. lia. }
  rewrite (IH (a + 1)); [done|].
  intros i Hi. replace (a + 1 + i) with (a + (1 + i)) by lia. apply H. lia.
Qed.

Lemma writeBytes_lookup (d : Data) : ∀ (m m' : Memory) a x,
  writeBytes m a d = Some m' →
  m' !! x = if decide (a ≤ x < a + Z.of_nat (length d))
            then d !! Z.to_nat (x - a) else m !! x.
Proof.
  induction d as [|b d IH]; intros m m' a x; cbn [writeBytes length].
  - intros [= <-]. by rewrite decide_False by lia.
  - destruct (m !! a) eqn:Ha; [|done]. intros Hw.
    rewrite (IH _ _ _ x Hw).
    destruct (decide (a + 1 ≤ x < a + 1 + Z.of_nat (length d))) as [Hin|Hout].
    + rewrite decide_True by lia.
      replace (Z.to_nat (x - a)) with (S (Z.to_nat (x - (a + 1)))) by lia. done.
    + destruct (decide (x = a)) as [->|Hne].
      * rewrite lookup_insert_eq, decide_True by lia.
        by replace (a - a) with 0 by lia.
      * rewrite lookup_insert_ne by done. by rewrite decide_False by lia.
Qed.

Lemma writeBytes_Some (d : Data) : ∀ (m : Memory) a,
  accessible m a (Z.of_nat (length d)) → is_Some (writeBytes m a d).
Proof.
  induction d as [|b d IH]; intros m a Hacc; cbn [writeBytes length]; [done|].
  destruct (Hacc 0) as [b' Hb]; [cbn; lia|]. rewrite Z.add_0_r in Hb. rewrite Hb.
  apply IH. intros i Hi.
  destruct (Hacc (1 + i)) as [c Hc]; [cbn [length]; lia|].
  replace (a + 1 + i) with (a + (1 + i)) by lia.
  rewrite lookup_insert_ne by lia. by rewrite Hc.
Qed.

Lemma readBytes_lookup (m : Memory) n : ∀ a d,
  (∀ i, (i < n)%nat → m !! (a + Z.of_nat i) = d !! i) → length d = n →
  readBytes m a n = Some d.
Proof.
  induction n as [|n IH]; intros a d H Hlen; cbn.
  - by destruct d.
  - destruct d as [|b d]; [done|].
    assert (m !! a = Some b) as ->.
    { rewrite <- (Z.add_0_r a). apply (H 0%nat). lia. }
    rewrite (IH (a + 1) d); [done| |by injection Hlen].
    intros i Hi. replace (a + 1 + Z.of_nat i) with (a + Z.of_nat (S i)) by lia.
    rewrite H by lia. done.
Qed.

Lemma writeBytes_read (d : Data) (m m' : Memory) a :
  writeBytes m a d = Some m' → readBytes m' a (length d) = Some d.
Proof.
  intros Hw. apply readBytes_lookup; [|done].
  intros i Hi. rewrite (writeBytes_lookup _ _ _ _ _ Hw), decide_True by lia.
  f_equal. lia.
Qed.

Lemma writeBytes_other (d : Data) (m m' : Memory) a x :
  writeBytes m a d = Some m' → ¬ (a ≤ x < a + Z.of_nat (length d)) →
  m' !! x = m !! x.
Proof. intros Hw Hx. by rewrite (writeBytes_lookup _ _ _ _ _ Hw), decide_False. Qed.

Lemma writeBytes_keeps_accessible (d : Data) (m m' : Memory) a x :
  writeBytes m a d = Some m' → is_Some (m !! x) → is_Some (m' !! x).
Proof.
  intros Hw Hx. rewrite (writeBytes_lookup _ _ _ _ _ Hw).
  destruct (decide _) as [Hin|]; [|done].
  apply lookup_lt_is_Some. lia.
Qed.

Lemma mapBytes_lookup n : ∀ (m : Memory) a x,
  mapBytes m a n !! x
  = if decide (a ≤ x < a + Z.of_nat n) then Some Byte.x00 else m !! x.
Proof.
  induction n as [|n IH]; intros m a x; cbn [mapBytes].
  - by rewrite decide_False by lia.
  - destruct (decide (x = a)) as [->|Hne].
    + by rewrite lookup_insert_eq, decide_True by lia.
    + rewrite lookup_insert_ne, IH by done.
      destruct (decide (a + 1 ≤ x < a + 1 + Z.of_nat n)).
      * by rewrite decide_True by lia.
      * by rewrite decide_False by lia.
Qed.

Lemma unmapBytes_lookup n : ∀ (m : Memory) a x,
  unmapBytes m a n !! x
  = if decide (a ≤ x < a + Z.of_nat n) then None else m !! x.
Proof.
  induction n as [|n IH]; intros m a x; cbn [unmapBytes].
  - by rewrite decide_False by lia.
  - destruct (decide (x = a)) as [->|Hne].
    + by rewrite lookup_delete_eq, decide_True by lia.
    + rewrite lookup_delete_ne, IH by done.
      destruct (decide (a + 1 ≤ x < a + 1 + Z.of_nat n)).
      * by rewrite decide_True by lia.
      * by rewrite decide_False by lia.
Qed.

Lemma length_zeros n : length (zeros n) = Z.to_nat n.
Proof. apply length_replicate. Qed.

(** ** Ordered sets *)

Lemma ordered_elem (refs : gset handle) h : h ∈ ordered refs ↔ h ∈ refs.
Proof. unfold ordered. by rewrite merge_sort_Permutation, elem_of_elements. Qed.

Lemma ordered_NoDup (refs : gset handle) : NoDup (ordered refs).
Proof. unfold ordered. rewrite merge_sort_Permutation. apply NoDup_elements. Qed.

Lemma begin_Some (refs : gset handle) : refs ≠ ∅ → ∃ h, begin refs = Some h ∧ h ∈ refs.
Proof.
  intros Hne. unfold begin. destruct (ordered refs) as [|h l] eqn:Hl.
  - destruct Hne. apply set_eq. intros x. rewrite <- ordered_elem, Hl. set_solver.
  - exists h. split; [done|]. apply ordered_elem. rewrite Hl. left.
Qed.

(** Closed facts are settled by evaluation. *)
Ltac by_evaluation :=
  first [ apply (bool_decide_unpack _); vm_compute; reflexivity
        | vm_compute; first [reflexivity | discriminate | done] ].

(** ** The range check of the pointer-based allocation *)



(** ** The pointer-based allocator: unbinding *)

Lemma Ptr_unpool_release_Ok st a st' :
  Ptr.unpool_release st a = Ok st' →
  st' = Ptr.setPool (delete a (Ptr.memoryPool st))
          (unmapBytes (Ptr.memory st) a (Z.to_nat (Ptr.poolSize st a))) st.
Proof.
  unfold Ptr.unpool_release. destruct (writeBytes _ _ _); [|done]. by intros [= <-].
Qed.

Lemma Ptr_unpool_release_accessible st a :
  accessible (Ptr.memory st) a (Ptr.poolSize st a) →
  Ptr.unpool_release st a
  = Ok (Ptr.setPool (delete a (Ptr.memoryPool st))
          (unmapBytes (Ptr.memory st) a (Z.to_nat (Ptr.poolSize st a))) st).
Proof.
  intros Hacc. unfold Ptr.unpool_release.
  destruct (writeBytes_Some (zeros (Ptr.poolSize st a)) (Ptr.memory st) a)
    as [mm ->]; [|done].
  rewrite length_zeros. intros i Hi. apply Hacc. lia.
Qed.

Lemma Ptr_Allocator_isBound_true st h :
  Ptr.Allocator_isBound st h = true →
  ∃ refs, Ptr.bindings st !! Ptr.pointer (Ptr.objects st h) = Some refs ∧ h ∈ refs.
Proof.
  unfold Ptr.Allocator_isBound.
  destruct (Ptr.bindings st !! _) as [refs|]; [|done].
  intros Hh%bool_decide_eq_true. by exists refs.
Qed.

(** What a successful [unbind] leaves behind. *)
Lemma Ptr_unbind_Ok st h st' :
  Ptr.unbind st h = Ok st' →
  Ptr.Allocator_isBound st h = true
  ∧ Ptr.isPooled st (Ptr.pointer (Ptr.objects st h)) = true
  ∧ Ptr.objects st'
    = <[h := Ptr.mkAllocation (Ptr.allocator (Ptr.objects st h)) 0 0]> (Ptr.objects st)
  ∧ Ptr.allocations st' = Ptr.allocations st ∖ {[h]}
  ∧ (if decide (Ptr.bindingSet st (Ptr.pointer (Ptr.objects st h)) ∖ {[h]} = ∅)
     then Ptr.bindings st' = delete (Ptr.pointer (Ptr.objects st h)) (Ptr.bindings st)
          ∧ Ptr.memoryPool st'
            = delete (Ptr.pointer (Ptr.objects st h)) (Ptr.memoryPool st)
          ∧ Ptr.memory st'
            = unmapBytes (Ptr.memory st) (Ptr.pointer (Ptr.objects st h))
                (Z.to_nat (Ptr.poolSize st (Ptr.pointer (Ptr.objects st h))))
     else Ptr.bindings st'
          = <[Ptr.pointer (Ptr.objects st h)
              := Ptr.bindingSet st (Ptr.pointer (Ptr.objects st h)) ∖ {[h]}]>
              (Ptr.bindings st)
          ∧ Ptr.memoryPool st' = Ptr.memoryPool st
          ∧ Ptr.memory st' = Ptr.memory st).
Proof.
  unfold Ptr.unbind, Ptr.throwIfNotBound, Ptr.throwIfNotPooled.
  destruct (Ptr.Allocator_isBound st h); [|done]. cbn [mbind result_bind].
  destruct (Ptr.isPooled st (Ptr.pointer (Ptr.objects st h))) eqn:Hpooled; [|done].
  cbn [mbind result_bind].
  set (key := Ptr.pointer (Ptr.objects st h)) in *.
  set (rest := Ptr.bindingSet st key ∖ {[h]}).
  unfold Ptr.isAllocated, Ptr.unpool_unbound, Ptr.throwIfNotPooled, Ptr.isPooled in *.
  cbn [Ptr.allocations Ptr.memoryPool Ptr.setObject Ptr.setBindings].
  assert (∀ s : gset handle, h ∉ s → s = s ∖ {[h]}) as Hout by set_solver.
  destruct (decide (size rest = 0%nat)) as [Hz|Hnz].
  - apply size_empty_inv, leibniz_equiv in Hz. rewrite decide_True by done.
    destruct (bool_decide (h ∈ Ptr.allocations (Ptr.setBindings _ st))) eqn:Hin;
      cbn [Ptr.allocations Ptr.memoryPool Ptr.setAllocations Ptr.setObject
           Ptr.setBindings];
      rewrite Hpooled; cbn [mbind result_bind];
      intros ->%Ptr_unpool_release_Ok; split_and!; try done.
    cbn. apply Hout. by apply bool_decide_eq_false in Hin.
  - rewrite decide_False; cycle 1.
    { intros Hrest. by rewrite Hrest, size_empty in Hnz. }
    destruct (bool_decide (h ∈ Ptr.allocations (Ptr.setBindings _ st))) eqn:Hin;
      intros [= <-]; split_and!; try done.
    cbn. apply Hout. by apply bool_decide_eq_false in Hin.
Qed.


Lemma Ptr_isValid_true st a :
  Ptr.isValid st a = true →
  Ptr.allocator a = true ∧ Ptr.pointer a ≠ 0 ∧ Ptr.size a ≠ 0
  ∧ Ptr.isPooled st (Ptr.pointer a) = true.
Proof.
  unfold Ptr.isValid. intros [[[? ?%negb_true_iff]%andb_prop ?%negb_true_iff]%andb_prop ?]%andb_prop.
  split_and!; [done|lia|lia|done].
Qed.


(** ** The pointer-based allocator: bound allocations *)

Lemma Ptr_inRange_address (a : Ptr.Allocation) x :
  0 < Ptr.pointer a → 0 < Ptr.size a → Ptr.pointer a + Ptr.size a < SIZE_MOD →
  Ptr.inRange_address a x
  = bool_decide (Ptr.pointer a ≤ x ≤ Ptr.pointer a + Ptr.size a).
Proof.
  intros Hp Hs Hend. unfold Ptr.inRange_address.
  destruct (Z.eqb_spec (Ptr.pointer a) 0); [lia|].
  destruct (Z.eqb_spec (Ptr.size a) 0); [lia|]. cbn.
  rewrite wrap_small by lia.
  destruct (Z.leb_spec (Ptr.pointer a) x), (Z.leb_spec x (Ptr.pointer a + Ptr.size a));
    cbn; symmetry;
    first [by apply bool_decide_eq_true_2; lia | apply bool_decide_eq_false_2; lia].
Qed.

Lemma Ptr_throwIfNotInRange_inside (a : Ptr.Allocation) x sz :
  0 < Ptr.pointer a → 0 < Ptr.size a → Ptr.pointer a + Ptr.size a < SIZE_MOD →
  Ptr.pointer a ≤ x → 0 ≤ sz → x + sz ≤ Ptr.pointer a + Ptr.size a →
  Ptr.throwIfNotInRange a x sz = Ok ().
Proof.
  intros Hp Hs Hend Hx Hsz Hfit.
  unfold Ptr.throwIfNotInRange, Ptr.inRange_address_size.
  rewrite !Ptr_inRange_address by done. rewrite wrap_small by lia.
  by rewrite !bool_decide_eq_true_2 by lia.
Qed.

Section Ptr_bound.
Context (st : Ptr.Allocator) (h : handle).
Hypothesis Hcons : Ptr.consistent st.
Hypothesis Hbound : Ptr.isBound st h = true.

Lemma Ptr_bound_facts :
  ∃ key n refs,
    Ptr.objects st h = Ptr.mkAllocation true key n
    ∧ Ptr.memoryPool st !! key = Some n
    ∧ Ptr.bindings st !! key = Some refs ∧ h ∈ refs
    ∧ 0 < key ∧ 0 < n ∧ key + n < SIZE_MOD
    ∧ accessible (Ptr.memory st) key n.
Proof.
  destruct Hcons as [Hb Hp]. unfold Ptr.isBound in Hbound.
  apply andb_prop in Hbound as [Hvalid Hib].
  apply Ptr_isValid_true in Hvalid as (_ & _ & _ & Hpooled).
  apply Ptr_Allocator_isBound_true in Hib as (refs & Hrefs & Hh).
  destruct (Hb _ _ Hrefs _ Hh) as (Halloc & _ & Hsize & _).
  unfold Ptr.isPooled in Hpooled. apply bool_decide_eq_true in Hpooled as [n Hn].
  destruct (Hp _ _ Hn) as (? & ? & ? & Hacc%accessible_seqZ & _).
  unfold Ptr.poolSize in Hsize. rewrite Hn in Hsize. cbn in Hsize.
  exists (Ptr.pointer (Ptr.objects st h)), n, refs.
  split_and!; try done.
  destruct (Ptr.objects st h) as [al p s]. cbn in *. by subst.
Qed.
End Ptr_bound.

Lemma Ptr_isValid_bound st key n :
  Ptr.memoryPool st !! key = Some n → 0 < key → 0 < n →
  Ptr.isValid st (Ptr.mkAllocation true key n) = true.
Proof.
  intros Hn Hk Hn0. unfold Ptr.isValid, Ptr.isPooled. cbn. rewrite Hn.
  destruct (Z.eqb_spec key 0); [lia|]. destruct (Z.eqb_spec n 0); [lia|]. done.
Qed.

Lemma Ptr_Allocator_isBound_intro st h key refs :
  Ptr.pointer (Ptr.objects st h) = key → Ptr.bindings st !! key = Some refs →
  h ∈ refs → Ptr.Allocator_isBound st h = true.
Proof.
  intros Hp Hrefs Hh. unfold Ptr.Allocator_isBound. rewrite Hp, Hrefs.
  by apply bool_decide_eq_true.
Qed.

(** Reading [sz] bytes at offset 0 of an allocation bound to
    [key, key + n). *)
Lemma Ptr_read_bound st h key n refs sz :
  Ptr.objects st h = Ptr.mkAllocation true key n →
  Ptr.bindings st !! key = Some refs → h ∈ refs →
  0 < key → 0 < n → key + n < SIZE_MOD → 0 ≤ sz ≤ n →
  Ptr.read st h 0 sz
  = match readBytes (Ptr.memory st) key (Z.to_nat sz) with
    | Some d => Ok d
    | None => Throw (BadPointerException key sz)
    end.
Proof.
  intros Hobj Hrefs Hh Hk Hn Hend Hsz.
  unfold Ptr.read, Ptr.read_address, Ptr.derefAllocator, Ptr.throwIfNotBound,
    Ptr.Allocator_read.
  rewrite (Ptr_Allocator_isBound_intro st h key refs) by (by rewrite ?Hobj).
  rewrite Hobj. cbn [Ptr.allocator Ptr.pointer mbind result_bind].
  rewrite Z.add_0_r, wrap_small by lia.
  rewrite Ptr_throwIfNotInRange_inside by (cbn; lia). cbn [mbind result_bind].
  by destruct (readBytes _ _ _).
Qed.

(** Writing, at offset 0, as many bytes as the extent
    [key, key + n) an allocation is bound to holds. *)
Lemma Ptr_write_bound st h key n refs data :
  Ptr.objects st h = Ptr.mkAllocation true key n →
  Ptr.memoryPool st !! key = Some n →
  Ptr.bindings st !! key = Some refs → h ∈ refs →
  0 < key → 0 < n → key + n < SIZE_MOD → accessible (Ptr.memory st) key n →
  Z.of_nat (length data) = n →
  ∃ mm, writeBytes (Ptr.memory st) key data = Some mm
        ∧ Ptr.write st h 0 data = Ok (Ptr.setMemory mm st).
Proof.
  intros Hobj Hn Hrefs Hh Hk Hn0 Hend Hacc Hlen.
  destruct (writeBytes_Some data (Ptr.memory st) key) as [mm Hw].
  { by rewrite Hlen. }
  exists mm. split; [done|].
  unfold Ptr.write, Ptr.address, Ptr.throwIfInvalid, Ptr.write_address,
    Ptr.derefAllocator, Ptr.throwIfNotBound, Ptr.Allocator_write.
  rewrite (Ptr_Allocator_isBound_intro st h key refs) by (by rewrite ?Hobj).
  rewrite Hobj, (Ptr_isValid_bound st key n) by done.
  cbn [Ptr.allocator Ptr.pointer Ptr.size mbind result_bind].
  destruct (Z.ltb_spec n 0); [lia|].
  rewrite Z.add_0_r, wrap_small by lia. cbn [mbind result_bind].
  rewrite Ptr_throwIfNotInRange_inside by (cbn; lia).
  cbn [mbind result_bind]. by rewrite Hw.
Qed.

(** C4. For an allocation bound in a consistent allocator and [data] as
    long as the allocation, [write(0, data)] succeeds and the
    [read(0, size)] that follows returns [data]. *)
Theorem write_then_read (st : Ptr.Allocator) (h : handle) (data : Data) :
  Ptr.consistent st → Ptr.isBound st h = true →
  Z.of_nat (length data) = Ptr.size (Ptr.objects st h) →
  ∃ st', Ptr.write st h 0 data = Ok st'
         ∧ Ptr.read st' h 0 (Ptr.size (Ptr.objects st' h)) = Ok data.
Proof.
  intros Hcons Hbound Hlen.
  destruct (Ptr_bound_facts st h Hcons Hbound)
    as (key & n & refs & Hobj & Hn & Hrefs & Hh & Hk & Hn0 & Hend & Hacc).
  rewrite Hobj in Hlen. cbn in Hlen.
  destruct (Ptr_write_bound st h key n refs data) as (mm & Hw & Hwrite); [done..|].
  exists (Ptr.setMemory mm st). split; [done|].
  cbn [Ptr.objects Ptr.setMemory]. rewrite Hobj. cbn [Ptr.size].
  rewrite (Ptr_read_bound _ h key n refs) by (done || lia).
  cbn [Ptr.memory Ptr.setMemory].
  replace (Z.to_nat n) with (length data) by lia.
  by rewrite (writeBytes_read _ _ _ _ Hw).
Qed.

Lemma write_then_read_witness :
  Ptr.consistent Scenario.shared ∧ Ptr.isBound Scenario.shared 2%positive = true
  ∧ ∃ st', Ptr.write Scenario.shared 2%positive 0 (Scenario.bytesFrom 1 8) = Ok st'
           ∧ Ptr.read st' 2%positive 0 (Ptr.size (Ptr.objects st' 2%positive))
             = Ok (Scenario.bytesFrom 1 8).
Proof.
  assert (Ptr.consistent Scenario.shared) as Hcons by by_evaluation.
  assert (Ptr.isBound Scenario.shared 2%positive = true) as Hbound by by_evaluation.
  split_and!; [done..|].
  apply (write_then_read Scenario.shared 2%positive (Scenario.bytesFrom 1 8)
           Hcons Hbound).
  by_evaluation.
Defined.

(** ** The pointer-based allocator: releasing an extent *)

Lemma ordered_empty : ordered ∅ = [].
Proof. reflexivity. Qed.

Lemma list_to_set_ordered (refs : gset handle) : list_to_set (ordered refs) = refs.
Proof. apply set_eq. intros x. by rewrite elem_of_list_to_set, ordered_elem. Qed.

Lemma ordered_nonempty (refs : gset handle) h : h ∈ refs → ordered refs ≠ [].
Proof. intros Hh%ordered_elem Hnil. rewrite Hnil in Hh. by apply elem_of_nil in Hh. Qed.

Lemma Ptr_unbind_run st h key n :
  Ptr.Allocator_isBound st h = true → Ptr.pointer (Ptr.objects st h) = key →
  Ptr.memoryPool st !! key = Some n → accessible (Ptr.memory st) key n →
  ∃ st', Ptr.unbind st h = Ok st'.
Proof.
  intros Hbound Hkey Hn Hacc.
  assert (Ptr.isPooled st key = true) as Hpooled.
  { unfold Ptr.isPooled. rewrite Hn. by apply bool_decide_eq_true. }
  unfold Ptr.unbind, Ptr.throwIfNotBound, Ptr.throwIfNotPooled.
  rewrite Hbound, Hkey, Hpooled. cbn [mbind result_bind].
  destruct (decide (size (Ptr.bindingSet st key ∖ {[h]}) = 0%nat)); [|by eexists].
  assert (∀ s, Ptr.memoryPool s = Ptr.memoryPool st → Ptr.memory s = Ptr.memory st →
               ∃ st', (if Ptr.isPooled s key then Ptr.unpool_unbound s key else Ok s)
                      = Ok st') as Hrel.
  { intros s Hp Hm. unfold Ptr.isPooled, Ptr.unpool_unbound, Ptr.throwIfNotPooled,
      Ptr.isPooled in *. rewrite Hp, Hpooled. cbn [mbind result_bind].
    rewrite Ptr_unpool_release_accessible; [by eexists|].
    unfold Ptr.poolSize. by rewrite Hm, Hp, Hn. }
  apply Hrel; by destruct (Ptr.isAllocated _ h).
Qed.

Lemma Ptr_isPooled_Some st key n :
  Ptr.memoryPool st !! key = Some n → Ptr.isPooled st key = true.
Proof. intros Hn. unfold Ptr.isPooled. rewrite Hn. by apply bool_decide_eq_true. Qed.

Lemma Ptr_isPooled_None st key :
  Ptr.memoryPool st !! key = None → Ptr.isPooled st key = false.
Proof.
  intros Hn. unfold Ptr.isPooled. rewrite Hn. apply bool_decide_eq_false.
  by intros [? ?].
Qed.

(** [unbind] erases the allocation from the binding set of the extent
    it points at. *)
Lemma Ptr_unbind_erases st h st' :
  Ptr.unbind st h = Ok st' →
  h ∉ Ptr.bindingSet st' (Ptr.pointer (Ptr.objects st h)).
Proof.
  intros (_ & _ & _ & _ & Htab)%Ptr_unbind_Ok. unfold Ptr.bindingSet at 1.
  destruct (decide _) as [_|_]; destruct Htab as (-> & _).
  - rewrite lookup_delete_eq. set_solver.
  - rewrite lookup_insert_eq. set_solver.
Qed.

(** [unpool] of an extent that allocations are bound to: the first round
    of its loop unbinds the first of them, which erases the element the
    loop stands on. *)
Lemma Ptr_unpool_bound st key n refs :
  Ptr.bindings st !! key = Some refs → refs ≠ ∅ →
  (∀ h, h ∈ refs → Ptr.pointer (Ptr.objects st h) = key) →
  Ptr.memoryPool st !! key = Some n → accessible (Ptr.memory st) key n →
  ∃ first st1, begin refs = Some first
               ∧ Ptr.unbind st first = Ok st1
               ∧ first ∉ Ptr.bindingSet st1 key
               ∧ Ptr.unpool st key = Throw ErasedIterator.
Proof.
  intros Hrefs Hne Hptr Hn Hacc.
  destruct (begin_Some refs Hne) as (first & Hfirst & Hin).
  assert (Ptr.Allocator_isBound st first = true) as Hbound.
  { eapply Ptr_Allocator_isBound_intro; [by apply Hptr|done..]. }
  destruct (Ptr_unbind_run st first key n Hbound) as [st1 Hun]; [by apply Hptr|done..|].
  assert (first ∉ Ptr.bindingSet st1 key) as Hgone.
  { rewrite <- (Hptr first Hin). by apply Ptr_unbind_erases. }
  exists first, st1. split_and!; [done..|].
  unfold Ptr.unpool, Ptr.throwIfNotPooled.
  rewrite (Ptr_isPooled_Some st key n Hn). cbn [mbind result_bind]. rewrite Hrefs.
  unfold begin in Hfirst. destruct (ordered refs) as [|h l]; [done|].
  injection Hfirst as ->. cbn [Ptr.unpool_loop].
  rewrite bool_decide_eq_true_2 by (unfold Ptr.bindingSet; by rewrite Hrefs).
  rewrite Hun. cbn [mbind result_bind].
  by rewrite bool_decide_eq_false_2.
Qed.

(** C9. With [a] and [b] bound to one extent and [a] created by the
    allocator, [Allocator::deallocate(a)] does not come to unbind every
    allocation of the extent: the first round of [unpool]'s loop unbinds
    the first allocation of the binding set, which erases it from the
    set, and the loop then steps from the erased element. *)
Theorem deallocate_steps_from_erased_binding (st : Ptr.Allocator) (a b : handle) :
  Ptr.consistent st → a ≠ b →
  Ptr.isBound st a = true → Ptr.isBound st b = true →
  Ptr.pointer (Ptr.objects st b) = Ptr.pointer (Ptr.objects st a) →
  Ptr.isAllocated st a = true →
  ∃ first st1,
    begin (Ptr.bindingSet st (Ptr.pointer (Ptr.objects st a))) = Some first
    ∧ Ptr.unbind st first = Ok st1
    ∧ first ∉ Ptr.bindingSet st1 (Ptr.pointer (Ptr.objects st a))
    ∧ Ptr.Allocator_deallocate st a = Throw ErasedIterator.
Proof.
  intros Hcons Hab Ha Hb Hsame Hmanaged.
  destruct (Ptr_bound_facts st a Hcons Ha)
    as (key & n & refs & Hobja & Hn & Hrefs & Hina & Hk & Hn0 & Hend & Hacc).
  rewrite Hobja. cbn [Ptr.pointer].
  destruct (Ptr_unpool_bound st key n refs) as (first & st1 & Hfirst & Hun & Hgone & Hrun);
    [done|set_solver| |done|done|].
  { intros h Hh. destruct Hcons as [Hbind _].
    by destruct (Hbind _ _ Hrefs _ Hh) as (_ & ? & _). }
  exists first, st1. split_and!; [|done..|].
  - unfold Ptr.bindingSet. by rewrite Hrefs.
  - unfold Ptr.Allocator_deallocate, Ptr.throwIfNotAllocated, Ptr.throwIfNotPooled.
    rewrite Hmanaged, Hobja. cbn [Ptr.pointer mbind result_bind].
    by rewrite (Ptr_isPooled_Some st key n Hn).
Qed.

Lemma deallocate_steps_from_erased_binding_witness :
  Ptr.consistent Scenario.shared ∧ (1 ≠ 2)%positive
  ∧ Ptr.isBound Scenario.shared 1%positive = true
  ∧ Ptr.isBound Scenario.shared 2%positive = true
  ∧ Ptr.isAllocated Scenario.shared 1%positive = true
  ∧ Ptr.Allocator_deallocate Scenario.shared 1%positive = Throw ErasedIterator.
Proof.
  assert (Ptr.consistent Scenario.shared) as Hcons by by_evaluation.
  assert ((1 ≠ 2)%positive) as Hne by done.
  assert (Ptr.isBound Scenario.shared 1%positive = true) as Ha by by_evaluation.
  assert (Ptr.isBound Scenario.shared 2%positive = true) as Hb by by_evaluation.
  assert (Ptr.isAllocated Scenario.shared 1%positive = true) as Hm by by_evaluation.
  split_and!; [done..|].
  by destruct (deallocate_steps_from_erased_binding Scenario.shared 1%positive 2%positive
                 Hcons Hne Ha Hb eq_refl Hm)
    as (first & st1 & _ & _ & _ & Hrun).
Defined.

(** ** The pointer-based allocator: moving an extent *)

(** [unpool] of an extent whose binding set is empty or missing. *)
Lemma Ptr_unpool_unreferenced st key n :
  Ptr.memoryPool st !! key = Some n →
  Ptr.bindings st !! key = Some ∅ ∨ Ptr.bindings st !! key = None →
  accessible (Ptr.memory st) key n →
  Ptr.unpool st key
  = Ok (Ptr.setPool (delete key (Ptr.memoryPool st))
          (unmapBytes (Ptr.memory st) key (Z.to_nat n)) st).
Proof.
  intros Hn Hrefs Hacc. unfold Ptr.unpool, Ptr.throwIfNotPooled.
  rewrite (Ptr_isPooled_Some st key n Hn). cbn [mbind result_bind].
  assert (Ptr.poolSize st key = n) as Hsize by (unfold Ptr.poolSize; by rewrite Hn).
  destruct Hrefs as [Hb | Hb]; rewrite Hb.
  - rewrite ordered_empty. cbn [Ptr.unpool_loop mbind result_bind].
    rewrite (Ptr_isPooled_Some st key n Hn). cbn [negb].
    rewrite Ptr_unpool_release_accessible; by rewrite Hsize.
  - rewrite Ptr_unpool_release_accessible; by rewrite Hsize.
Qed.

(** [rebind] of an allocation bound to [old]: it moves to [new], and [old]
    is released with its last binding. *)
Lemma Ptr_rebind_bound st h old new refs n sz :
  Ptr.pointer (Ptr.objects st h) = old →
  Ptr.bindings st !! old = Some refs → h ∈ refs →
  Ptr.memoryPool st !! old = Some n → Ptr.memoryPool st !! new = Some sz →
  old ≠ new → accessible (Ptr.memory st) old n →
  ∃ st', Ptr.rebind st h new = Ok st'
         ∧ Ptr.objects st' = <[h := Ptr.mkAllocation true new sz]> (Ptr.objects st)
         ∧ Ptr.bindings st' !! new = Some ({[h]} ∪ Ptr.bindingSet st new)
         ∧ Ptr.bindings st' !! old = Some (refs ∖ {[h]})
         ∧ (∀ k, k ≠ old → k ≠ new → Ptr.bindings st' !! k = Ptr.bindings st !! k)
         ∧ (if decide (refs ∖ {[h]} = ∅)
            then Ptr.memoryPool st' = delete old (Ptr.memoryPool st)
                 ∧ Ptr.memory st' = unmapBytes (Ptr.memory st) old (Z.to_nat n)
            else Ptr.memoryPool st' = Ptr.memoryPool st
                 ∧ Ptr.memory st' = Ptr.memory st).
Proof.
  intros Hold Hrefs Hh Hn Hsz Hne Hacc.
  unfold Ptr.rebind, Ptr.throwIfNotPooled.
  rewrite (Ptr_Allocator_isBound_intro st h old refs) by done.
  rewrite Hold, (Ptr_isPooled_Some st old n), (Ptr_isPooled_Some st new sz) by done.
  cbn [negb mbind result_bind]. cbv zeta.
  assert (∀ X, Ptr.bindingSet (Ptr.setBindings (<[new:=X]> (Ptr.bindings st)) st) old
               = refs) as Hset1.
  { intros X. unfold Ptr.bindingSet. cbn. by rewrite lookup_insert_ne, Hrefs. }
  assert (∀ a R b s, Ptr.bindingSet (Ptr.setObject h a (Ptr.setBindings (<[old:=R]> b) s))
                       old = R) as Hset2.
  { intros a R b s. unfold Ptr.bindingSet. cbn. by rewrite lookup_insert_eq. }
  rewrite Hset1, Hset2. unfold Ptr.poolSize.
  cbn [Ptr.memoryPool Ptr.setBindings]. rewrite Hsz. cbn [default from_option id].
  destruct (decide (size (refs ∖ {[h]}) = 0%nat)) as [Hz|Hnz].
  - apply size_empty_inv, leibniz_equiv in Hz.
    rewrite (Ptr_unpool_unreferenced _ old n).
    + eexists. split; [done|]. cbn. rewrite decide_True by done.
      rewrite lookup_insert_eq, lookup_insert_ne, lookup_insert_eq by done.
      split_and!; try done.
      intros k Hk1 Hk2. by rewrite !lookup_insert_ne.
    + done.
    + left. cbn. by rewrite lookup_insert_eq, Hz.
    + done.
  - eexists. split; [done|]. cbn.
    rewrite decide_False by (intros He; apply Hnz; by rewrite He, size_empty).
    rewrite lookup_insert_eq, lookup_insert_ne, lookup_insert_eq by done.
    split_and!; try done.
    intros k Hk1 Hk2. by rewrite !lookup_insert_ne.
Qed.

(** ** Raw memory: extents in use and fresh extents *)

Lemma unused_seqZ (m : Memory) a n :
  Forall (λ i, m !! (a + i) = None) (seqZ 0 n) → unused m a n.
Proof.
  intros H i Hi. eapply Forall_forall in H; [done|].
  apply elem_of_seqZ. lia.
Qed.

(** An extent in use and a fresh one do not meet. *)
Lemma accessible_unused_disjoint (m : Memory) a n b k x :
  accessible m a n → unused m b k → a ≤ x < a + n → b ≤ x < b + k → False.
Proof.
  intros Hacc Hun Ha Hb. destruct (Hacc (x - a)) as [y Hy]; [lia|].
  replace (a + (x - a)) with (b + (x - b)) in Hy by lia.
  rewrite (Hun (x - b)) in Hy by lia. done.
Qed.

Lemma accessible_unused_apart (m : Memory) a n b k :
  accessible m a n → unused m b k → 0 < n → 0 < k → b + k ≤ a ∨ a + n ≤ b.
Proof.
  intros Hacc Hun Hn Hk.
  destruct (decide (b + k ≤ a)); [by left|].
  destruct (decide (a + n ≤ b)); [by right|]. exfalso.
  apply (accessible_unused_disjoint m a n b k (Z.max a b) Hacc Hun); lia.
Qed.

(** ** The pointer-based allocator: [repool] and [reallocate] *)

Lemma Ptr_bindingSet_elem st key h :
  h ∈ Ptr.bindingSet st key ↔ ∃ refs, Ptr.bindings st !! key = Some refs ∧ h ∈ refs.
Proof.
  unfold Ptr.bindingSet. destruct (Ptr.bindings st !! key) as [refs|]; cbn.
  - split; [by exists refs|]. by intros (? & [= <-] & ?).
  - split; [set_solver|]. by intros (? & [=] & _).
Qed.

(** [repool(address, size)] of an extent that allocations are bound to:
    the new extent is pooled and the leading bytes are copied; the first
    round of the loop then rebinds the first allocation, which erases the
    element the loop stands on. *)
Lemma Ptr_repool_bound st fresh key n m refs :
  Ptr.consistent st → Ptr.memoryPool st !! key = Some n →
  Ptr.bindings st !! key = Some refs → refs ≠ ∅ →
  0 < m → 0 < fresh → unused (Ptr.memory st) fresh m →
  Ptr.repool st fresh key m = Throw ErasedIterator.
Proof.
  intros Hcons Hn Hrefs Hnonempty Hm Hfresh Hun.
  destruct Hcons as [Hbind Hpool].
  destruct (Hpool _ _ Hn) as (Hk & Hn0 & Hend & Hacc%accessible_seqZ & _).
  assert (key ≠ fresh) as Hne.
  { intros ->. apply (accessible_unused_disjoint _ _ _ _ _ fresh Hacc Hun); lia. }
  set (k := Z.min m n).
  destruct (readBytes_Some (Ptr.memory st) (Z.to_nat k) key) as [d Hd].
  { rewrite Z2Nat.id by lia. eapply accessible_sub; [done|lia|lia]. }
  set (m1 := mapBytes (Ptr.memory st) fresh (Z.to_nat m)).
  assert (readBytes m1 key (Z.to_nat k) = Some d) as Hd1.
  { rewrite <- Hd. apply readBytes_ext. intros i Hi. unfold m1.
    rewrite mapBytes_lookup, decide_False; [done|]. intros Hin.
    apply (accessible_unused_disjoint _ _ _ _ _ (key + i) Hacc Hun); lia. }
  destruct (writeBytes_Some d m1 fresh) as [m2 Hw].
  { intros i Hi. unfold m1. rewrite mapBytes_lookup, decide_True; [done|].
    apply readBytes_length in Hd. lia. }
  set (st2 := Ptr.setMemory m2
                (Ptr.setPool (<[fresh:=m]> (Ptr.memoryPool st)) m1 st)).
  assert (accessible m2 key n) as Hacc2.
  { intros i Hi. eapply writeBytes_keeps_accessible; [done|]. unfold m1.
    rewrite mapBytes_lookup. destruct (decide _); [done|]. by apply Hacc. }
  destruct (begin_Some refs Hnonempty) as (first & Hfirst & Hin).
  destruct (Ptr_rebind_bound st2 first key fresh refs n m)
    as (st3 & Hre & _ & _ & Hold & _); [|done..| | |done|done|].
  { by destruct (Hbind _ _ Hrefs _ Hin) as (_ & ? & _). }
  { cbn. by rewrite lookup_insert_ne. }
  { cbn. by rewrite lookup_insert_eq. }
  unfold Ptr.repool, Ptr.throwIfNotPooled, Ptr.pool.
  rewrite (Ptr_isPooled_Some st key n Hn). cbn [mbind result_bind].
  destruct (Z.eqb_spec m 0); [lia|]. destruct (Z.eqb_spec fresh 0); [lia|].
  cbn [mbind result_bind]. unfold Ptr.poolSize.
  cbn [Ptr.memoryPool Ptr.memory Ptr.setPool].
  rewrite lookup_insert_ne, Hn by done. cbn [default from_option id].
  unfold CopyData. fold m1 k. rewrite Hd1. cbn [mbind option_bind].
  rewrite Hw. fold st2.
  change (Ptr.bindings st2) with (Ptr.bindings st). rewrite Hrefs.
  unfold begin in Hfirst. destruct (ordered refs) as [|h l]; [done|].
  injection Hfirst as ->. cbn [Ptr.repool_loop].
  rewrite bool_decide_eq_true_2 by (unfold Ptr.bindingSet; cbn; by rewrite Hrefs).
  rewrite Hre. cbn [mbind result_bind].
  rewrite bool_decide_eq_false_2; [done|].
  unfold Ptr.bindingSet. rewrite Hold. cbn. set_solver.
Qed.

(** A write keeps the tables consistent. *)
Lemma Ptr_written_consistent st mm :
  Ptr.consistent st → (∀ x, is_Some (Ptr.memory st !! x) → is_Some (mm !! x)) →
  Ptr.consistent (Ptr.setMemory mm st).
Proof.
  intros [Hbind Hpool] Hkeep. split.
  - exact Hbind.
  - intros k n' Hk'. destruct (Hpool _ _ Hk') as (? & ? & ? & Hacc & Hdisj).
    split_and!; [done..| |done].
    apply Forall_forall. intros i Hi. apply Hkeep.
    by eapply Forall_forall in Hacc.
Qed.

(** ** The local backing store: moving an extent *)

(** [LocalAllocator::repoolAddress]: the new extent holds the leading
    bytes of the old one, which is unpooled. *)
Lemma repoolAddress_leading_bytes st fresh key n m :
  Addr.pooledMemory st !! key = Some n → accessible (Addr.memory st) key n →
  0 < n → 0 < m → unused (Addr.memory st) fresh m →
  ∃ st' d,
    Addr.repoolAddress st fresh key m = Ok (fresh, st')
    ∧ Addr.pooledMemory st' !! fresh = Some m
    ∧ Addr.isPooled st' key = false
    ∧ Addr.bindings st' = Addr.bindings st
    ∧ readBytes (Addr.memory st) key (Z.to_nat (Z.min n m)) = Some d
    ∧ readBytes (Addr.memory st') fresh (Z.to_nat (Z.min n m)) = Some d.
Proof.
  intros Hn Hacc Hn0 Hm Hun.
  assert (fresh ≠ key) as Hne.
  { intros ->. apply (accessible_unused_disjoint _ _ _ _ _ key Hacc Hun); lia. }
  assert (Addr.isPooled st key = true) as Hpooled.
  { unfold Addr.isPooled. rewrite Hn. by apply bool_decide_eq_true. }
  set (k := Z.min n m).
  set (m1 := mapBytes (Addr.memory st) fresh (Z.to_nat m)).
  assert (accessible m1 fresh m) as Hacc1.
  { intros i Hi. unfold m1. by rewrite mapBytes_lookup, decide_True by lia. }
  destruct (writeBytes_Some (zeros m) m1 fresh) as [m1' Hz].
  { rewrite length_zeros, Z2Nat.id by lia. done. }
  assert (∀ i, 0 ≤ i < n → m1' !! (key + i) = Addr.memory st !! (key + i)) as Hold.
  { intros i Hi. rewrite (writeBytes_other _ _ _ _ _ Hz).
    - unfold m1. rewrite mapBytes_lookup, decide_False; [done|]. intros Hin.
      apply (accessible_unused_disjoint _ _ _ _ _ (key + i) Hacc Hun); lia.
    - rewrite length_zeros, Z2Nat.id by lia. intros Hin.
      apply (accessible_unused_disjoint _ _ _ _ _ (key + i) Hacc Hun); lia. }
  destruct (readBytes_Some (Addr.memory st) (Z.to_nat k) key) as [d Hd].
  { rewrite Z2Nat.id by lia. eapply accessible_sub; [done|lia|lia]. }
  assert (length d = Z.to_nat k) as Hlen by by eapply readBytes_length.
  assert (readBytes m1' key (Z.to_nat k) = Some d) as Hd1.
  { rewrite <- Hd. apply readBytes_ext. intros i Hi. apply Hold. lia. }
  destruct (writeBytes_Some d m1' fresh) as [m2 Hw].
  { intros i Hi. eapply writeBytes_keeps_accessible; [done|]. apply Hacc1. lia. }
  destruct (writeBytes_Some (zeros n) m2 key) as [m3 Hz3].
  { rewrite length_zeros, Z2Nat.id by lia. intros i Hi.
    eapply writeBytes_keeps_accessible; [done|]. rewrite Hold by done.
    by apply Hacc. }
  assert (∀ x, fresh ≤ x < fresh + m →
            unmapBytes m3 key (Z.to_nat n) !! x = m2 !! x) as Hsame.
  { intros x Hx.
    assert (¬ (key ≤ x < key + n)) as Hout.
    { intros Hin.
      apply (accessible_unused_disjoint _ _ _ _ _ x Hacc Hun); lia. }
    rewrite unmapBytes_lookup, decide_False by lia.
    apply (writeBytes_other _ _ _ _ _ Hz3). by rewrite length_zeros, Z2Nat.id by lia. }
  eexists _, d. split_and!.
  - unfold Addr.repoolAddress, Addr.throwIfNotPooled, Addr.poolAddress,
      Addr.zeroAddress, Addr.writeAddress, Addr.readAddress, Addr.unpoolAddress,
      Addr.throwIfNotPooled, Addr.zeroAddress, Addr.writeAddress.
    rewrite Hpooled. cbn [mbind result_bind Addr.memory Addr.setPool].
    fold m1. rewrite Hz. cbn [mbind result_bind]. unfold Addr.poolSize, Addr.isPooled.
    cbn [Addr.pooledMemory Addr.memory Addr.setPool Addr.setMemory].
    rewrite lookup_insert_ne, Hn by done. cbn [default from_option id].
    fold k. rewrite Hd1. cbn [mbind result_bind]. rewrite Hw.
    cbn [mbind result_bind]. rewrite decide_True by done.
    cbn [Addr.pooledMemory Addr.memory Addr.setPool Addr.setMemory].
    rewrite lookup_insert_ne, Hn by done. cbn [default from_option id].
    rewrite bool_decide_eq_true_2 by done.
    cbn [mbind result_bind]. rewrite Hz3.
    cbn [mbind result_bind]. reflexivity.
  - cbn. by rewrite lookup_delete_ne, lookup_insert_eq by done.
  - unfold Addr.isPooled. cbn. rewrite lookup_delete_eq.
    apply bool_decide_eq_false. by intros [? ?].
  - done.
  - done.
  - cbn [Addr.memory Addr.setPool Addr.setMemory].
    rewrite <- (writeBytes_read d m1' m2 fresh Hw), Hlen.
    apply readBytes_ext. intros i Hi. apply Hsame. lia.
Qed.

(** C6. [reallocate(m)] on an allocation bound in a consistent allocator
    does not come to hand over the resized extent: [repool] pools the new
    extent and copies the leading bytes, and the first round of its loop
    rebinds the first allocation of the binding set, which erases it from
    the set; the loop then steps from the erased element. [repoolAddress]
    of the local backing store, which has no such loop, yields on a pooled
    extent of [oldSize] bytes an extent of [newSize] bytes whose first
    [min(oldSize, newSize)] bytes are the leading bytes of the old extent,
    which it unpools. *)
Theorem reallocate_steps_from_erased_binding (st : Ptr.Allocator) (h : handle)
    (fresh m : Z)
    (backing : Addr.Allocator) (address newAddress oldSize newSize : Z) :
  Ptr.consistent st → Ptr.isBound st h = true →
  0 < m → 0 < fresh → unused (Ptr.memory st) fresh m →
  Addr.pooledMemory backing !! address = Some oldSize → 0 < oldSize →
  accessible (Addr.memory backing) address oldSize →
  0 < newSize → unused (Addr.memory backing) newAddress newSize →
  Ptr.repool st fresh (Ptr.pointer (Ptr.objects st h)) m = Throw ErasedIterator
  ∧ Ptr.reallocate st h fresh m = Throw ErasedIterator
  ∧ (∃ backing' d,
       Addr.repoolAddress backing newAddress address newSize
       = Ok (newAddress, backing')
       ∧ Addr.pooledMemory backing' !! newAddress = Some newSize
       ∧ Addr.isPooled backing' address = false
       ∧ Addr.readAddress backing address (Z.min oldSize newSize) = Ok d
       ∧ Addr.readAddress backing' newAddress (Z.min oldSize newSize) = Ok d).
Proof.
  intros Hcons Hbound Hm Hfresh Hun1 Hpooled HoldSize Hacc HnewSize Hun.
  destruct (Ptr_bound_facts st h Hcons Hbound)
    as (key & n & refs & Hobj & Hn & Hrefs & Hh & Hk & Hn0 & Hend & Hacck).
  assert (Ptr.repool st fresh key m = Throw ErasedIterator) as Hre.
  { eapply Ptr_repool_bound; [done..|set_solver|done|done|done]. }
  split_and!.
  - by rewrite Hobj.
  - unfold Ptr.reallocate. rewrite Hobj, (Ptr_isValid_bound st key n) by done.
    cbn [negb Ptr.pointer]. by rewrite Hre.
  - destruct (repoolAddress_leading_bytes backing newAddress address oldSize newSize)
      as (backing' & d & Hrun & Hnew & Hold & _ & Hd & Hd'); [done..|].
    exists backing', d. unfold Addr.readAddress. by rewrite Hd, Hd'.
Qed.

Lemma reallocate_steps_from_erased_binding_witness :
  Ptr.consistent Scenario.single
  ∧ Ptr.isBound Scenario.single 1%positive = true
  ∧ unused (Ptr.memory Scenario.single) 8192 4
  ∧ accessible (Addr.memory Scenario.AB) 0 16
  ∧ unused (Addr.memory Scenario.AB) 4096 8
  ∧ Ptr.reallocate Scenario.single 1%positive 8192 4 = Throw ErasedIterator
  ∧ (∃ backing',
       Addr.repoolAddress Scenario.AB 4096 0 8 = Ok (4096, backing')
       ∧ Addr.readAddress backing' 4096 8 = Ok (Scenario.bytesFrom 1 8)).
Proof.
  assert (Ptr.consistent Scenario.single) as Hcons by by_evaluation.
  assert (Ptr.isBound Scenario.single 1%positive = true) as Hbound by by_evaluation.
  assert (unused (Ptr.memory Scenario.single) 8192 4) as Hun1
    by (apply unused_seqZ; by_evaluation).
  assert (accessible (Addr.memory Scenario.AB) 0 16) as Hacc
    by (apply accessible_seqZ; by_evaluation).
  assert (unused (Addr.memory Scenario.AB) 4096 8) as Hun
    by (apply unused_seqZ; by_evaluation).
  destruct (reallocate_steps_from_erased_binding Scenario.single 1%positive 8192 4
              Scenario.AB 0 4096 16 8 Hcons Hbound)
    as (_ & Hre & (backing' & d & Hrun & _ & _ & Hd & Hd'));
    [lia|lia|done|by_evaluation|lia|done|lia|done|].
  split_and!; [done..|].
  exists backing'. split; [done|].
  change (Z.min 16 8) with 8 in Hd, Hd'. rewrite Hd', <- Hd. by_evaluation.
Defined.

(** ** The pointer-based allocator: allocating *)

(** In a consistent allocator nothing is pooled at, or bound to, memory
    that is not in use. *)
Lemma Ptr_unused_unpooled st fresh n :
  Ptr.consistent st → 0 < n → unused (Ptr.memory st) fresh n →
  Ptr.memoryPool st !! fresh = None ∧ Ptr.bindingSet st fresh = ∅.
Proof.
  intros [Hbind Hpool] Hn Hun.
  assert (Ptr.memoryPool st !! fresh = None) as Hunpooled.
  { destruct (Ptr.memoryPool st !! fresh) as [n2|] eqn:Hn2; [|done].
    destruct (Hpool _ _ Hn2) as (_ & ? & _ & Hacc2%accessible_seqZ & _).
    destruct (accessible_unused_disjoint _ _ _ _ _ fresh Hacc2 Hun); lia. }
  split; [done|].
  apply set_eq. intros h. split; [|set_solver].
  intros (refs & Hrefs & Hh)%Ptr_bindingSet_elem.
  destruct (Hbind _ _ Hrefs _ Hh) as (_ & _ & _ & [? Hp]).
  by rewrite Hunpooled in Hp.
Qed.

(** An allocation whose pointer is not pooled is in no binding set. *)
Lemma Ptr_unpooled_unbound st h key :
  Ptr.consistent st → Ptr.isPooled st (Ptr.pointer (Ptr.objects st h)) = false →
  h ∉ Ptr.bindingSet st key.
Proof.
  intros [Hbind _] Hnot (refs & Hrefs & Hh)%Ptr_bindingSet_elem.
  destruct (Hbind _ _ Hrefs _ Hh) as (_ & Hptr & _ & [n Hn]).
  rewrite Hptr, (Ptr_isPooled_Some st key n Hn) in Hnot. done.
Qed.

Lemma readBytes_mapBytes (m : Memory) a n :
  readBytes (mapBytes m a n) a n = Some (replicate n Byte.x00).
Proof.
  apply readBytes_lookup; [|by rewrite length_replicate].
  intros i Hi. rewrite mapBytes_lookup, decide_True by lia.
  by rewrite lookup_replicate_2.
Qed.

(** [allocate(size)] on an allocation that has an allocator and whose
    pointer is not pooled. *)
Lemma Ptr_allocate_fresh st h fresh n :
  Ptr.consistent st → Ptr.allocator (Ptr.objects st h) = true →
  Ptr.isPooled st (Ptr.pointer (Ptr.objects st h)) = false →
  0 < n → 0 < fresh → unused (Ptr.memory st) fresh n →
  ∃ st', Ptr.allocate st h fresh n = Ok st'
         ∧ Ptr.memoryPool st' = <[fresh := n]> (Ptr.memoryPool st)
         ∧ Ptr.memory st' = mapBytes (Ptr.memory st) fresh (Z.to_nat n)
         ∧ Ptr.bindings st' = <[fresh := {[h]}]> (Ptr.bindings st)
         ∧ Ptr.objects st' h = Ptr.mkAllocation true fresh n
         ∧ (∀ h', h' ≠ h → Ptr.objects st' h' = Ptr.objects st h')
         ∧ Ptr.allocations st' = Ptr.allocations st.
Proof.
  intros Hcons Halloc Hnot Hn Hfresh Hun.
  destruct (Ptr_unused_unpooled st fresh n Hcons Hn Hun) as [Hunpooled Hunbound].
  unfold Ptr.allocate, Ptr.throwIfNoAllocator, Ptr.pool.
  rewrite Halloc, Hnot, andb_false_r. cbn [mbind result_bind].
  destruct (Z.eqb_spec n 0); [lia|]. destruct (Z.eqb_spec fresh 0); [lia|].
  cbn [mbind result_bind].
  unfold Ptr.bind, Ptr.throwIfNotPooled, Ptr.throwIfBound, Ptr.isPooled,
    Ptr.Allocator_isBound, Ptr.poolSize, Ptr.bindingSet.
  cbn [Ptr.memoryPool Ptr.bindings Ptr.objects Ptr.setObject Ptr.setPool
       Ptr.setBindings Ptr.pointer].
  rewrite fn_lookup_insert. cbn [Ptr.pointer].
  rewrite lookup_insert_eq, bool_decide_eq_true_2 by done. cbn [mbind result_bind].
  unfold Ptr.bindingSet in Hunbound.
  destruct (Ptr.bindings st !! fresh) as [refs|] eqn:Hrefs; cbn in Hunbound.
  - subst refs. rewrite bool_decide_eq_false_2 by set_solver.
    cbn [mbind result_bind default from_option id].
    eexists. split; [done|]. cbn. split_and!; try done.
    + f_equal. set_solver.
    + by rewrite fn_lookup_insert.
    + intros h' Hh'. by rewrite !fn_lookup_insert_ne.
  - cbn [mbind result_bind default from_option id].
    eexists. split; [done|]. cbn. split_and!; try done.
    + f_equal. set_solver.
    + by rewrite fn_lookup_insert.
    + intros h' Hh'. by rewrite !fn_lookup_insert_ne.
Qed.

(** Pooling a fresh extent and binding one allocation to it keeps the
    tables consistent. *)
Lemma Ptr_pooled_bound_consistent st st' h fresh n :
  Ptr.consistent st → 0 < n → 0 < fresh → fresh + n < SIZE_MOD →
  unused (Ptr.memory st) fresh n → (∀ key, h ∉ Ptr.bindingSet st key) →
  Ptr.memoryPool st' = <[fresh := n]> (Ptr.memoryPool st) →
  Ptr.memory st' = mapBytes (Ptr.memory st) fresh (Z.to_nat n) →
  Ptr.bindings st' = <[fresh := {[h]}]> (Ptr.bindings st) →
  Ptr.objects st' h = Ptr.mkAllocation true fresh n →
  (∀ h', h' ≠ h → Ptr.objects st' h' = Ptr.objects st h') →
  Ptr.consistent st'.
Proof.
  intros Hcons Hn Hfresh Hend Hun Hnew Hp' Hm' Hb' Hobj Hoth.
  destruct (Ptr_unused_unpooled st fresh n Hcons Hn Hun) as [Hunpooled Hunbound].
  destruct Hcons as [Hbind Hpool].
  assert (∀ k n', Ptr.memoryPool st !! k = Some n' →
            fresh + n ≤ k ∨ k + n' ≤ fresh) as Hapart.
  { intros k n' Hk'. destruct (Hpool _ _ Hk') as (_ & ? & _ & Hacck%accessible_seqZ & _).
    by apply (accessible_unused_apart (Ptr.memory st)). }
  split.
  - intros k refs. rewrite Hb'. intros [[<- <-]|[Hne Hrefs]]%lookup_insert_Some h' Hh'.
    + apply elem_of_singleton in Hh' as ->. rewrite Hobj. unfold Ptr.poolSize.
      by rewrite Hp', lookup_insert_eq.
    + destruct (Hbind _ _ Hrefs _ Hh') as (Halloc & Hptr & Hsize & Hpooled).
      assert (h' ≠ h) as Hneq.
      { intros ->. apply (Hnew k). apply Ptr_bindingSet_elem. by exists refs. }
      rewrite (Hoth h' Hneq). unfold Ptr.poolSize in *.
      by rewrite Hp', lookup_insert_ne.
  - intros k n'. rewrite Hp'. intros [[<- <-]|[Hne Hk']]%lookup_insert_Some.
    + split_and!; [done..| |].
      * apply Forall_forall. intros i Hi%elem_of_seqZ.
        by rewrite Hm', mapBytes_lookup, decide_True by lia.
      * intros k2 n2. rewrite Hp'.
        intros [[<- <-]|[Hne2 Hk2]]%lookup_insert_Some Hne'; [done|].
        destruct (Hapart _ _ Hk2); lia.
    + destruct (Hpool _ _ Hk') as (? & ? & ? & Hacck & Hdisjk).
      split_and!; [done..| |].
      * apply Forall_forall. intros i Hi. rewrite Hm', mapBytes_lookup.
        destruct (decide _); [done|]. by eapply Forall_forall in Hacck.
      * intros k2 n2. rewrite Hp'.
        intros [[<- <-]|[Hne2 Hk2]]%lookup_insert_Some Hne'.
        { destruct (Hapart _ _ Hk'); lia. }
        by apply (Hdisjk k2 n2).
Qed.

(** X1. [allocate(n)], on an allocation that has an allocator and whose
    pointer is not pooled, pools a fresh extent of [n] bytes and binds
    the allocation to it alone: the allocation is bound with size [n], it
    reads as [n] zero bytes, the tables stay consistent, and every further
    [allocate] on it throws [DoubleAllocationException]. *)
Theorem allocate_binds_zeroed_extent (st : Ptr.Allocator) (h : handle) (fresh n : Z) :
  Ptr.consistent st → Ptr.allocator (Ptr.objects st h) = true →
  Ptr.isPooled st (Ptr.pointer (Ptr.objects st h)) = false →
  0 < n → 0 < fresh → fresh + n < SIZE_MOD → unused (Ptr.memory st) fresh n →
  ∃ st', Ptr.allocate st h fresh n = Ok st'
         ∧ Ptr.consistent st'
         ∧ Ptr.objects st' h = Ptr.mkAllocation true fresh n
         ∧ Ptr.isBound st' h = true
         ∧ Ptr.bindCount st' fresh = 1
         ∧ Ptr.read st' h 0 n = Ok (zeros n)
         ∧ (∀ fresh' n', Ptr.allocate st' h fresh' n' = Throw DoubleAllocationException).
Proof.
  intros Hcons Halloc Hnot Hn Hfresh Hend Hun.
  destruct (Ptr_allocate_fresh st h fresh n) as (st' & Hrun & Hp' & Hm' & Hb' & Hobj & Hoth & _);
    [done..|].
  assert (Ptr.memoryPool st' !! fresh = Some n) as Hpooled
    by (by rewrite Hp', lookup_insert_eq).
  assert (Ptr.bindings st' !! fresh = Some {[h]}) as Hrefs
    by (by rewrite Hb', lookup_insert_eq).
  exists st'. split_and!.
  - done.
  - eapply (Ptr_pooled_bound_consistent st st' h fresh n); try done.
    intros key. by apply Ptr_unpooled_unbound.
  - done.
  - unfold Ptr.isBound. rewrite Hobj, (Ptr_isValid_bound st' fresh n) by done.
    rewrite (Ptr_Allocator_isBound_intro st' h fresh {[h]}); [done|by rewrite Hobj|done|].
    set_solver.
  - unfold Ptr.bindCount. rewrite Hrefs. by rewrite size_singleton.
  - rewrite (Ptr_read_bound st' h fresh n {[h]}) by (done || lia || set_solver).
    by rewrite Hm', readBytes_mapBytes.
  - intros fresh' n'. unfold Ptr.allocate, Ptr.throwIfNoAllocator.
    rewrite Hobj. cbn [Ptr.allocator Ptr.pointer mbind result_bind].
    rewrite (Ptr_isPooled_Some st' fresh n Hpooled).
    by destruct (Z.eqb_spec fresh 0); [lia|].
Qed.

Lemma allocate_binds_zeroed_extent_witness :
  Ptr.consistent Scenario.single
  ∧ unused (Ptr.memory Scenario.single) 8192 4
  ∧ ∃ st', Ptr.allocate
             (Ptr.setObject 2%positive (Ptr.mkAllocation true 0 0) Scenario.single)
             2%positive 8192 4 = Ok st'
           ∧ Ptr.read st' 2%positive 0 4 = Ok (zeros 4).
Proof.
  assert (Ptr.consistent Scenario.single) as Hcons by by_evaluation.
  assert (unused (Ptr.memory Scenario.single) 8192 4) as Hun
    by (apply unused_seqZ; by_evaluation).
  split_and!; [done..|].
  destruct (allocate_binds_zeroed_extent
              (Ptr.setObject 2%positive (Ptr.mkAllocation true 0 0) Scenario.single)
              2%positive 8192 4)
    as (st' & Hrun & _ & _ & _ & _ & Hread & _);
    [by_evaluation|done|by_evaluation|lia|lia|by_evaluation|done|].
  exists st'. by split.
Defined.

(** ** The pointer-based allocator: aliases *)

Lemma Ptr_isBound_intro st h key refs :
  Ptr.consistent st → Ptr.bindings st !! key = Some refs → h ∈ refs →
  Ptr.isBound st h = true
  ∧ ∃ n, Ptr.objects st h = Ptr.mkAllocation true key n
         ∧ Ptr.memoryPool st !! key = Some n.
Proof.
  intros [Hbind Hpool] Hrefs Hh.
  destruct (Hbind _ _ Hrefs _ Hh) as (Halloc & Hptr & Hsize & [n Hn]).
  destruct (Hpool _ _ Hn) as (Hk & Hn0 & _).
  unfold Ptr.poolSize in Hsize. rewrite Hn in Hsize. cbn in Hsize.
  assert (Ptr.objects st h = Ptr.mkAllocation true key n) as Hobj.
  { destruct (Ptr.objects st h) as [al p s]. cbn in *. by subst. }
  split; [|by exists n].
  unfold Ptr.isBound. rewrite Hobj, (Ptr_isValid_bound st key n) by done.
  by rewrite (Ptr_Allocator_isBound_intro st h key refs) by (by rewrite ?Hobj).
Qed.

(** A read depends on the allocation object, on its binding and on the
    memory only. *)
Lemma Ptr_read_same st st' h o sz :
  Ptr.objects st' h = Ptr.objects st h → Ptr.memory st' = Ptr.memory st →
  Ptr.Allocator_isBound st' h = Ptr.Allocator_isBound st h →
  Ptr.read st' h o sz = Ptr.read st h o sz.
Proof.
  intros Hobj Hm Hb.
  unfold Ptr.read, Ptr.read_address, Ptr.derefAllocator, Ptr.throwIfNotBound,
    Ptr.Allocator_read.
  by rewrite Hobj, Hm, Hb.
Qed.

(** [copy] into an allocation that is bound nowhere: [bind]. *)
Lemma Ptr_copy_unbound st a b key n refs :
  Ptr.objects st a = Ptr.mkAllocation true key n →
  Ptr.memoryPool st !! key = Some n → 0 < key → 0 < n →
  Ptr.bindings st !! key = Some refs → a ∈ refs →
  (∀ k, b ∉ Ptr.bindingSet st k) →
  ∃ st', Ptr.copy st b a = Ok st'
         ∧ Ptr.memoryPool st' = Ptr.memoryPool st
         ∧ Ptr.memory st' = Ptr.memory st
         ∧ Ptr.bindings st' = <[key := {[b]} ∪ refs]> (Ptr.bindings st)
         ∧ Ptr.objects st' b = Ptr.mkAllocation true key n
         ∧ (∀ h', h' ≠ b → Ptr.objects st' h' = Ptr.objects st h')
         ∧ Ptr.allocations st' = Ptr.allocations st.
Proof.
  intros Hobj Hn Hk Hn0 Hrefs Ha Hnew.
  assert (a ≠ b) as Hab.
  { intros ->. apply (Hnew key), Ptr_bindingSet_elem. by exists refs. }
  assert (∀ p, match Ptr.bindings st !! p with
               | Some refs' => bool_decide (b ∈ refs')
               | None => false
               end = false) as Hunbound.
  { intros p. destruct (Ptr.bindings st !! p) as [refs'|] eqn:Hrefs'; [|done].
    apply bool_decide_eq_false. intros Hb. eapply Hnew, Ptr_bindingSet_elem.
    by exists refs'. }
  unfold Ptr.copy, Ptr.throwIfInvalid.
  rewrite Hobj, (Ptr_isValid_bound st key n) by done. cbn [mbind result_bind].
  unfold Ptr.isBound, Ptr.Allocator_isBound.
  cbn [Ptr.bindings Ptr.objects Ptr.setObject Ptr.allocator].
  rewrite Hunbound, andb_false_r.
  rewrite fn_lookup_insert_ne, Hobj by done. cbn [Ptr.pointer].
  unfold Ptr.bind, Ptr.throwIfNotPooled, Ptr.throwIfBound, Ptr.isPooled,
    Ptr.Allocator_isBound, Ptr.poolSize, Ptr.bindingSet.
  cbn [Ptr.memoryPool Ptr.bindings Ptr.objects Ptr.setObject Ptr.setBindings].
  rewrite Hn, bool_decide_eq_true_2 by done. cbn [mbind result_bind].
  rewrite Hunbound. cbn [mbind result_bind]. rewrite Hrefs.
  cbn [default from_option id].
  eexists. split; [done|]. cbn. split_and!; try done.
  - by rewrite fn_lookup_insert.
  - intros h' Hh'. by rewrite !fn_lookup_insert_ne.
Qed.

(** Binding one more allocation to a pooled extent keeps the tables
    consistent. *)
Lemma Ptr_alias_consistent st st' b key n refs :
  Ptr.consistent st → Ptr.memoryPool st !! key = Some n →
  Ptr.bindings st !! key = Some refs → (∀ k, b ∉ Ptr.bindingSet st k) →
  Ptr.memoryPool st' = Ptr.memoryPool st → Ptr.memory st' = Ptr.memory st →
  Ptr.bindings st' = <[key := {[b]} ∪ refs]> (Ptr.bindings st) →
  Ptr.objects st' b = Ptr.mkAllocation true key n →
  (∀ h', h' ≠ b → Ptr.objects st' h' = Ptr.objects st h') →
  Ptr.consistent st'.
Proof.
  intros [Hbind Hpool] Hn Hrefs Hnew Hp' Hm' Hb' Hobj Hoth. split.
  - intros k refs'. rewrite Hb'.
    assert (∀ h', h' ∈ Ptr.bindingSet st k → h' ≠ b) as Hneq.
    { intros h' Hh' ->. by apply (Hnew k). }
    intros [[<- <-]|[Hne Hrefs']]%lookup_insert_Some h' Hh'.
    + unfold Ptr.poolSize. rewrite Hp', Hn.
      apply elem_of_union in Hh' as [->%elem_of_singleton|Hh'].
      { by rewrite Hobj. }
      rewrite Hoth by (apply Hneq, Ptr_bindingSet_elem; by exists refs).
      destruct (Hbind _ _ Hrefs _ Hh') as (? & ? & Hsize & ?).
      unfold Ptr.poolSize in Hsize. by rewrite Hn in Hsize.
    + rewrite Hoth by (apply Hneq, Ptr_bindingSet_elem; by exists refs').
      unfold Ptr.poolSize. rewrite Hp'. by apply (Hbind _ _ Hrefs').
  - intros k n' Hk'. rewrite Hp' in Hk'.
    unfold Ptr.extent_pooled. rewrite Hp', Hm'. by apply Hpool.
Qed.

(** X2. [copy] aliases: an allocation bound nowhere that copies a bound
    allocation is bound to the same extent, with the same pointer and
    size; the extent has one binding more, the tables stay consistent,
    and what is written through either allocation is read through the
    other. *)
Theorem copy_shares_the_extent (st : Ptr.Allocator) (a b : handle) :
  Ptr.consistent st → Ptr.isBound st a = true →
  (∀ k, b ∉ Ptr.bindingSet st k) →
  ∃ st', Ptr.copy st b a = Ok st'
         ∧ Ptr.consistent st'
         ∧ Ptr.objects st' b = Ptr.objects st a
         ∧ Ptr.isBound st' a = true ∧ Ptr.isBound st' b = true
         ∧ Ptr.bindCount st' (Ptr.pointer (Ptr.objects st a))
           = Ptr.bindCount st (Ptr.pointer (Ptr.objects st a)) + 1
         ∧ (∀ data, Z.of_nat (length data) = Ptr.size (Ptr.objects st a) →
              (∃ st'', Ptr.write st' a 0 data = Ok st''
                       ∧ Ptr.read st'' b 0 (Ptr.size (Ptr.objects st a)) = Ok data)
              ∧ (∃ st'', Ptr.write st' b 0 data = Ok st''
                         ∧ Ptr.read st'' a 0 (Ptr.size (Ptr.objects st a)) = Ok data)).
Proof.
  intros Hcons Hbound Hnew.
  destruct (Ptr_bound_facts st a Hcons Hbound)
    as (key & n & refs & Hobj & Hn & Hrefs & Ha & Hk & Hn0 & Hend & Hacc).
  destruct (Ptr_copy_unbound st a b key n refs)
    as (st' & Hrun & Hp' & Hm' & Hb' & Hobjb & Hoth & _); [done..|].
  assert (a ≠ b) as Hab.
  { intros ->. apply (Hnew key), Ptr_bindingSet_elem. by exists refs. }
  assert (b ∉ refs) as Hbrefs.
  { intros Hb. apply (Hnew key), Ptr_bindingSet_elem. by exists refs. }
  assert (Ptr.consistent st') as Hcons'
    by (by eapply (Ptr_alias_consistent st st' b key n refs)).
  assert (Ptr.bindings st' !! key = Some ({[b]} ∪ refs)) as Hrefs'
    by (by rewrite Hb', lookup_insert_eq).
  assert (Ptr.objects st' a = Ptr.mkAllocation true key n) as Hobja
    by (by rewrite Hoth, Hobj).
  assert (Ptr.memoryPool st' !! key = Some n) as Hn' by (by rewrite Hp').
  assert (accessible (Ptr.memory st') key n) as Hacc' by (by rewrite Hm').
  exists st'. rewrite Hobj. cbn [Ptr.pointer Ptr.size]. split_and!.
  - done.
  - done.
  - done.
  - apply (Ptr_isBound_intro st' a key ({[b]} ∪ refs)); [done..|set_solver].
  - apply (Ptr_isBound_intro st' b key ({[b]} ∪ refs)); [done..|set_solver].
  - unfold Ptr.bindCount. rewrite Hrefs', Hrefs.
    rewrite size_union by set_solver. rewrite size_singleton. lia.
  - intros data Hlen. split.
    + destruct (Ptr_write_bound st' a key n ({[b]} ∪ refs) data Hobja Hn' Hrefs')
        as (mm & Hw & ->); [set_solver|done..|].
      eexists. split; [done|].
      rewrite (Ptr_read_bound _ b key n ({[b]} ∪ refs)) by (done || lia || set_solver).
      cbn [Ptr.memory Ptr.setMemory].
      replace (Z.to_nat n) with (length data) by lia.
      by rewrite (writeBytes_read _ _ _ _ Hw).
    + destruct (Ptr_write_bound st' b key n ({[b]} ∪ refs) data Hobjb Hn' Hrefs')
        as (mm & Hw & ->); [set_solver|done..|].
      eexists. split; [done|].
      rewrite (Ptr_read_bound _ a key n ({[b]} ∪ refs)) by (done || lia || set_solver).
      cbn [Ptr.memory Ptr.setMemory].
      replace (Z.to_nat n) with (length data) by lia.
      by rewrite (writeBytes_read _ _ _ _ Hw).
Qed.

Lemma Ptr_no_allocator_unbound st h :
  Ptr.consistent st → Ptr.allocator (Ptr.objects st h) = false →
  ∀ k, h ∉ Ptr.bindingSet st k.
Proof.
  intros [Hbind _] Hnone k (refs & Hrefs & Hh)%Ptr_bindingSet_elem.
  destruct (Hbind _ _ Hrefs _ Hh) as (Halloc & _). congruence.
Qed.

Lemma copy_shares_the_extent_witness :
  Ptr.consistent Scenario.single
  ∧ Ptr.isBound Scenario.single 1%positive = true
  ∧ (∀ k, 2%positive ∉ Ptr.bindingSet Scenario.single k)
  ∧ ∃ st', Ptr.copy Scenario.single 2%positive 1%positive = Ok st'
           ∧ ∃ st'', Ptr.write st' 1%positive 0 (Scenario.bytesFrom 1 16) = Ok st''
                     ∧ Ptr.read st'' 2%positive 0 16 = Ok (Scenario.bytesFrom 1 16).
Proof.
  assert (Ptr.consistent Scenario.single) as Hcons by by_evaluation.
  assert (Ptr.isBound Scenario.single 1%positive = true) as Hbound by by_evaluation.
  assert (∀ k, 2%positive ∉ Ptr.bindingSet Scenario.single k) as Hnew.
  { apply Ptr_no_allocator_unbound; [done|by_evaluation]. }
  split_and!; [done..|].
  destruct (copy_shares_the_extent Scenario.single 1%positive 2%positive
              Hcons Hbound Hnew) as (st' & Hrun & _ & _ & _ & _ & _ & Hshare).
  exists st'. split; [done|].
  destruct (Hshare (Scenario.bytesFrom 1 16)) as [Hab _]; [by_evaluation|].
  exact Hab.
Defined.

(** [rebind] of an allocation to the extent it is bound to already. *)
Lemma Ptr_rebind_same st b key n refs :
  Ptr.pointer (Ptr.objects st b) = key →
  Ptr.bindings st !! key = Some refs → b ∈ refs →
  Ptr.memoryPool st !! key = Some n → accessible (Ptr.memory st) key n →
  ∃ st', Ptr.rebind st b key = Ok st'
         ∧ Ptr.objects st' b = Ptr.mkAllocation true key n
         ∧ (∀ h', h' ≠ b → Ptr.objects st' h' = Ptr.objects st h')
         ∧ Ptr.bindings st' = <[key := refs ∖ {[b]}]> (Ptr.bindings st)
         ∧ (if decide (refs ∖ {[b]} = ∅)
            then Ptr.memoryPool st' = delete key (Ptr.memoryPool st)
                 ∧ Ptr.memory st' = unmapBytes (Ptr.memory st) key (Z.to_nat n)
            else Ptr.memoryPool st' = Ptr.memoryPool st
                 ∧ Ptr.memory st' = Ptr.memory st).
Proof.
  intros Hptr Hrefs Hb Hn Hacc.
  unfold Ptr.rebind, Ptr.throwIfNotPooled.
  rewrite (Ptr_Allocator_isBound_intro st b key refs) by done.
  rewrite Hptr, (Ptr_isPooled_Some st key n) by done.
  cbn [negb mbind result_bind]. cbv zeta.
  assert (∀ a s, Ptr.bindingSet
                   (Ptr.setObject b a
                      (Ptr.setBindings
                         (<[key:=Ptr.bindingSet
                                   (Ptr.setBindings
                                      (<[key:={[b]} ∪ Ptr.bindingSet st key]>
                                         (Ptr.bindings st)) st) key ∖ {[b]}]>
                            (Ptr.bindings
                               (Ptr.setBindings
                                  (<[key:={[b]} ∪ Ptr.bindingSet st key]>
                                     (Ptr.bindings st)) st))) s)) key
                 = refs ∖ {[b]}) as Hset.
  { intros a s. unfold Ptr.bindingSet. cbn. rewrite !lookup_insert_eq, Hrefs. cbn.
    set_solver. }
  rewrite Hset. unfold Ptr.poolSize. cbn [Ptr.memoryPool Ptr.setBindings].
  rewrite Hn. cbn [default from_option id].
  assert (<[key:=Ptr.bindingSet
                   (Ptr.setBindings
                      (<[key:={[b]} ∪ Ptr.bindingSet st key]> (Ptr.bindings st)) st)
                   key ∖ {[b]}]>
            (Ptr.bindings
               (Ptr.setBindings
                  (<[key:={[b]} ∪ Ptr.bindingSet st key]> (Ptr.bindings st)) st))
          = <[key := refs ∖ {[b]}]> (Ptr.bindings st)) as Htab.
  { unfold Ptr.bindingSet. cbn. rewrite lookup_insert_eq, Hrefs. cbn.
    rewrite insert_insert_eq. f_equal. set_solver. }
  rewrite Htab.
  destruct (decide (size (refs ∖ {[b]}) = 0%nat)) as [Hz|Hnz].
  - apply size_empty_inv, leibniz_equiv in Hz.
    rewrite (Ptr_unpool_unreferenced _ key n).
    + eexists. split; [done|]. cbn. rewrite decide_True by done.
      split_and!; try done.
      * by rewrite fn_lookup_insert.
      * intros h' Hh'. by rewrite fn_lookup_insert_ne.
    + done.
    + left. cbn. by rewrite lookup_insert_eq, Hz.
    + done.
  - eexists. split; [done|]. cbn.
    rewrite decide_False by (intros He; apply Hnz; by rewrite He, size_empty).
    split_and!; try done.
    + by rewrite fn_lookup_insert.
    + intros h' Hh'. by rewrite fn_lookup_insert_ne.
Qed.

(** [copy] between two allocations that are bound to one extent. *)
Lemma Ptr_copy_same st a b key n refs :
  Ptr.objects st a = Ptr.mkAllocation true key n →
  Ptr.objects st b = Ptr.mkAllocation true key n →
  Ptr.bindings st !! key = Some refs → b ∈ refs →
  Ptr.memoryPool st !! key = Some n → 0 < key → 0 < n →
  accessible (Ptr.memory st) key n →
  ∃ st', Ptr.copy st b a = Ok st'
         ∧ Ptr.objects st' b = Ptr.mkAllocation true key n
         ∧ (∀ h', h' ≠ b → Ptr.objects st' h' = Ptr.objects st h')
         ∧ Ptr.bindings st' = <[key := refs ∖ {[b]}]> (Ptr.bindings st)
         ∧ (if decide (refs ∖ {[b]} = ∅)
            then Ptr.memoryPool st' = delete key (Ptr.memoryPool st)
                 ∧ Ptr.memory st' = unmapBytes (Ptr.memory st) key (Z.to_nat n)
            else Ptr.memoryPool st' = Ptr.memoryPool st
                 ∧ Ptr.memory st' = Ptr.memory st).
Proof.
  intros Hobja Hobjb Hrefs Hb Hn Hk Hn0 Hacc.
  unfold Ptr.copy, Ptr.throwIfInvalid.
  rewrite Hobja, (Ptr_isValid_bound st key n) by done. cbn [mbind result_bind].
  rewrite Hobjb. cbn [Ptr.allocator Ptr.pointer Ptr.size].
  set (st1 := Ptr.setObject b (Ptr.mkAllocation true key n) st).
  assert (Ptr.objects st1 b = Ptr.mkAllocation true key n) as Hobj1
    by (cbn; by rewrite fn_lookup_insert).
  assert (Ptr.isBound st1 b = true) as ->.
  { unfold Ptr.isBound. rewrite Hobj1, (Ptr_isValid_bound st1 key n) by done.
    by rewrite (Ptr_Allocator_isBound_intro st1 b key refs) by (by rewrite ?Hobj1). }
  assert (Ptr.pointer (Ptr.objects st1 a) = key) as ->.
  { cbn. destruct (decide (a = b)) as [->|Hne].
    - by rewrite fn_lookup_insert.
    - by rewrite fn_lookup_insert_ne, Hobja. }
  destruct (Ptr_rebind_same st1 b key n refs) as (st' & Hrun & Hb' & Hoth & Htab & Hrel);
    [by rewrite Hobj1|done..|].
  exists st'. split; [done|]. split_and!; try done.
  intros h' Hh'. rewrite (Hoth h' Hh'). cbn. by rewrite fn_lookup_insert_ne.
Qed.

(** X3. [copy] between two allocations that are already bound to one
    extent (among them the copy of an allocation onto itself) takes the
    copying allocation out of the binding set: it keeps its pointer and
    size but is bound no more, and every read through it throws
    [UnboundAllocationException]. When it was the only allocation bound to
    the extent, the extent is released; another allocation bound to the
    extent stays bound. Self-assignment runs into this. *)
Theorem copy_within_an_extent_unbinds (st : Ptr.Allocator) (a b : handle) :
  Ptr.consistent st → Ptr.isBound st a = true → Ptr.isBound st b = true →
  Ptr.pointer (Ptr.objects st b) = Ptr.pointer (Ptr.objects st a) →
  (∃ st', Ptr.copy st b a = Ok st'
          ∧ Ptr.objects st' b = Ptr.objects st b
          ∧ Ptr.Allocator_isBound st' b = false
          ∧ Ptr.isBound st' b = false
          ∧ (∀ o sz, Ptr.read st' b o sz = Throw UnboundAllocationException)
          ∧ (Ptr.bindingSet st (Ptr.pointer (Ptr.objects st b)) = {[b]} →
             Ptr.isPooled st' (Ptr.pointer (Ptr.objects st b)) = false
             ∧ unused (Ptr.memory st') (Ptr.pointer (Ptr.objects st b))
                 (Ptr.size (Ptr.objects st b)))
          ∧ (a ≠ b → Ptr.isBound st' a = true))
  ∧ (∃ st', Ptr.assign st a a = Ok st'
            ∧ Ptr.isBound st' a = false
            ∧ Ptr.pointer (Ptr.objects st' a) = Ptr.pointer (Ptr.objects st a)).
Proof.
  intros Hcons Ha Hb Hsame.
  destruct (Ptr_bound_facts st a Hcons Ha)
    as (key & n & refs & Hobja & Hn & Hrefs & Hina & Hk & Hn0 & Hend & Hacc).
  destruct (Ptr_bound_facts st b Hcons Hb)
    as (key' & n' & refs' & Hobjb & Hn' & Hrefs' & Hinb & _).
  rewrite Hobja, Hobjb in Hsame. cbn in Hsame. subst key'.
  rewrite Hrefs in Hrefs'. injection Hrefs' as <-.
  rewrite Hn in Hn'. injection Hn' as <-.
  assert (∀ s x, Ptr.objects s x = Ptr.mkAllocation true key n →
            Ptr.bindings s !! key = Some (refs ∖ {[x]}) →
            Ptr.Allocator_isBound s x = false) as Hout.
  { intros s x Hobj Htab. unfold Ptr.Allocator_isBound. rewrite Hobj. cbn.
    rewrite Htab. apply bool_decide_eq_false. set_solver. }
  split.
  - destruct (Ptr_copy_same st a b key n refs)
      as (st' & Hrun & Hobj' & Hoth & Htab & Hrel); [done..|].
    assert (Ptr.Allocator_isBound st' b = false) as Hunbound.
    { apply Hout; [done|]. by rewrite Htab, lookup_insert_eq. }
    exists st'. rewrite Hobjb. cbn [Ptr.pointer Ptr.size]. split_and!.
    + done.
    + done.
    + done.
    + unfold Ptr.isBound. by rewrite Hunbound, andb_false_r.
    + intros o sz. unfold Ptr.read, Ptr.read_address, Ptr.derefAllocator,
        Ptr.throwIfNotBound. by rewrite Hunbound, Hobj'.
    + intros Hsole. unfold Ptr.bindingSet in Hsole. rewrite Hrefs in Hsole.
      cbn in Hsole. subst refs.
      rewrite decide_True in Hrel by set_solver. destruct Hrel as [Hp Hm]. split.
      * apply Ptr_isPooled_None. by rewrite Hp, lookup_delete_eq.
      * intros i Hi. rewrite Hm, unmapBytes_lookup, decide_True by lia. done.
    + intros Hne. unfold Ptr.isBound.
      rewrite decide_False in Hrel by set_solver. destruct Hrel as [Hp Hm].
      rewrite (Hoth a Hne), Hobja, (Ptr_isValid_bound st' key n) by (by rewrite ?Hp).
      rewrite (Ptr_Allocator_isBound_intro st' a key (refs ∖ {[b]})); [done| | |].
      * by rewrite (Hoth a Hne), Hobja.
      * by rewrite Htab, lookup_insert_eq.
      * set_solver.
  - unfold Ptr.assign.
    set (st1 := Ptr.setObject a _ st).
    assert (Ptr.objects st1 a = Ptr.mkAllocation true key n) as Hobj1.
    { unfold st1. cbn. by rewrite fn_lookup_insert, Hobja. }
    rewrite Hobj1, (Ptr_isValid_bound st1 key n) by done.
    destruct (Ptr_copy_same st1 a a key n refs)
      as (st' & Hrun & Hobj' & Hoth & Htab & Hrel); [done..|].
    exists st'. split; [done|]. rewrite Hobj', Hobja. split; [|done].
    unfold Ptr.isBound. rewrite (Hout st' a Hobj'), andb_false_r; [done|].
    by rewrite Htab, lookup_insert_eq.
Qed.

Lemma copy_within_an_extent_unbinds_witness :
  Ptr.consistent Scenario.single
  ∧ Ptr.isBound Scenario.single 1%positive = true
  ∧ ∃ st', Ptr.assign Scenario.single 1%positive 1%positive = Ok st'
           ∧ Ptr.isBound st' 1%positive = false
           ∧ Ptr.pointer (Ptr.objects st' 1%positive) = 4096.
Proof.
  assert (Ptr.consistent Scenario.single) as Hcons by by_evaluation.
  assert (Ptr.isBound Scenario.single 1%positive = true) as Hbound by by_evaluation.
  split_and!; [done..|].
  destruct (copy_within_an_extent_unbinds Scenario.single 1%positive 1%positive
              Hcons Hbound Hbound eq_refl) as [_ (st' & Hrun & Hunbound & Hptr)].
  exists st'. split_and!; [done..|]. rewrite Hptr. by_evaluation.
Defined.

(** ** The pointer-based allocator: releasing through the allocation *)

(** [unbind] keeps the tables consistent. *)
Lemma Ptr_unbind_consistent st h st' :
  Ptr.consistent st → Ptr.unbind st h = Ok st' → Ptr.consistent st'.
Proof.
  intros [Hbind Hpool] (Hbound & Hpooled & Hobj & _ & Htab)%Ptr_unbind_Ok.
  apply Ptr_Allocator_isBound_true in Hbound as (refs & Hrefs & Hh).
  set (key := Ptr.pointer (Ptr.objects st h)) in *.
  unfold Ptr.isPooled in Hpooled. apply bool_decide_eq_true in Hpooled as [n Hn].
  assert (Ptr.bindingSet st key = refs) as Hset.
  { unfold Ptr.bindingSet. by rewrite Hrefs. }
  assert (Ptr.poolSize st key = n) as Hsize.
  { unfold Ptr.poolSize. by rewrite Hn. }
  rewrite Hset, Hsize in Htab.
  assert (∀ k refs' h', Ptr.bindings st !! k = Some refs' → h' ∈ refs' →
            (k ≠ key ∨ h' ≠ h) → h' ≠ h) as Hneq.
  { intros k refs' h' Hrefs' Hh' [Hk|Hne] ->; [|done].
    by destruct (Hbind _ _ Hrefs' _ Hh') as (_ & ? & _). }
  assert (∀ h', h' ≠ h → Ptr.objects st' h' = Ptr.objects st h') as Hoth.
  { intros h' Hne. by rewrite Hobj, fn_lookup_insert_ne. }
  destruct (decide (refs ∖ {[h]} = ∅)) as [Hlast|Hmore];
    destruct Htab as (Hb' & Hp' & Hm').
  - split.
    + intros k refs'. rewrite Hb'. intros [Hk Hrefs']%lookup_delete_Some h' Hh'.
      rewrite Hoth by (eapply Hneq; [done..|by left]).
      unfold Ptr.poolSize. rewrite Hp', lookup_delete_ne by done.
      by apply (Hbind _ _ Hrefs').
    + intros k n'. rewrite Hp'. intros [Hk Hk']%lookup_delete_Some.
      destruct (Hpool _ _ Hk') as (? & ? & ? & Hacck & Hdisjk).
      split_and!; [done..| |].
      * apply Forall_forall. intros i Hi. rewrite Hm', unmapBytes_lookup.
        pose proof (Hdisjk _ _ Hn (not_eq_sym Hk)) as Hd.
        destruct (Hpool _ _ Hn) as (_ & ? & _).
        pose proof Hi as Hi'%elem_of_seqZ.
        rewrite decide_False by lia. by eapply Forall_forall in Hacck.
      * intros k2 n2. rewrite Hp'. intros [Hk2 Hk2']%lookup_delete_Some Hne2.
        by apply (Hdisjk k2 n2).
  - split.
    + intros k refs'. rewrite Hb'.
      intros [[<- <-]|[Hk Hrefs']]%lookup_insert_Some h' Hh'.
      * rewrite Hoth by set_solver. unfold Ptr.poolSize. rewrite Hp'.
        apply (Hbind _ _ Hrefs). set_solver.
      * rewrite Hoth by (eapply Hneq; [done..|by left]).
        unfold Ptr.poolSize. rewrite Hp'. by apply (Hbind _ _ Hrefs').
    + intros k n' Hk'. unfold Ptr.extent_pooled. rewrite Hm', Hp'.
      rewrite Hp' in Hk'. by apply Hpool.
Qed.

(** [deallocate()] on a bound allocation. *)
Lemma Ptr_deallocate_bound st h :
  Ptr.consistent st → Ptr.isBound st h = true →
  ∃ st', Ptr.deallocate st h = Ok st' ∧ Ptr.unbind st h = Ok st'.
Proof.
  intros Hcons Hbound.
  destruct (Ptr_bound_facts st h Hcons Hbound)
    as (key & n & refs & Hobj & Hn & Hrefs & Hh & Hk & Hn0 & Hend & Hacc).
  destruct (Ptr_unbind_run st h key n) as [st' Hun];
    [by apply (Ptr_Allocator_isBound_intro st h key refs); rewrite ?Hobj
    |by rewrite Hobj|done..|].
  exists st'. split; [|done].
  unfold Ptr.deallocate, Ptr.throwIfInvalid, Ptr.throwIfNotBound.
  rewrite Hobj, (Ptr_isValid_bound st key n) by done.
  by rewrite (Ptr_Allocator_isBound_intro st h key refs) by (by rewrite ?Hobj).
Qed.

(** X4. In the pointer-based allocator, with [a] and [b] the two
    allocations bound to one extent, [a.deallocate()] leaves the extent
    pooled, [b] bound and what [b] reads unchanged; [b.deallocate()]
    afterwards releases the extent and gives its storage back. The tables
    stay consistent throughout. *)
Theorem deallocate_releases_with_the_last_alias (st : Ptr.Allocator) (a b : handle)
    (key : Z) :
  Ptr.consistent st → a ≠ b → Ptr.bindings st !! key = Some {[a; b]} →
  ∃ st1, Ptr.deallocate st a = Ok st1
         ∧ Ptr.consistent st1
         ∧ Ptr.isPooled st1 key = true
         ∧ Ptr.isBound st1 a = false
         ∧ Ptr.isBound st1 b = true
         ∧ (∀ o sz, Ptr.read st1 b o sz = Ptr.read st b o sz)
         ∧ ∃ st2, Ptr.deallocate st1 b = Ok st2
                  ∧ Ptr.consistent st2
                  ∧ Ptr.isPooled st2 key = false
                  ∧ Ptr.isBound st2 b = false
                  ∧ unused (Ptr.memory st2) key (Ptr.poolSize st key).
Proof.
  intros Hcons Hab Hrefs.
  destruct (Ptr_isBound_intro st a key {[a; b]} Hcons Hrefs) as (Ha & n & Hobja & Hn);
    [set_solver|].
  destruct (Ptr_isBound_intro st b key {[a; b]} Hcons Hrefs) as (Hb & n' & Hobjb & Hn');
    [set_solver|].
  rewrite Hn in Hn'. injection Hn' as <-.
  destruct (Ptr_deallocate_bound st a Hcons Ha) as (st1 & Hrun1 & Hun1).
  pose proof (Ptr_unbind_consistent st a st1 Hcons Hun1) as Hcons1.
  pose proof (Ptr_unbind_Ok _ _ _ Hun1) as (_ & _ & Hobj1 & _ & Htab1).
  rewrite Hobja in Hobj1, Htab1. cbn [Ptr.pointer Ptr.allocator] in Hobj1, Htab1.
  assert (Ptr.bindingSet st key ∖ {[a]} = {[b]}) as Hrest.
  { unfold Ptr.bindingSet. rewrite Hrefs. cbn. set_solver. }
  rewrite Hrest, decide_False in Htab1 by set_solver.
  destruct Htab1 as (Hb1 & Hp1 & Hm1).
  assert (Ptr.bindings st1 !! key = Some {[b]}) as Hrefs1
    by (by rewrite Hb1, lookup_insert_eq).
  assert (Ptr.objects st1 b = Ptr.objects st b) as Hsame
    by (by rewrite Hobj1, fn_lookup_insert_ne).
  destruct (Ptr_isBound_intro st1 b key {[b]} Hcons1 Hrefs1) as (Hb1' & _);
    [set_solver|].
  destruct (Ptr_deallocate_bound st1 b Hcons1 Hb1') as (st2 & Hrun2 & Hun2).
  pose proof (Ptr_unbind_consistent st1 b st2 Hcons1 Hun2) as Hcons2.
  pose proof (Ptr_unbind_Ok _ _ _ Hun2) as (_ & _ & Hobj2 & _ & Htab2).
  rewrite Hsame, Hobjb in Hobj2, Htab2. cbn [Ptr.pointer Ptr.allocator] in Hobj2, Htab2.
  assert (Ptr.bindingSet st1 key ∖ {[b]} = ∅) as Hrest2.
  { unfold Ptr.bindingSet. rewrite Hrefs1. cbn. set_solver. }
  rewrite Hrest2, decide_True in Htab2 by done.
  destruct Htab2 as (Hb2 & Hp2 & Hm2).
  assert (Ptr.poolSize st key = n) as Hsize by (unfold Ptr.poolSize; by rewrite Hn).
  assert (Ptr.poolSize st1 key = n) as Hsize1
    by (unfold Ptr.poolSize; by rewrite Hp1, Hn).
  assert (∀ s, Ptr.objects s b = Ptr.mkAllocation true 0 0 → Ptr.isBound s b = false)
    as Hdead.
  { intros s Hs. unfold Ptr.isBound, Ptr.isValid. by rewrite Hs. }
  exists st1. split_and!.
  - done.
  - done.
  - apply (Ptr_isPooled_Some st1 key n). by rewrite Hp1.
  - unfold Ptr.isBound, Ptr.isValid. by rewrite Hobj1, fn_lookup_insert.
  - done.
  - intros o sz. apply Ptr_read_same; [done..|].
    apply andb_prop in Hb as [_ ->]. by apply andb_prop in Hb1' as [_ ->].
  - exists st2. split_and!.
    + done.
    + done.
    + apply Ptr_isPooled_None. by rewrite Hp2, lookup_delete_eq.
    + apply Hdead. by rewrite Hobj2, fn_lookup_insert.
    + intros i Hi. rewrite Hm2, Hsize1, unmapBytes_lookup, decide_True; [done|].
      rewrite Hsize in Hi. lia.
Qed.

Lemma deallocate_releases_with_the_last_alias_witness :
  let st := Scenario.orElse Ptr.empty
              (Ptr.copy Scenario.single 2%positive 1%positive) in
  Ptr.consistent st ∧ Ptr.bindings st !! 4096 = Some {[1%positive; 2%positive]}
  ∧ ∃ st1, Ptr.deallocate st 1%positive = Ok st1
           ∧ Ptr.isPooled st1 4096 = true
           ∧ ∃ st2, Ptr.deallocate st1 2%positive = Ok st2
                    ∧ Ptr.isPooled st2 4096 = false.
Proof.
  intros st.
  assert (Ptr.consistent st) as Hcons by by_evaluation.
  assert (Ptr.bindings st !! 4096 = Some {[1%positive; 2%positive]}) as Hrefs
    by by_evaluation.
  split_and!; [done..|].
  destruct (deallocate_releases_with_the_last_alias st 1%positive 2%positive 4096
              Hcons) as (st1 & Hrun1 & _ & Hp1 & _ & _ & _ & st2 & Hrun2 & _ & Hp2 & _);
    [done|done|].
  exists st1. split_and!; [done..|]. exists st2. by split.
Defined.

(** ** The pointer-based allocator: bounds *)

Lemma Ptr_throwIfNotInRange_outside (a : Ptr.Allocation) x sz :
  0 < Ptr.pointer a → 0 < Ptr.size a → Ptr.pointer a + Ptr.size a < SIZE_MOD →
  0 ≤ x → 0 ≤ sz → x + sz < SIZE_MOD →
  ¬ (Ptr.pointer a ≤ x ∧ x + sz ≤ Ptr.pointer a + Ptr.size a) →
  Ptr.throwIfNotInRange a x sz = Throw (AddressOutOfRangeException x sz).
Proof.
  intros Hp Hs Hend Hx Hsz Hfit Hout.
  unfold Ptr.throwIfNotInRange, Ptr.inRange_address_size.
  rewrite (wrap_small (x + sz)) by lia.
  rewrite !Ptr_inRange_address by lia.
  repeat case_bool_decide; cbn; try done; lia.
Qed.

(** X6. Bounds of the offset accesses of a bound allocation of [n]
    bytes at [p], for accesses that do not wrap around the address space
    and whose size a [Data] can have: [read(o, sz)] returns the [sz]
    bytes at [p + o] when [o + sz ≤ n] (an access of no bytes at the very
    end included) and throws [OffsetOutOfRangeException(o, sz)]
    otherwise; [write(o, data)] past the end throws
    [OffsetOutOfRangeException], with size 0 when the offset itself lies
    past the end and with the allocation's size otherwise. *)
Theorem offset_access_bounds (st : Ptr.Allocator) (h : handle) (o sz : Z)
    (data : Data) :
  Ptr.consistent st → Ptr.isBound st h = true →
  0 ≤ o → 0 ≤ sz ≤ Data_max_size →
  Ptr.pointer (Ptr.objects st h) + o + sz < SIZE_MOD →
  Z.of_nat (length data) = sz →
  let p := Ptr.pointer (Ptr.objects st h) in
  let n := Ptr.size (Ptr.objects st h) in
  (o + sz ≤ n →
   ∃ d, readBytes (Ptr.memory st) (p + o) (Z.to_nat sz) = Some d
        ∧ Ptr.read st h o sz = Ok d)
  ∧ (n < o + sz → Ptr.read st h o sz = Throw (OffsetOutOfRangeException o sz))
  ∧ (n < o → Ptr.write st h o data = Throw (OffsetOutOfRangeException o 0))
  ∧ (o ≤ n < o + sz →
     Ptr.write st h o data = Throw (OffsetOutOfRangeException o n)).
Proof.
  intros Hcons Hbound Ho Hsz Hfit Hlen p n.
  destruct (Ptr_bound_facts st h Hcons Hbound)
    as (key & n0 & refs & Hobj & Hn & Hrefs & Hh & Hk & Hn0 & Hend & Hacc).
  subst p n. rewrite Hobj in *. cbn [Ptr.pointer Ptr.size] in *.
  assert (Ptr.Allocator_isBound st h = true) as Hib
    by (by apply (Ptr_Allocator_isBound_intro st h key refs); rewrite ?Hobj).
  split_and!.
  - intros Hin.
    destruct (readBytes_Some (Ptr.memory st) (Z.to_nat sz) (key + o)) as [d Hd].
    { rewrite Z2Nat.id by lia. eapply accessible_sub; [done|lia|lia]. }
    exists d. split; [done|].
    unfold Ptr.read, Ptr.read_address, Ptr.derefAllocator, Ptr.throwIfNotBound,
      Ptr.Allocator_read.
    rewrite Hib, Hobj. cbn [Ptr.allocator Ptr.pointer mbind result_bind].
    rewrite wrap_small by lia.
    rewrite Ptr_throwIfNotInRange_inside by (cbn; lia).
    cbn [mbind result_bind]. by rewrite Hd.
  - intros Hout.
    unfold Ptr.read, Ptr.read_address, Ptr.derefAllocator, Ptr.throwIfNotBound,
      Ptr.Allocator_read.
    rewrite Hib, Hobj. cbn [Ptr.allocator Ptr.pointer mbind result_bind].
    rewrite wrap_small by lia.
    rewrite Ptr_throwIfNotInRange_outside by (cbn; lia). done.
  - intros Hout. unfold Ptr.write, Ptr.address, Ptr.throwIfInvalid.
    rewrite Hobj, (Ptr_isValid_bound st key n0) by done.
    cbn [Ptr.size mbind result_bind].
    by destruct (Z.ltb_spec n0 o); [|lia].
  - intros Hout. unfold Ptr.write, Ptr.address, Ptr.throwIfInvalid.
    rewrite Hobj, (Ptr_isValid_bound st key n0) by done.
    cbn [Ptr.size Ptr.pointer mbind result_bind].
    destruct (Z.ltb_spec n0 o); [lia|]. cbn [mbind result_bind].
    unfold Ptr.write_address, Ptr.derefAllocator, Ptr.throwIfNotBound,
      Ptr.Allocator_write.
    rewrite Hib, Hobj. cbn [Ptr.allocator mbind result_bind].
    rewrite wrap_small by lia. rewrite Hlen.
    rewrite Ptr_throwIfNotInRange_outside by (cbn; lia). done.
Qed.

Lemma offset_access_bounds_witness :
  Ptr.consistent Scenario.single ∧ Ptr.isBound Scenario.single 1%positive = true
  ∧ Ptr.read Scenario.single 1%positive 16 0 = Ok []
  ∧ Ptr.read Scenario.single 1%positive 12 5
    = Throw (OffsetOutOfRangeException 12 5).
Proof.
  assert (Ptr.consistent Scenario.single) as Hcons by by_evaluation.
  assert (Ptr.isBound Scenario.single 1%positive = true) as Hbound by by_evaluation.
  split_and!; [done..| |].
  - destruct (offset_access_bounds Scenario.single 1%positive 16 0 [] Hcons Hbound)
      as ((d & Hd & Hread) & _);
      [lia|by_evaluation|by_evaluation|done|by_evaluation|].
    rewrite Hread. by injection Hd as <-.
  - destruct (offset_access_bounds Scenario.single 1%positive 12 5
                (Scenario.bytesFrom 1 5) Hcons Hbound)
      as (_ & Hread & _); [lia|by_evaluation|by_evaluation|done|].
    apply Hread. by_evaluation.
Defined.

(** ** The pointer-based allocator: [clone] *)

Lemma Ptr_null_unpooled st :
  Ptr.consistent st → Ptr.isPooled st 0 = false.
Proof.
  intros [_ Hpool]. unfold Ptr.isPooled. apply bool_decide_eq_false. intros [n Hn].
  destruct (Hpool _ _ Hn) as (? & _). lia.
Qed.

(** A write through an allocation leaves what an allocation bound to
    another extent reads. *)
Lemma Ptr_write_keeps_other st h other data :
  Ptr.consistent st → Ptr.isBound st h = true → Ptr.isBound st other = true →
  Ptr.pointer (Ptr.objects st h) ≠ Ptr.pointer (Ptr.objects st other) →
  Z.of_nat (length data) = Ptr.size (Ptr.objects st h) →
  ∃ mm, Ptr.write st h 0 data = Ok (Ptr.setMemory mm st)
        ∧ Ptr.consistent (Ptr.setMemory mm st)
        ∧ Ptr.read (Ptr.setMemory mm st) h 0 (Ptr.size (Ptr.objects st h)) = Ok data
        ∧ Ptr.read (Ptr.setMemory mm st) other 0 (Ptr.size (Ptr.objects st other))
          = Ptr.read st other 0 (Ptr.size (Ptr.objects st other)).
Proof.
  intros Hcons Hh Ho Hne Hlen.
  destruct (Ptr_bound_facts st h Hcons Hh)
    as (key & n & refs & Hobj & Hn & Hrefs & Hin & Hk & Hn0 & Hend & Hacc).
  destruct (Ptr_bound_facts st other Hcons Ho)
    as (key' & n' & refs' & Hobj' & Hn' & Hrefs' & Hin' & Hk' & Hn0' & Hend' & Hacc').
  rewrite Hobj, Hobj' in *. cbn [Ptr.pointer Ptr.size] in *.
  destruct (Ptr_write_bound st h key n refs data) as (mm & Hw & Hrun); [done..|].
  exists mm. split_and!.
  - done.
  - apply Ptr_written_consistent; [done|].
    intros x. by apply (writeBytes_keeps_accessible _ _ _ _ _ Hw).
  - rewrite (Ptr_read_bound _ h key n refs) by (done || lia).
    cbn [Ptr.memory Ptr.setMemory].
    replace (Z.to_nat n) with (length data) by lia.
    by rewrite (writeBytes_read _ _ _ _ Hw).
  - rewrite (Ptr_read_bound _ other key' n' refs') by (done || lia).
    rewrite (Ptr_read_bound st other key' n' refs') by (done || lia).
    cbn [Ptr.memory Ptr.setMemory].
    rewrite (readBytes_ext mm (Ptr.memory st)); [done|].
    intros i Hi. apply (writeBytes_other _ _ _ _ _ Hw).
    destruct Hcons as [_ Hpool].
    destruct (Hpool _ _ Hn) as (_ & _ & _ & _ & Hdisj).
    pose proof (Hdisj _ _ Hn' Hne). lia.
Qed.

(** X7. [clone] makes a deep copy: an allocation object that has an
    allocator and no storage, cloning a bound allocation of [n] bytes,
    is bound to a fresh extent of [n] bytes holding the bytes of the
    original; the original is untouched, and a later write through
    either of the two is not seen through the other. *)
Theorem clone_copies_into_a_fresh_extent (st : Ptr.Allocator) (h other : handle)
    (fresh : Z) :
  Ptr.consistent st → Ptr.isBound st other = true →
  Ptr.objects st h = Ptr.mkAllocation true 0 0 →
  0 < fresh → fresh + Ptr.size (Ptr.objects st other) < SIZE_MOD →
  unused (Ptr.memory st) fresh (Ptr.size (Ptr.objects st other)) →
  let n := Ptr.size (Ptr.objects st other) in
  ∃ st' d,
    Ptr.clone st h other fresh = Ok st'
    ∧ Ptr.consistent st'
    ∧ Ptr.objects st' h = Ptr.mkAllocation true fresh n
    ∧ Ptr.objects st' other = Ptr.objects st other
    ∧ Ptr.isBound st' h = true ∧ Ptr.isBound st' other = true
    ∧ Ptr.read st other 0 n = Ok d
    ∧ Ptr.read st' h 0 n = Ok d
    ∧ Ptr.read st' other 0 n = Ok d
    ∧ (∀ data, Z.of_nat (length data) = n →
         (∃ st'', Ptr.write st' h 0 data = Ok st''
                  ∧ Ptr.read st'' h 0 n = Ok data
                  ∧ Ptr.read st'' other 0 n = Ok d)
         ∧ (∃ st'', Ptr.write st' other 0 data = Ok st''
                    ∧ Ptr.read st'' other 0 n = Ok data
                    ∧ Ptr.read st'' h 0 n = Ok d)).
Proof.
  intros Hcons Ho Hobjh Hfresh Hend' Hun n.
  destruct (Ptr_bound_facts st other Hcons Ho)
    as (key & n0 & refs & Hobjo & Hn & Hrefs & Hin & Hk & Hn0 & Hend & Hacc).
  subst n. rewrite Hobjo in *. cbn [Ptr.size] in *.
  assert (Ptr.isPooled st (Ptr.pointer (Ptr.objects st h)) = false) as Hnot.
  { rewrite Hobjh. by apply Ptr_null_unpooled. }
  assert (∀ k, h ∉ Ptr.bindingSet st k) as Hnew
    by (intros k; by apply Ptr_unpooled_unbound).
  assert (other ≠ h) as Hne.
  { intros ->. apply (Hnew key), Ptr_bindingSet_elem. by exists refs. }
  destruct (Ptr_allocate_fresh st h fresh n0)
    as (st1 & Hrun1 & Hp1 & Hm1 & Hb1 & Hobj1 & Hoth1 & _);
    [done|by rewrite Hobjh|done..|].
  assert (Ptr.consistent st1) as Hcons1
    by (by eapply (Ptr_pooled_bound_consistent st st1 h fresh n0)).
  destruct (Ptr_unused_unpooled st fresh n0 Hcons Hn0 Hun) as [Hunpooled _].
  assert (key ≠ fresh) as Hkf by (intros ->; by rewrite Hn in Hunpooled).
  assert (Ptr.objects st1 other = Ptr.mkAllocation true key n0) as Hobjo1
    by (by rewrite Hoth1, Hobjo).
  assert (Ptr.bindings st1 !! key = Some refs) as Hrefs1
    by (by rewrite Hb1, lookup_insert_ne).
  assert (Ptr.bindings st1 !! fresh = Some {[h]}) as Hrefsh
    by (by rewrite Hb1, lookup_insert_eq).
  destruct (Ptr_isBound_intro st1 other key refs Hcons1 Hrefs1 Hin) as (Ho1 & _).
  destruct (Ptr_isBound_intro st1 h fresh {[h]} Hcons1 Hrefsh) as (Hh1 & _);
    [set_solver|].
  destruct (readBytes_Some (Ptr.memory st) (Z.to_nat n0) key) as [d Hd].
  { by rewrite Z2Nat.id by lia. }
  assert (length d = Z.to_nat n0) as Hlen by by eapply readBytes_length.
  assert (Ptr.read st other 0 n0 = Ok d) as Hread.
  { rewrite (Ptr_read_bound st other key n0 refs) by (done || lia). by rewrite Hd. }
  assert (Ptr.read st1 other 0 n0 = Ok d) as Hread1.
  { rewrite (Ptr_read_bound st1 other key n0 refs) by (done || lia).
    rewrite Hm1, (readBytes_ext _ (Ptr.memory st)), Hd; [done|].
    intros i Hi. rewrite mapBytes_lookup, decide_False; [done|]. intros Hx.
    apply (accessible_unused_disjoint _ _ _ _ _ (key + i) Hacc Hun); lia. }
  destruct (Ptr_write_keeps_other st1 h other d Hcons1 Hh1 Ho1)
    as (mm & Hw & Hcons' & Hreadh & Hreado).
  { by rewrite Hobj1, Hobjo1. }
  { rewrite Hobj1. cbn. lia. }
  rewrite Hobj1 in Hreadh. rewrite Hobjo1 in Hreado.
  cbn [Ptr.size] in Hreadh, Hreado.
  set (st' := Ptr.setMemory mm st1) in *.
  assert (Ptr.isBound st' h = true) as Hh'.
  { by apply (Ptr_isBound_intro st' h fresh {[h]} Hcons' Hrefsh), elem_of_singleton. }
  assert (Ptr.isBound st' other = true) as Ho'
    by (by apply (Ptr_isBound_intro st' other key refs Hcons' Hrefs1)).
  exists st', d. split_and!.
  - unfold Ptr.clone, Ptr.throwIfInvalid.
    rewrite Hobjo, (Ptr_isValid_bound st key n0) by done.
    rewrite Hobjh. cbn [Ptr.size mbind result_bind].
    destruct (Z.eqb_spec 0 n0); [lia|].
    unfold Ptr.reallocate. rewrite Hobjh.
    assert (Ptr.isValid st (Ptr.mkAllocation true 0 0) = false) as -> by done.
    cbn [negb]. rewrite Hrun1. cbn [mbind result_bind].
    rewrite Hobjo1. cbn [Ptr.size]. rewrite Hread1. cbn [mbind result_bind].
    exact Hw.
  - done.
  - done.
  - done.
  - done.
  - done.
  - done.
  - done.
  - by rewrite Hreado.
  - intros data Hdata. split.
    + destruct (Ptr_write_keeps_other st' h other data Hcons' Hh' Ho')
        as (mm' & Hw' & _ & Hrh & Hro).
      { change (Ptr.objects st') with (Ptr.objects st1). by rewrite Hobj1, Hobjo1. }
      { change (Ptr.objects st') with (Ptr.objects st1). by rewrite Hobj1. }
      change (Ptr.objects st') with (Ptr.objects st1) in Hrh, Hro.
      rewrite Hobj1 in Hrh. rewrite Hobjo1 in Hro. cbn [Ptr.size] in Hrh, Hro.
      eexists. split_and!; [done..|]. by rewrite Hro, Hreado.
    + destruct (Ptr_write_keeps_other st' other h data Hcons' Ho' Hh')
        as (mm' & Hw' & _ & Hro & Hrh).
      { change (Ptr.objects st') with (Ptr.objects st1). by rewrite Hobj1, Hobjo1. }
      { change (Ptr.objects st') with (Ptr.objects st1). by rewrite Hobjo1. }
      change (Ptr.objects st') with (Ptr.objects st1) in Hrh, Hro.
      rewrite Hobj1 in Hrh. rewrite Hobjo1 in Hro. cbn [Ptr.size] in Hrh, Hro.
      eexists. split_and!; [done..|]. by rewrite Hrh.
Qed.

Lemma clone_copies_into_a_fresh_extent_witness :
  let st := Ptr.setObject 2%positive (Ptr.mkAllocation true 0 0) Scenario.written in
  Ptr.consistent st ∧ Ptr.isBound st 1%positive = true
  ∧ unused (Ptr.memory st) 12288 8
  ∧ ∃ st', Ptr.clone st 2%positive 1%positive 12288 = Ok st'
           ∧ Ptr.read st' 2%positive 0 8 = Ok (Scenario.bytesFrom 1 8)
           ∧ Ptr.pointer (Ptr.objects st' 2%positive) = 12288.
Proof.
  intros st.
  assert (Ptr.consistent st) as Hcons by by_evaluation.
  assert (Ptr.isBound st 1%positive = true) as Hbound by by_evaluation.
  assert (unused (Ptr.memory st) 12288 8) as Hun by (apply unused_seqZ; by_evaluation).
  split_and!; [done..|].
  destruct (clone_copies_into_a_fresh_extent st 2%positive 1%positive 12288
              Hcons Hbound)
    as (st' & d & Hrun & _ & Hobj & _ & _ & _ & Hbefore & Hafter & _);
    [by_evaluation|lia|by_evaluation|done|].
  exists st'. split_and!; [done| |by rewrite Hobj].
  change (Ptr.size (Ptr.objects st 1%positive)) with 8 in Hbefore, Hafter.
  rewrite Hafter, <- Hbefore. by_evaluation.
Defined.

(** ** The pointer-based allocator: destroying an allocation *)

(** An allocation that is not bound is in no binding set. *)
Lemma Ptr_not_bound_unreferenced st h :
  Ptr.consistent st → Ptr.isBound st h = false → ∀ k, h ∉ Ptr.bindingSet st k.
Proof.
  intros Hcons Hnot k (refs & Hrefs & Hh)%Ptr_bindingSet_elem.
  destruct (Ptr_isBound_intro st h k refs Hcons Hrefs Hh) as [Hyes _]. congruence.
Qed.

Lemma difference_singleton_notin (X : gset handle) h : h ∉ X → X = X ∖ {[h]}.
Proof. set_solver. Qed.

Lemma singleton_elem (X : gset handle) h : X = {[h]} → h ∈ X.
Proof. set_solver. Qed.

Lemma difference_empty_singleton (X : gset handle) h :
  h ∈ X → X ∖ {[h]} = ∅ → X = {[h]}.
Proof.
  intros Hh Hempty. apply set_eq. intros x. rewrite elem_of_singleton. split.
  - intros Hx. destruct (decide (x = h)) as [|Hne]; [done|].
    assert (x ∈ X ∖ {[h]}) as Hin by set_solver. rewrite Hempty in Hin. set_solver.
  - by intros ->.
Qed.

Lemma singleton_difference_empty (X : gset handle) h : X = {[h]} → X ∖ {[h]} = ∅.
Proof. set_solver. Qed.

(** X8. The destructor of an allocation never throws in a consistent
    allocator. It takes the allocation out of the binding set it is in
    and touches no other binding set; an extent is released exactly when
    the allocation was the only one bound to it; the tables stay
    consistent. *)
Theorem destructor_unbinds (st : Ptr.Allocator) (h : handle) :
  Ptr.consistent st →
  ∃ st', Ptr.destroy st h = Ok st'
         ∧ Ptr.consistent st'
         ∧ (∀ k, Ptr.bindingSet st' k = Ptr.bindingSet st k ∖ {[h]})
         ∧ (∀ k, Ptr.isPooled st' k
                 = Ptr.isPooled st k
                   && negb (bool_decide (Ptr.bindingSet st k = {[h]}))).
Proof.
  intros Hcons.
  assert ((∀ k, h ∉ Ptr.bindingSet st k) →
          Ptr.consistent st
          ∧ (∀ k, Ptr.bindingSet st k = Ptr.bindingSet st k ∖ {[h]})
          ∧ (∀ k, Ptr.isPooled st k
                  = Ptr.isPooled st k
                    && negb (bool_decide (Ptr.bindingSet st k = {[h]})))) as Hidle.
  { intros Hnew. split_and!; [done| |].
    - intros k. by apply difference_singleton_notin.
    - intros k. rewrite bool_decide_eq_false_2, andb_true_r; [done|].
      intros Heq. by apply (Hnew k), singleton_elem. }
  unfold Ptr.destroy.
  destruct (Ptr.allocator (Ptr.objects st h)) eqn:Halloc; cbn [negb].
  2:{ exists st. split; [done|]. by apply Hidle, Ptr_no_allocator_unbound. }
  destruct (Ptr.isBound st h) eqn:Hbound.
  2:{ exists st. split; [done|]. by apply Hidle, Ptr_not_bound_unreferenced. }
  destruct (Ptr_bound_facts st h Hcons Hbound)
    as (key & n & refs & Hobj & Hn & Hrefs & Hh & Hk & Hn0 & Hend & Hacc).
  destruct (Ptr_deallocate_bound st h Hcons Hbound) as (st' & _ & Hun).
  exists st'. split; [done|]. split; [by eapply Ptr_unbind_consistent|].
  pose proof (Ptr_unbind_Ok _ _ _ Hun) as (_ & _ & _ & _ & Htab).
  rewrite Hobj in Htab. cbn [Ptr.pointer] in Htab.
  assert (Ptr.bindingSet st key = refs) as Hset
    by (unfold Ptr.bindingSet; by rewrite Hrefs).
  rewrite Hset in Htab.
  assert (∀ k, k ≠ key → h ∉ Ptr.bindingSet st k) as Hother.
  { intros k Hne (refs' & Hrefs' & Hh')%Ptr_bindingSet_elem.
    destruct Hcons as [Hbind _].
    destruct (Hbind _ _ Hrefs' _ Hh') as (_ & Hptr & _).
    rewrite Hobj in Hptr. cbn in Hptr. congruence. }
  destruct (decide (refs ∖ {[h]} = ∅)) as [Hlast|Hmore];
    destruct Htab as (Hb' & Hp' & Hm'); split.
  - intros k. unfold Ptr.bindingSet at 1. rewrite Hb'.
    destruct (decide (k = key)) as [->|Hne].
    + rewrite lookup_delete_eq, Hset. cbn. by rewrite Hlast.
    + rewrite lookup_delete_ne by done. fold (Ptr.bindingSet st k).
      by apply difference_singleton_notin, Hother.
  - intros k. unfold Ptr.isPooled at 1 2. rewrite Hp'.
    destruct (decide (k = key)) as [->|Hne].
    + rewrite lookup_delete_eq, Hn, Hset.
      rewrite bool_decide_eq_false_2 by (by intros [? ?]).
      rewrite (bool_decide_eq_true_2 (refs = {[h]})); [done|].
      by apply difference_empty_singleton.
    + rewrite lookup_delete_ne by done.
      rewrite (bool_decide_eq_false_2 (Ptr.bindingSet st k = {[h]})), andb_true_r;
        [done|].
      intros Heq. by apply (Hother k Hne), singleton_elem.
  - intros k. unfold Ptr.bindingSet at 1. rewrite Hb'.
    destruct (decide (k = key)) as [->|Hne].
    + by rewrite lookup_insert_eq, Hset.
    + rewrite lookup_insert_ne by done. fold (Ptr.bindingSet st k).
      by apply difference_singleton_notin, Hother.
  - intros k. unfold Ptr.isPooled at 1 2. rewrite Hp'.
    rewrite (bool_decide_eq_false_2 (Ptr.bindingSet st k = {[h]})), andb_true_r;
      [done|].
    destruct (decide (k = key)) as [->|Hne].
    + rewrite Hset. intros Heq. by apply Hmore, singleton_difference_empty.
    + intros Heq. by apply (Hother k Hne), singleton_elem.
Qed.

Lemma destructor_unbinds_witness :
  Ptr.consistent Scenario.shared
  ∧ ∃ st', Ptr.destroy Scenario.shared 2%positive = Ok st'
           ∧ Ptr.bindingSet st' 4096 = {[1%positive]}
           ∧ Ptr.isPooled st' 4096 = true.
Proof.
  assert (Ptr.consistent Scenario.shared) as Hcons by by_evaluation.
  split; [done|].
  destruct (destructor_unbinds Scenario.shared 2%positive Hcons)
    as (st' & Hrun & _ & Hsets & Hpools).
  exists st'. split_and!; [done| |].
  - rewrite Hsets. by_evaluation.
  - rewrite Hpools. by_evaluation.
Defined.

(** ** The pointer-based allocator: allocations the allocator manages *)

Lemma ordered_singleton (h : handle) : ordered {[h]} = [h].
Proof. unfold ordered. by rewrite elements_singleton. Qed.

Lemma unmapBytes_mapBytes (m : Memory) a n :
  unused m a (Z.of_nat n) → unmapBytes (mapBytes m a n) a n = m.
Proof.
  intros Hun. apply map_eq. intros x. rewrite unmapBytes_lookup.
  destruct (decide (a ≤ x < a + Z.of_nat n)) as [Hin|Hout].
  - symmetry. replace x with (a + (x - a)) by lia. apply Hun. lia.
  - by rewrite mapBytes_lookup, decide_False.
Qed.

(** [Allocator::allocate(size)]; [h] is the allocation object it
    creates. *)
Lemma Ptr_Allocator_allocate_fresh st h fresh n :
  Ptr.consistent st → 0 < n → 0 < fresh → unused (Ptr.memory st) fresh n →
  (∀ k, h ∉ Ptr.bindingSet st k) →
  ∃ st', Ptr.Allocator_allocate st h fresh n = Ok (h, st')
         ∧ Ptr.memoryPool st' = <[fresh := n]> (Ptr.memoryPool st)
         ∧ Ptr.memory st' = mapBytes (Ptr.memory st) fresh (Z.to_nat n)
         ∧ Ptr.bindings st' = <[fresh := {[h]}]> (Ptr.bindings st)
         ∧ Ptr.objects st' h = Ptr.mkAllocation true fresh n
         ∧ (∀ h', h' ≠ h → Ptr.objects st' h' = Ptr.objects st h')
         ∧ Ptr.allocations st' = {[h]} ∪ Ptr.allocations st.
Proof.
  intros Hcons Hn Hfresh Hun Hnew.
  destruct (Ptr_unused_unpooled st fresh n Hcons Hn Hun) as [Hunpooled Hunbound].
  unfold Ptr.Allocator_allocate, Ptr.pool.
  destruct (Z.eqb_spec n 0); [lia|]. destruct (Z.eqb_spec fresh 0); [lia|].
  cbn [mbind result_bind].
  unfold Ptr.throwIfNotPooled, Ptr.isPooled. cbn [Ptr.memoryPool Ptr.setPool].
  rewrite lookup_insert_eq, bool_decide_eq_true_2 by done. cbn [mbind result_bind].
  unfold Ptr.bind, Ptr.throwIfNotPooled, Ptr.throwIfBound, Ptr.isPooled,
    Ptr.Allocator_isBound, Ptr.poolSize, Ptr.bindingSet.
  cbn [Ptr.memoryPool Ptr.bindings Ptr.objects Ptr.setObject Ptr.setPool
       Ptr.setBindings Ptr.setAllocations Ptr.pointer].
  rewrite fn_lookup_insert. cbn [Ptr.pointer].
  rewrite lookup_insert_eq, bool_decide_eq_true_2 by done. cbn [mbind result_bind].
  unfold Ptr.bindingSet in Hunbound.
  destruct (Ptr.bindings st !! fresh) as [refs|] eqn:Hrefs; cbn in Hunbound.
  - subst refs. rewrite bool_decide_eq_false_2 by set_solver.
    cbn [mbind result_bind default from_option id].
    eexists. split; [done|]. cbn. split_and!; try done.
    + f_equal. set_solver.
    + by rewrite fn_lookup_insert.
    + intros h' Hh'. by rewrite !fn_lookup_insert_ne.
  - cbn [mbind result_bind default from_option id].
    eexists. split; [done|]. cbn. split_and!; try done.
    + f_equal. set_solver.
    + by rewrite fn_lookup_insert.
    + intros h' Hh'. by rewrite !fn_lookup_insert_ne.
Qed.

(** X9. [Allocator::allocate(n)] creates an allocation that the
    allocator manages, bound alone to a fresh extent of [n] zero bytes,
    and keeps the tables consistent. [Allocator::deallocate] on that
    allocation does not come back: the one round of [unpool]'s loop
    unbinds the allocation, which erases it from the binding set, and the
    loop steps from the erased element. *)
Theorem Allocator_allocate_binds_a_managed_allocation (st : Ptr.Allocator)
    (h : handle) (fresh n : Z) :
  Ptr.consistent st → (∀ k, h ∉ Ptr.bindingSet st k) → h ∉ Ptr.allocations st →
  0 < n → 0 < fresh → fresh + n < SIZE_MOD → unused (Ptr.memory st) fresh n →
  ∃ st1, Ptr.Allocator_allocate st h fresh n = Ok (h, st1)
         ∧ Ptr.consistent st1
         ∧ Ptr.isAllocated st1 h = true
         ∧ Ptr.isBound st1 h = true
         ∧ Ptr.bindingSet st1 fresh = {[h]}
         ∧ Ptr.memoryPool st1 = <[fresh := n]> (Ptr.memoryPool st)
         ∧ Ptr.read st1 h 0 n = Ok (zeros n)
         ∧ Ptr.Allocator_deallocate st1 h = Throw ErasedIterator.
Proof.
  intros Hcons Hnew Hunmanaged Hn Hfresh Hend Hun.
  destruct (Ptr_unused_unpooled st fresh n Hcons Hn Hun) as [Hunpooled Hunbound].
  destruct (Ptr_Allocator_allocate_fresh st h fresh n)
    as (st1 & Hrun1 & Hp1 & Hm1 & Hb1 & Hobj1 & Hoth1 & Hal1); [done..|].
  assert (Ptr.consistent st1) as Hcons1
    by (by eapply (Ptr_pooled_bound_consistent st st1 h fresh n)).
  assert (Ptr.memoryPool st1 !! fresh = Some n) as Hn1
    by (by rewrite Hp1, lookup_insert_eq).
  assert (Ptr.bindings st1 !! fresh = Some {[h]}) as Hrefs1
    by (by rewrite Hb1, lookup_insert_eq).
  destruct (Ptr_isBound_intro st1 h fresh {[h]} Hcons1 Hrefs1) as (Hbound1 & _);
    [by apply elem_of_singleton|].
  exists st1. split_and!.
  - done.
  - done.
  - unfold Ptr.isAllocated. rewrite Hal1. apply bool_decide_eq_true. set_solver.
  - done.
  - unfold Ptr.bindingSet. by rewrite Hrefs1.
  - done.
  - rewrite (Ptr_read_bound st1 h fresh n {[h]}) by (done || lia || set_solver).
    by rewrite Hm1, readBytes_mapBytes.
  - destruct (Ptr_unpool_bound st1 fresh n {[h]}) as (_ & _ & _ & _ & _ & Hrun2);
      [done|set_solver| |done| |].
    { intros h' ->%elem_of_singleton. by rewrite Hobj1. }
    { destruct Hcons1 as [_ Hpool1].
      by destruct (Hpool1 _ _ Hn1) as (_ & _ & _ & ?%accessible_seqZ & _). }
    unfold Ptr.Allocator_deallocate, Ptr.throwIfNotAllocated, Ptr.isAllocated,
      Ptr.throwIfNotPooled.
    rewrite Hal1, bool_decide_eq_true_2 by set_solver.
    rewrite Hobj1. cbn [Ptr.pointer mbind result_bind].
    by rewrite (Ptr_isPooled_Some st1 fresh n Hn1).
Qed.

Lemma Allocator_allocate_binds_a_managed_allocation_witness :
  Ptr.consistent Scenario.single
  ∧ 2%positive ∉ Ptr.allocations Scenario.single
  ∧ unused (Ptr.memory Scenario.single) 8192 4
  ∧ ∃ st1, Ptr.Allocator_allocate Scenario.single 2%positive 8192 4
           = Ok (2%positive, st1)
           ∧ Ptr.isBound st1 2%positive = true
           ∧ Ptr.read st1 2%positive 0 4 = Ok (zeros 4).
Proof.
  assert (Ptr.consistent Scenario.single) as Hcons by by_evaluation.
  assert (2%positive ∉ Ptr.allocations Scenario.single) as Hunmanaged by by_evaluation.
  assert (unused (Ptr.memory Scenario.single) 8192 4) as Hun
    by (apply unused_seqZ; by_evaluation).
  split_and!; [done..|].
  destruct (Allocator_allocate_binds_a_managed_allocation Scenario.single 2%positive
              8192 4 Hcons)
    as (st1 & Hrun1 & _ & _ & Hbound & _ & _ & Hread & _);
    [by apply Ptr_no_allocator_unbound; [|by_evaluation]|done|lia|lia|by_evaluation|done|].
  exists st1. by split_and!.
Defined.

(** ** The pointer-based allocator: destroying the allocator *)

Lemma keys_NoDup {V} (m : gmap Z V) : NoDup (keys m).
Proof. unfold keys. rewrite merge_sort_Permutation. apply NoDup_elements. Qed.

Lemma keys_nil {V} (m : gmap Z V) : keys m = [] → m = ∅.
Proof.
  intros Hk. apply map_empty. intros k.
  destruct (m !! k) eqn:Hm; [|done].
  assert (k ∈ keys m) as Hin by (apply elem_of_keys; eauto).
  rewrite Hk in Hin. by apply elem_of_nil in Hin.
Qed.

Lemma begin_None (refs : gset handle) : begin refs = None → refs = ∅.
Proof.
  intros Hb. destruct (decide (refs = ∅)) as [|Hne]; [done|].
  destruct (begin_Some refs Hne) as (h & Hh & _). congruence.
Qed.

(** *** The rounds of the first loop *)

Lemma Ptr_rounds_entry st key refs :
  Ptr.bindings st !! key = Some refs →
  Ptr.rounds st
  = S (size refs
       + Ptr.rounds (Ptr.setBindings (delete key (Ptr.bindings st)) st)).
Proof.
  intros Hrefs. unfold Ptr.rounds. cbn [Ptr.bindings Ptr.setBindings].
  set (f := λ (_ : Z) (refs : gset handle) (acc : nat), S (size refs + acc)).
  change (map_fold f 0%nat (Ptr.bindings st)
          = f key refs (map_fold f 0%nat (delete key (Ptr.bindings st)))).
  apply map_fold_delete_L; [|done]. intros. unfold f. lia.
Qed.

Lemma Ptr_rounds_erased st st' key refs :
  Ptr.bindings st !! key = Some refs →
  Ptr.bindings st' = delete key (Ptr.bindings st) →
  (Ptr.rounds st' < Ptr.rounds st)%nat.
Proof.
  intros Hrefs Hb'. rewrite (Ptr_rounds_entry st key refs Hrefs).
  unfold Ptr.rounds at 1 2. cbn [Ptr.bindings Ptr.setBindings]. rewrite Hb'. lia.
Qed.

Lemma Ptr_rounds_shrunk st st' key refs refs' :
  Ptr.bindings st !! key = Some refs → refs' ⊂ refs →
  Ptr.bindings st' = <[key := refs']> (Ptr.bindings st) →
  (Ptr.rounds st' < Ptr.rounds st)%nat.
Proof.
  intros Hrefs Hsub Hb'.
  rewrite (Ptr_rounds_entry st key refs Hrefs).
  rewrite (Ptr_rounds_entry st' key refs') by (by rewrite Hb', lookup_insert_eq).
  unfold Ptr.rounds. cbn [Ptr.bindings Ptr.setBindings].
  rewrite Hb', delete_insert_eq.
  pose proof (subset_size _ _ Hsub). lia.
Qed.

(** *** Releasing extents *)

Lemma Ptr_released_same st st' :
  Ptr.memoryPool st' = Ptr.memoryPool st → Ptr.memory st' = Ptr.memory st →
  Ptr.released st st'.
Proof.
  intros Hp Hm. unfold Ptr.released. rewrite Hp, Hm. split_and!.
  - done.
  - intros k n Hk Hk'. congruence.
  - done.
  - intros x. by right.
Qed.

Lemma Ptr_released_one st st' key n :
  Ptr.memoryPool st !! key = Some n →
  Ptr.memoryPool st' = delete key (Ptr.memoryPool st) →
  Ptr.memory st' = unmapBytes (Ptr.memory st) key (Z.to_nat n) →
  Ptr.released st st'.
Proof.
  intros Hn Hp Hm. unfold Ptr.released. rewrite Hp, Hm. split_and!.
  - by intros k n' [_ ?]%lookup_delete_Some.
  - intros k n' Hk [->|Hk']%lookup_delete_None; [|congruence].
    assert (n' = n) as -> by congruence.
    intros i Hi. rewrite unmapBytes_lookup. apply decide_True. lia.
  - intros x Hout. rewrite unmapBytes_lookup. apply decide_False.
    pose proof (Hout _ _ Hn). lia.
  - intros x. rewrite unmapBytes_lookup. destruct (decide _); [by left|by right].
Qed.

Lemma Ptr_released_trans st1 st2 st3 :
  Ptr.released st1 st2 → Ptr.released st2 st3 → Ptr.released st1 st3.
Proof.
  intros (Hsub & Hfree & Hout & Hmono) (Hsub' & Hfree' & Hout' & Hmono').
  split_and!.
  - auto.
  - intros k n Hk Hk3 i Hi.
    destruct (Ptr.memoryPool st2 !! k) as [n2|] eqn:Hk2.
    + pose proof (Hsub _ _ Hk2). assert (n2 = n) as -> by congruence.
      by apply (Hfree' k n).
    + destruct (Hmono' (k + i)) as [?|Heq]; [done|].
      rewrite Heq. by apply (Hfree k n).
  - intros x Hx. rewrite Hout', Hout; [done..|].
    intros k n Hk. by apply Hx, Hsub.
  - intros x. destruct (Hmono' x) as [?|Heq]; [by left|].
    rewrite Heq. apply Hmono.
Qed.

(** *** Consistency *)

Lemma Ptr_release_consistent st key n :
  Ptr.consistent st → Ptr.memoryPool st !! key = Some n →
  Ptr.bindingSet st key = ∅ →
  Ptr.consistent
    (Ptr.setPool (delete key (Ptr.memoryPool st))
       (unmapBytes (Ptr.memory st) key (Z.to_nat n)) st).
Proof.
  intros [Hbind Hpool] Hn Hset. split.
  - intros k refs Hrefs h Hh. cbn [Ptr.bindings Ptr.setPool] in Hrefs.
    assert (k ≠ key) as Hk.
    { intros ->. unfold Ptr.bindingSet in Hset. rewrite Hrefs in Hset.
      cbn in Hset. rewrite Hset in Hh. by apply not_elem_of_empty in Hh. }
    destruct (Hbind _ _ Hrefs _ Hh) as (? & ? & ? & ?).
    unfold Ptr.poolSize. cbn [Ptr.objects Ptr.memoryPool Ptr.setPool].
    by rewrite lookup_delete_ne.
  - intros k n'. cbn [Ptr.memoryPool Ptr.setPool].
    intros [Hk Hk']%lookup_delete_Some.
    destruct (Hpool _ _ Hk') as (? & ? & ? & Hacck & Hdisjk).
    split_and!; [done..| |].
    + apply Forall_forall. intros i Hi. cbn [Ptr.memory Ptr.setPool].
      rewrite unmapBytes_lookup.
      pose proof (Hdisjk _ _ Hn (not_eq_sym Hk)) as Hd.
      destruct (Hpool _ _ Hn) as (_ & ? & _).
      pose proof Hi as Hi'%elem_of_seqZ.
      rewrite decide_False by lia. by eapply Forall_forall in Hacck.
    + intros k2 n2. cbn [Ptr.memoryPool Ptr.setPool].
      intros [Hk2 Hk2']%lookup_delete_Some Hne2.
      by apply (Hdisjk k2 n2).
Qed.

Lemma Ptr_erase_entry_consistent st key :
  Ptr.consistent st →
  Ptr.consistent (Ptr.setBindings (delete key (Ptr.bindings st)) st).
Proof.
  intros [Hbind Hpool]. split.
  - intros k refs. cbn [Ptr.bindings Ptr.setBindings].
    intros [_ Hrefs]%lookup_delete_Some. exact (Hbind _ _ Hrefs).
  - exact Hpool.
Qed.

Lemma Ptr_pooled_accessible st key n :
  Ptr.consistent st → Ptr.memoryPool st !! key = Some n →
  accessible (Ptr.memory st) key n.
Proof.
  intros [_ Hpool] Hn. destruct (Hpool _ _ Hn) as (_ & _ & _ & Hacc & _).
  by apply accessible_seqZ.
Qed.

(** *** The first loop *)

(** One round unbinds an allocation or erases an entry of [bindings]. *)
Lemma Ptr_unbindFirst_round st key :
  Ptr.consistent st → is_Some (Ptr.bindings st !! key) →
  (∀ h, h ∈ Ptr.allocations st → ∃ k, h ∈ Ptr.bindingSet st k) →
  (∀ k, is_Some (Ptr.memoryPool st !! k) → is_Some (Ptr.bindings st !! k)) →
  ∃ st', Ptr.unbindFirst st key = Ok st'
         ∧ Ptr.consistent st'
         ∧ (Ptr.rounds st' < Ptr.rounds st)%nat
         ∧ Ptr.released st st'
         ∧ (∀ h, h ∈ Ptr.allocations st' → ∃ k, h ∈ Ptr.bindingSet st' k)
         ∧ (∀ k, is_Some (Ptr.memoryPool st' !! k) → is_Some (Ptr.bindings st' !! k)).
Proof.
  intros Hcons [refs Hrefs] Hman Hent.
  assert (Ptr.bindingSet st key = refs) as Hset.
  { unfold Ptr.bindingSet. by rewrite Hrefs. }
  unfold Ptr.unbindFirst. rewrite Hset.
  destruct (begin refs) as [h|] eqn:Hbegin.
  - assert (h ∈ refs) as Hh.
    { apply ordered_elem. unfold begin in Hbegin.
      destruct (ordered refs) as [|h' l]; [done|].
      injection Hbegin as ->. by left. }
    destruct (Ptr_isBound_intro st h key refs Hcons Hrefs Hh)
      as (Hbound & n & Hobj & Hn).
    destruct (Ptr_deallocate_bound st h Hcons Hbound) as (st' & _ & Hun).
    exists st'. split; [done|].
    pose proof (Ptr_unbind_consistent st h st' Hcons Hun) as Hcons'.
    apply Ptr_unbind_Ok in Hun as (_ & _ & _ & Hall & Htab).
    rewrite Hobj in Htab. cbn [Ptr.pointer] in Htab. rewrite Hset in Htab.
    assert (Ptr.poolSize st key = n) as Hsize.
    { unfold Ptr.poolSize. by rewrite Hn. }
    rewrite Hsize in Htab.
    destruct (decide (refs ∖ {[h]} = ∅)) as [Hlast|Hmore];
      destruct Htab as (Hb' & Hp' & Hm').
    + split_and!; [done| | | |].
      * by apply (Ptr_rounds_erased st st' key refs).
      * by apply (Ptr_released_one st st' key n).
      * intros h'. rewrite Hall. intros [Hin Hne]%elem_of_difference.
        destruct (Hman _ Hin) as [k Hk]. exists k.
        destruct (decide (k = key)) as [->|Hkey].
        { rewrite Hset in Hk. exfalso.
          apply (not_elem_of_empty (C:=gset handle) h'). rewrite <- Hlast.
          by apply elem_of_difference. }
        unfold Ptr.bindingSet in *. by rewrite Hb', lookup_delete_ne.
      * intros k. rewrite Hp', Hb'. intros [Hk Hpooled]%lookup_delete_is_Some.
        rewrite lookup_delete_ne by done. by apply Hent.
    + split_and!; [done| | | |].
      * apply (Ptr_rounds_shrunk st st' key refs (refs ∖ {[h]})); [done| |done].
        split.
        { intros x [? _]%elem_of_difference. done. }
        intros Hsub. pose proof (Hsub _ Hh) as [_ Hno]%elem_of_difference.
        apply Hno. by apply elem_of_singleton.
      * by apply Ptr_released_same.
      * intros h'. rewrite Hall. intros [Hin Hne]%elem_of_difference.
        destruct (Hman _ Hin) as [k Hk]. exists k.
        unfold Ptr.bindingSet in *. rewrite Hb'.
        destruct (decide (k = key)) as [->|Hkey].
        { rewrite lookup_insert_eq. cbn. rewrite Hrefs in Hk. cbn in Hk.
          by apply elem_of_difference. }
        by rewrite lookup_insert_ne.
      * intros k. rewrite Hp', Hb'. intros Hpooled.
        destruct (decide (k = key)) as [->|Hkey].
        { by rewrite lookup_insert_eq. }
        rewrite lookup_insert_ne by done. by apply Hent.
  - apply begin_None in Hbegin as ->.
    assert (∀ st1, Ptr.bindings st1 = Ptr.bindings st →
              Ptr.allocations st1 = Ptr.allocations st →
              ∀ h, h ∈ Ptr.allocations
                         (Ptr.setBindings (delete key (Ptr.bindings st1)) st1) →
                   ∃ k, h ∈ Ptr.bindingSet
                              (Ptr.setBindings (delete key (Ptr.bindings st1)) st1) k)
      as Hkeep.
    { intros st1 Hb1 Ha1 h. cbn [Ptr.allocations Ptr.setBindings]. rewrite Ha1.
      intros Hin. destruct (Hman _ Hin) as [k Hk]. exists k.
      unfold Ptr.bindingSet in *. cbn [Ptr.bindings Ptr.setBindings].
      rewrite Hb1. destruct (decide (k = key)) as [->|Hkey].
      { rewrite Hrefs in Hk. cbn in Hk. by apply not_elem_of_empty in Hk. }
      by rewrite lookup_delete_ne. }
    destruct (Ptr.isPooled st key) eqn:Hpooled.
    + unfold Ptr.isPooled in Hpooled.
      apply bool_decide_eq_true in Hpooled as [n Hn].
      rewrite (Ptr_unpool_unreferenced st key n Hn)
        by (by left || by apply Ptr_pooled_accessible).
      cbn [mbind result_bind]. eexists. split; [done|].
      split_and!.
      * by apply Ptr_erase_entry_consistent, Ptr_release_consistent.
      * by apply (Ptr_rounds_erased st _ key ∅).
      * by apply (Ptr_released_one st _ key n).
      * by apply Hkeep.
      * intros k. cbn [Ptr.memoryPool Ptr.bindings Ptr.setBindings Ptr.setPool].
        intros [Hk Hpooled]%lookup_delete_is_Some.
        rewrite lookup_delete_ne by done. by apply Hent.
    + cbn [mbind result_bind]. eexists. split; [done|]. split_and!.
      * by apply Ptr_erase_entry_consistent.
      * by apply (Ptr_rounds_erased st _ key ∅).
      * by apply Ptr_released_same.
      * by apply Hkeep.
      * intros k. cbn [Ptr.memoryPool Ptr.bindings Ptr.setBindings].
        intros Hk. assert (k ≠ key) as Hne.
        { intros ->. unfold Ptr.isPooled in Hpooled.
          by apply bool_decide_eq_false in Hpooled. }
        rewrite lookup_delete_ne by done. by apply Hent.
Qed.

(** The first loop ends within [rounds] rounds, with [bindings] empty
    and every managed allocation deleted; when every pooled extent had an
    entry in [bindings], nothing is left pooled. *)
Lemma Ptr_unbindEverything_runs fuel : ∀ st,
  (Ptr.rounds st ≤ fuel)%nat → Ptr.consistent st →
  (∀ h, h ∈ Ptr.allocations st → ∃ k, h ∈ Ptr.bindingSet st k) →
  (∀ k, is_Some (Ptr.memoryPool st !! k) → is_Some (Ptr.bindings st !! k)) →
  ∃ st', Ptr.unbindEverything fuel st = Some (Ok st')
         ∧ Ptr.consistent st'
         ∧ Ptr.bindings st' = ∅
         ∧ Ptr.allocations st' = ∅
         ∧ Ptr.memoryPool st' = ∅
         ∧ Ptr.released st st'.
Proof.
  assert (∀ st, head (keys (Ptr.bindings st)) = None → Ptr.consistent st →
            (∀ h, h ∈ Ptr.allocations st → ∃ k, h ∈ Ptr.bindingSet st k) →
            (∀ k, is_Some (Ptr.memoryPool st !! k) →
                  is_Some (Ptr.bindings st !! k)) →
            Ptr.consistent st ∧ Ptr.bindings st = ∅ ∧ Ptr.allocations st = ∅
            ∧ Ptr.memoryPool st = ∅ ∧ Ptr.released st st) as Hdone.
  { intros st Hhead%head_None%keys_nil Hcons Hman Hent. split_and!; [done..| | |].
    - apply leibniz_equiv, elem_of_equiv_empty. intros h Hin.
      destruct (Hman _ Hin) as [k Hk]. unfold Ptr.bindingSet in Hk.
      rewrite Hhead, lookup_empty in Hk. by apply not_elem_of_empty in Hk.
    - apply map_empty. intros k.
      destruct (Ptr.memoryPool st !! k) as [n|] eqn:Hk; [|done].
      destruct (Hent k) as [refs Hrefs]; [by rewrite Hk|].
      by rewrite Hhead, lookup_empty in Hrefs.
    - by apply Ptr_released_same. }
  assert (∀ st key, head (keys (Ptr.bindings st)) = Some key →
            is_Some (Ptr.bindings st !! key)) as Hfirst.
  { intros st key Hhead. apply elem_of_keys.
    destruct (keys (Ptr.bindings st)) as [|k l]; [done|].
    injection Hhead as ->. by left. }
  induction fuel as [|fuel IH]; intros st Hfuel Hcons Hman Hent.
  - cbn. destruct (head (keys (Ptr.bindings st))) as [key|] eqn:Hhead.
    + destruct (Hfirst _ _ Hhead) as [refs Hrefs].
      rewrite (Ptr_rounds_entry st key refs Hrefs) in Hfuel. lia.
    + exists st. split; [done|]. by apply Hdone.
  - cbn. destruct (head (keys (Ptr.bindings st))) as [key|] eqn:Hhead.
    + destruct (Ptr_unbindFirst_round st key Hcons (Hfirst _ _ Hhead) Hman Hent)
        as (st1 & Hround & Hcons1 & Hless & Hrel1 & Hman1 & Hent1).
      rewrite Hround.
      destruct (IH st1) as (st' & Hrun & Hcons' & Hb' & Ha' & Hp' & Hrel');
        [lia|done..|].
      exists st'. split_and!; [done..|].
      by apply (Ptr_released_trans st st1 st').
    + exists st. split; [done|]. by apply Hdone.
Qed.

(** X14. Destroying an allocator whose tables are consistent, whose
    managed allocations are all bound and whose pooled extents all have
    an entry in [bindings] never throws, and the first loop needs no more
    rounds than there are entries and bindings. That loop leaves nothing
    for the two loops after it: afterwards nothing is pooled, nothing is
    bound and no allocation is managed; the bytes of every extent that
    was pooled are given back, and no other byte of the memory has
    changed. *)
Theorem Allocator_destroy_releases_everything (st : Ptr.Allocator) (fuel : nat) :
  Ptr.consistent st →
  set_Forall (λ h, Ptr.Allocator_isBound st h = true) (Ptr.allocations st) →
  (∀ k, is_Some (Ptr.memoryPool st !! k) → is_Some (Ptr.bindings st !! k)) →
  (Ptr.rounds st ≤ fuel)%nat →
  ∃ st', Ptr.unbindEverything fuel st = Some (Ok st')
         ∧ Ptr.Allocator_destroy fuel st = Some (Ok st')
         ∧ Ptr.memoryPool st' = ∅
         ∧ Ptr.bindings st' = ∅
         ∧ Ptr.allocations st' = ∅
         ∧ (∀ k n, Ptr.memoryPool st !! k = Some n → unused (Ptr.memory st') k n)
         ∧ (∀ x, (∀ k n, Ptr.memoryPool st !! k = Some n → ¬ k ≤ x < k + n) →
              Ptr.memory st' !! x = Ptr.memory st !! x).
Proof.
  intros Hcons Hman Hent Hfuel.
  destruct (Ptr_unbindEverything_runs fuel st Hfuel Hcons)
    as (st' & Hrun & Hcons' & Hb' & Ha' & Hp' & Hrel); [|done|].
  { intros h Hh.
    destruct (Ptr_Allocator_isBound_true st h (Hman _ Hh)) as (refs & Hrefs & Hin).
    exists (Ptr.pointer (Ptr.objects st h)). apply Ptr_bindingSet_elem. eauto. }
  exists st'. split_and!.
  - done.
  - unfold Ptr.Allocator_destroy. rewrite Hrun. cbn. rewrite Ha', ordered_empty.
    cbn. by rewrite Hp'.
  - done.
  - done.
  - done.
  - intros k n Hk. destruct Hrel as (_ & Hfree & _).
    apply (Hfree k n Hk). by rewrite Hp', lookup_empty.
  - intros x Hx. destruct Hrel as (_ & _ & Hout & _). by apply Hout.
Qed.

Lemma Allocator_destroy_releases_everything_witness :
  Ptr.consistent Scenario.shared
  ∧ (Ptr.rounds Scenario.shared ≤ 3)%nat
  ∧ ∃ st', Ptr.Allocator_destroy 3 Scenario.shared = Some (Ok st')
           ∧ Ptr.memoryPool st' = ∅
           ∧ unused (Ptr.memory st') 4096 8.
Proof.
  assert (Ptr.consistent Scenario.shared) as Hcons by by_evaluation.
  assert (Ptr.rounds Scenario.shared ≤ 3)%nat as Hfuel by by_evaluation.
  split_and!; [done..|].
  destruct (Allocator_destroy_releases_everything Scenario.shared 3 Hcons)
    as (st' & _ & Hrun & Hpool & _ & _ & Hfree & _); [by_evaluation| |done|].
  { intros k [n Hk]. destruct (decide (k = 4096)) as [->|Hne]; [by_evaluation|].
    exfalso. revert Hk. change (Ptr.memoryPool Scenario.shared) with
      (<[4096 := 8]> (∅ : gmap Z Z)). by rewrite lookup_insert_ne, lookup_empty. }
  exists st'. split_and!; [done..|].
  apply Hfree. by_evaluation.
Defined.

(** ** The local backing store: pooling and unpooling *)

Lemma writeBytes_zeros_mapBytes (m : Memory) a n :
  writeBytes (mapBytes m a n) a (replicate n Byte.x00) = Some (mapBytes m a n).
Proof.
  destruct (writeBytes_Some (replicate n Byte.x00) (mapBytes m a n) a) as [mm Hmm].
  { intros i Hi. rewrite length_replicate in Hi.
    rewrite mapBytes_lookup, decide_True by lia. eauto. }
  rewrite Hmm. f_equal. apply map_eq. intros x.
  rewrite (writeBytes_lookup _ _ _ _ _ Hmm), length_replicate, mapBytes_lookup.
  destruct (decide _) as [Hx|]; [|done].
  apply lookup_replicate_2. lia.
Qed.

(** X17. [poolAddress(n)] records the fresh extent with its size and
    touches no byte outside it; what [writeAddress] stores in the extent
    is what [readAddress] returns; [unpoolAddress] puts the pool table
    and the memory back as they were before the extent was pooled, and a
    second [unpoolAddress] of the address throws
    [UnpooledAddressException]. *)
Theorem poolAddress_then_unpoolAddress (st : Addr.Allocator) (fresh n : Z)
    (data : Data) :
  0 < n → unused (Addr.memory st) fresh n →
  Addr.pooledMemory st !! fresh = None → Z.of_nat (length data) = n →
  ∃ st1, Addr.poolAddress st fresh n = Ok (fresh, st1)
         ∧ Addr.pooledMemory st1 = <[fresh := n]> (Addr.pooledMemory st)
         ∧ (∀ x, ¬ fresh ≤ x < fresh + n →
              Addr.memory st1 !! x = Addr.memory st !! x)
         ∧ (∃ st2, Addr.writeAddress st1 fresh data = Ok st2
                   ∧ Addr.readAddress st2 fresh n = Ok data)
         ∧ ∃ st3, Addr.unpoolAddress st1 fresh = Ok st3
                  ∧ Addr.pooledMemory st3 = Addr.pooledMemory st
                  ∧ Addr.memory st3 = Addr.memory st
                  ∧ Addr.unpoolAddress st3 fresh
                    = Throw (UnpooledAddressException fresh).
Proof.
  intros Hn Hunused Hfresh Hlen.
  set (mm := mapBytes (Addr.memory st) fresh (Z.to_nat n)).
  set (st1 := Addr.setPool (<[fresh := n]> (Addr.pooledMemory st)) mm st).
  assert (Addr.poolAddress st fresh n = Ok (fresh, st1)) as Hpool.
  { unfold Addr.poolAddress, Addr.zeroAddress, Addr.writeAddress, zeros.
    cbn [Addr.memory Addr.setPool]. fold mm.
    unfold mm. rewrite writeBytes_zeros_mapBytes. cbn [mbind result_bind].
    by destruct st. }
  assert (accessible mm fresh n) as Hacc.
  { intros i Hi. unfold mm. rewrite mapBytes_lookup, decide_True by lia. eauto. }
  exists st1. split_and!.
  - done.
  - done.
  - intros x Hx. cbn [st1 Addr.memory Addr.setPool]. unfold mm.
    rewrite mapBytes_lookup, decide_False by lia. done.
  - destruct (writeBytes_Some data mm fresh) as [mm2 Hmm2]; [by rewrite Hlen|].
    exists (Addr.setMemory mm2 st1). split.
    + unfold Addr.writeAddress. cbn [st1 Addr.memory Addr.setPool].
      by rewrite Hmm2.
    + unfold Addr.readAddress. cbn [Addr.memory Addr.setMemory].
      rewrite <- Hlen, Nat2Z.id. by rewrite (writeBytes_read _ _ _ _ Hmm2).
  - assert (Addr.isPooled st1 fresh = true) as Hpooled.
    { unfold Addr.isPooled. apply bool_decide_eq_true.
      cbn [st1 Addr.pooledMemory Addr.setPool]. rewrite lookup_insert_eq. eauto. }
    assert (Addr.poolSize st1 fresh = n) as Hsize.
    { unfold Addr.poolSize. cbn [st1 Addr.pooledMemory Addr.setPool].
      by rewrite lookup_insert_eq. }
    unfold Addr.unpoolAddress at 1, Addr.throwIfNotPooled. rewrite Hpooled, Hsize.
    cbn [mbind result_bind].
    unfold Addr.zeroAddress, Addr.writeAddress, zeros.
    cbn [st1 Addr.memory Addr.setPool]. unfold mm.
    rewrite writeBytes_zeros_mapBytes. cbn [mbind result_bind].
    eexists. split; [done|].
    cbn [Addr.pooledMemory Addr.memory Addr.setPool Addr.setMemory].
    split_and!.
    + unfold st1. cbn [Addr.pooledMemory Addr.setPool].
      rewrite delete_insert_eq. by apply delete_id.
    + apply unmapBytes_mapBytes. by rewrite Z2Nat.id by lia.
    + unfold Addr.unpoolAddress, Addr.throwIfNotPooled, Addr.isPooled.
      cbn [Addr.pooledMemory Addr.memory Addr.setPool Addr.setMemory].
      unfold st1. cbn [Addr.pooledMemory Addr.setPool].
      rewrite delete_insert_eq, delete_id by done.
      rewrite bool_decide_eq_false_2; [done|].
      rewrite Hfresh. by intros [? ?].
Qed.

Lemma poolAddress_then_unpoolAddress_witness :
  ∃ st1, Addr.poolAddress Scenario.AB 4096 4 = Ok (4096, st1)
         ∧ (∃ st2, Addr.writeAddress st1 4096 (Scenario.bytesFrom 7 4) = Ok st2
                   ∧ Addr.readAddress st2 4096 4 = Ok (Scenario.bytesFrom 7 4))
         ∧ ∃ st3, Addr.unpoolAddress st1 4096 = Ok st3
                  ∧ Addr.memory st3 = Addr.memory Scenario.AB.
Proof.
  destruct (poolAddress_then_unpoolAddress Scenario.AB 4096 4 (Scenario.bytesFrom 7 4))
    as (st1 & Hpool & _ & _ & Hrw & st3 & Hunpool & _ & Hmem & _);
    [lia|apply unused_seqZ; by_evaluation|by_evaluation|by_evaluation|].
  exists st1. split_and!; [done..|]. by exists st3.
Defined.

(** ** The address-based allocator as written: the circle of calls *)

(** The exception [address()] ends with. *)
Lemma Calls_address_throws depth st h :
  Calls.address depth st h
  = Throw match depth with
          | O => StackOverflow
          | S _ =>
              if negb (Addr.allocator (Addr.objects st h)) then NoAllocatorException
              else if negb (Addr.isAssociated st h) then DeadAllocationException
              else StackOverflow
          end.
Proof.
  induction depth as [|depth IH]; [done|].
  cbn [Calls.address].
  unfold Frame.address, Frame.throwIfInvalid, Frame.isValid, Frame.isBound,
    Frame.isNull, Frame.Allocation_size, Addr.throwIfNoAllocator, Frame.querySize,
    Frame.throwIfNotBound, Frame.Allocator_isBound.
  destruct (Addr.allocator (Addr.objects st h)); [|done].
  destruct (Addr.isAssociated st h); [|done].
  cbn [negb mbind result_bind]. rewrite IH. by destruct depth.
Qed.

Section associated.

Context (st : Addr.Allocator) (h : handle).
Hypothesis Hallocator : Addr.allocator (Addr.objects st h) = true.
Hypothesis Hassociated : Addr.isAssociated st h = true.

Lemma Calls_address_overflows depth :
  Calls.address depth st h = Throw StackOverflow.
Proof.
  rewrite Calls_address_throws, Hallocator, Hassociated. by destruct depth.
Qed.

Lemma Calls_Allocator_isBound_overflows depth :
  Calls.Allocator_isBound depth st h = Throw StackOverflow.
Proof.
  unfold Calls.Allocator_isBound, Frame.Allocator_isBound.
  by rewrite Calls_address_overflows.
Qed.

Lemma Calls_Allocation_size_overflows depth :
  Calls.Allocation_size depth st h = Throw StackOverflow.
Proof.
  pose proof (Calls_Allocator_isBound_overflows depth) as Hb.
  unfold Calls.Allocator_isBound in Hb.
  unfold Calls.Allocation_size, Frame.Allocation_size, Addr.throwIfNoAllocator,
    Frame.querySize, Frame.throwIfNotBound.
  by rewrite Hallocator, Hb.
Qed.

Lemma Calls_isNull_overflows depth :
  Calls.isNull depth st h = Throw StackOverflow.
Proof.
  pose proof (Calls_Allocation_size_overflows depth) as Hs.
  unfold Calls.Allocation_size in Hs.
  unfold Calls.isNull, Frame.isNull. by rewrite Hallocator, Hassociated, Hs.
Qed.

Lemma Calls_isBound_overflows depth :
  Calls.isBound depth st h = Throw StackOverflow.
Proof.
  pose proof (Calls_isNull_overflows depth) as Hn. unfold Calls.isNull in Hn.
  unfold Calls.isBound, Frame.isBound. by rewrite Hn.
Qed.

Lemma Calls_isValid_overflows depth :
  Calls.isValid depth st h = Throw StackOverflow.
Proof.
  pose proof (Calls_isBound_overflows depth) as Hb. unfold Calls.isBound in Hb.
  unfold Calls.isValid, Frame.isValid. by rewrite Hb.
Qed.

Lemma Calls_throwIfInvalid_overflows depth :
  Calls.throwIfInvalid depth st h = Throw StackOverflow.
Proof.
  pose proof (Calls_isValid_overflows depth) as Hv. unfold Calls.isValid in Hv.
  unfold Calls.throwIfInvalid, Frame.throwIfInvalid. by rewrite Hv.
Qed.

Lemma Calls_start_overflows depth :
  Calls.start depth st h = Throw StackOverflow.
Proof. apply Calls_address_overflows. Qed.

Lemma Calls_end_overflows depth :
  Calls.end_ depth st h = Throw StackOverflow.
Proof.
  pose proof (Calls_Allocation_size_overflows depth) as Hs.
  unfold Calls.Allocation_size in Hs.
  unfold Calls.end_, Frame.end_. by rewrite Hs.
Qed.

Lemma Calls_inRange_address_overflows depth a :
  Calls.inRange_address depth st h a = Throw StackOverflow.
Proof.
  unfold Calls.inRange_address, Frame.inRange_address, Frame.start.
  by rewrite Calls_address_overflows.
Qed.

Lemma Calls_inRange_address_size_overflows depth a sz :
  sz ≠ 0 → Calls.inRange_address_size depth st h a sz = Throw StackOverflow.
Proof.
  intros Hsz. pose proof (Calls_inRange_address_overflows depth a) as Hr.
  unfold Calls.inRange_address in Hr.
  unfold Calls.inRange_address_size, Frame.inRange_address_size.
  destruct (Z.eqb_spec sz 0); [done|]. by rewrite Hr.
Qed.

Lemma Calls_inRange_offset_overflows depth o :
  Calls.inRange_offset depth st h o = Throw StackOverflow.
Proof.
  pose proof (Calls_isNull_overflows depth) as Hn. unfold Calls.isNull in Hn.
  unfold Calls.inRange_offset, Frame.inRange_offset. by rewrite Hn.
Qed.

Lemma Calls_inRange_offset_size_overflows depth o sz :
  sz ≠ 0 → Calls.inRange_offset_size depth st h o sz = Throw StackOverflow.
Proof.
  intros Hsz. pose proof (Calls_inRange_offset_overflows depth o) as Hr.
  unfold Calls.inRange_offset in Hr.
  unfold Calls.inRange_offset_size, Frame.inRange_offset_size.
  destruct (Z.eqb_spec sz 0); [done|]. by rewrite Hr.
Qed.

End associated.

Section unassociated.

Context (st : Addr.Allocator) (h : handle).
Hypothesis Hunassociated : Addr.isAssociated st h = false.

Lemma Calls_isNull_unassociated depth : Calls.isNull depth st h = Ok true.
Proof.
  unfold Calls.isNull, Frame.isNull. rewrite Hunassociated.
  by destruct (Addr.allocator (Addr.objects st h)).
Qed.

Lemma Calls_isBound_unassociated depth : Calls.isBound depth st h = Ok false.
Proof.
  pose proof (Calls_isNull_unassociated depth) as Hn. unfold Calls.isNull in Hn.
  unfold Calls.isBound, Frame.isBound. by rewrite Hn.
Qed.

Lemma Calls_isValid_unassociated depth : Calls.isValid depth st h = Ok false.
Proof.
  pose proof (Calls_isBound_unassociated depth) as Hb. unfold Calls.isBound in Hb.
  unfold Calls.isValid, Frame.isValid. by rewrite Hb.
Qed.

Lemma Calls_throwIfInvalid_unassociated depth :
  Calls.throwIfInvalid depth st h
  = Throw (if Addr.allocator (Addr.objects st h) then DeadAllocationException
           else NoAllocatorException).
Proof.
  pose proof (Calls_isValid_unassociated depth) as Hv. unfold Calls.isValid in Hv.
  unfold Calls.throwIfInvalid, Frame.throwIfInvalid. rewrite Hv, Hunassociated.
  by destruct (Addr.allocator (Addr.objects st h)).
Qed.

Lemma Calls_inRange_offset_unassociated depth o :
  Calls.inRange_offset depth st h o = Ok false.
Proof.
  pose proof (Calls_isNull_unassociated depth) as Hn. unfold Calls.isNull in Hn.
  unfold Calls.inRange_offset, Frame.inRange_offset. by rewrite Hn.
Qed.

End unassociated.

(** No allocation is ever valid, and no check of validity returns. *)
Lemma Calls_isNull_cases depth st h :
  Calls.isNull depth st h = Ok true ∨ Calls.isNull depth st h = Throw StackOverflow.
Proof.
  destruct (Addr.isAssociated st h) eqn:Hassociated.
  - destruct (Addr.allocator (Addr.objects st h)) eqn:Hallocator.
    + right. by apply Calls_isNull_overflows.
    + left. unfold Calls.isNull, Frame.isNull. by rewrite Hallocator.
  - left. by apply Calls_isNull_unassociated.
Qed.

Lemma Calls_isValid_cases depth st h :
  Calls.isValid depth st h = Ok false ∨ Calls.isValid depth st h = Throw StackOverflow.
Proof.
  unfold Calls.isValid, Frame.isValid, Frame.isBound.
  destruct (Calls_isNull_cases depth st h) as [Hn|Hn]; unfold Calls.isNull in Hn;
    rewrite Hn; [by left|by right].
Qed.

Lemma Calls_throwIfInvalid_throws depth st h :
  ∃ e, Calls.throwIfInvalid depth st h = Throw e.
Proof.
  destruct (Addr.isAssociated st h) eqn:Hassociated.
  - destruct (Addr.allocator (Addr.objects st h)) eqn:Hallocator.
    + eexists. by apply Calls_throwIfInvalid_overflows.
    + eexists. unfold Calls.throwIfInvalid, Frame.throwIfInvalid, Frame.isValid,
        Frame.isBound, Frame.isNull. by rewrite Hallocator.
  - eexists. by apply Calls_throwIfInvalid_unassociated.
Qed.

Lemma Calls_Allocator_isBound_throws depth st h :
  ∃ e, Calls.Allocator_isBound depth st h = Throw e.
Proof.
  unfold Calls.Allocator_isBound, Frame.Allocator_isBound.
  rewrite Calls_address_throws. by eexists.
Qed.

Lemma Calls_inRange_offset_cases depth st h o :
  Calls.inRange_offset depth st h o = Ok false
  ∨ Calls.inRange_offset depth st h o = Throw StackOverflow.
Proof.
  unfold Calls.inRange_offset, Frame.inRange_offset.
  destruct (Calls_isNull_cases depth st h) as [Hn|Hn]; unfold Calls.isNull in Hn;
    rewrite Hn; [by left|by right].
Qed.

Lemma Calls_inRange_offset_size_cases depth st h o sz :
  Calls.inRange_offset_size depth st h o sz = Ok false
  ∨ Calls.inRange_offset_size depth st h o sz = Throw StackOverflow.
Proof.
  unfold Calls.inRange_offset_size, Frame.inRange_offset_size.
  destruct (sz =? 0); [by left|].
  destruct (Calls_inRange_offset_cases depth st h o) as [Hr|Hr];
    unfold Calls.inRange_offset in Hr; rewrite Hr; [by left|by right].
Qed.

(** ** The address-based allocator as written: binding *)

Ltac run_steps :=
  cbv beta iota delta [mbind mret Frame.run_bind Frame.run_ret Frame.const
                       Frame.throw Frame.update Frame.get];
  cbn [result_bind].

Ltac run_steps_in H :=
  cbv beta iota delta [mbind mret Frame.run_bind Frame.run_ret Frame.const
                       Frame.throw Frame.update Frame.get] in H;
  cbn [result_bind] in H.

Lemma Calls_bind_throws depth h a st :
  ∃ e, Calls.bind depth h a st = Frame.Throws e st.
Proof.
  unfold Calls.bind, Frame.bind, Frame.throwIfBound.
  destruct (Calls_Allocator_isBound_throws depth st h) as [e He].
  unfold Calls.Allocator_isBound in He. run_steps.
  destruct (Addr.throwIfNotPooled st a) as [[]|e']; [|by eexists].
  rewrite He. by eexists.
Qed.

Lemma Calls_rebind_throws depth h a st :
  ∃ e, Calls.rebind depth h a st = Frame.Throws e st.
Proof.
  unfold Calls.rebind, Frame.rebind.
  destruct (Calls_Allocator_isBound_throws depth st h) as [e He].
  unfold Calls.Allocator_isBound in He. run_steps. rewrite He. by eexists.
Qed.

Lemma Calls_unbind_throws depth h st :
  ∃ e, Calls.unbind depth h st = Frame.Throws e st.
Proof.
  unfold Calls.unbind, Frame.unbind, Frame.throwIfNotBound.
  destruct (Calls_Allocator_isBound_throws depth st h) as [e He].
  unfold Calls.Allocator_isBound in He. run_steps. rewrite He. by eexists.
Qed.

Lemma Calls_deallocate_throws depth h st :
  ∃ e, Calls.deallocate depth h st = Frame.Throws e st.
Proof.
  unfold Calls.deallocate, Frame.deallocate.
  destruct (Calls_throwIfInvalid_throws depth st h) as [e He].
  unfold Calls.throwIfInvalid in He. run_steps. rewrite He. by eexists.
Qed.

Lemma Calls_copy_throws depth h other st :
  ∃ e, Calls.copy depth h other st = Frame.Throws e st.
Proof.
  unfold Calls.copy, Frame.copy.
  destruct (Calls_throwIfInvalid_throws depth st other) as [e He].
  unfold Calls.throwIfInvalid in He. run_steps. rewrite He. by eexists.
Qed.

(** ** The address-based allocator as written: locating allocations *)

Ltac open_calls :=
  unfold Calls.Allocator_isBound, Calls.Allocation_size, Calls.isNull,
    Calls.isBound, Calls.isValid, Calls.throwIfInvalid, Calls.start, Calls.end_,
    Calls.inRange_address, Calls.inRange_address_size, Calls.inRange_offset,
    Calls.inRange_offset_size, Calls.bind, Calls.rebind, Calls.unbind,
    Calls.deallocate, Calls.copy, Calls.find, Calls.hasAddress,
    Calls.throwIfNoAllocation, Calls.willSplit, Calls.splitRead in *.

Lemma raised_bind {A B} (m : Frame.run A) (f : A → Frame.run B) st e :
  Frame.raised (m st) = Some e → Frame.raised ((m ≫= f) st) = Some e.
Proof.
  unfold mbind, Frame.run_bind. by destruct (m st).
Qed.

Lemma raised_scoped_bind {A B} (m : Frame.run A) (f : A → Frame.run B) st e st' :
  m st = Frame.Throws e st' → (m ≫= f) st = Frame.Throws e st'.
Proof. unfold mbind, Frame.run_bind. by intros ->. Qed.

Section located.

Context (clone' : handle → handle → Frame.run unit) (tmp : handle).
Context (st : Addr.Allocator).

(** With a bound extent at or below the address, [find] asks the first
    allocation of its binding set, and the question does not return. *)
Lemma Calls_find_bound depth a key :
  Calls.entered st → is_Some (Addr.bindings st !! key) → key ≤ a →
  Frame.raised (Calls.find clone' tmp depth a st) = Some StackOverflow.
Proof.
  intros Hentered Hkey Hle.
  assert (∀ k, is_Some (Addr.bindings st !! k) →
            ∃ h, Addr.front st k = Ok h
                 ∧ Addr.allocator (Addr.objects st h) = true
                 ∧ Addr.isAssociated st h = true) as Hfront.
  { intros k [refs Hrefs]. destruct (Hentered _ _ Hrefs) as [Hne Hall].
    destruct (begin_Some refs Hne) as (h & Hbegin & Hin).
    exists h. unfold Addr.front, Addr.bindingSet. rewrite Hrefs. cbn.
    rewrite Hbegin. split; [done|]. by apply Hall. }
  unfold Calls.find, Frame.find, Frame.front. run_steps.
  case_bool_decide as Hexact.
  - destruct (Hfront _ Hexact) as (h & -> & Hallocator & Hassociated).
    unfold Frame.assign, Frame.adopt. run_steps.
    set (st1 := Addr.setObject tmp _ st).
    pose proof (Calls_isValid_overflows st1 h) as Hvalid. open_calls.
    rewrite Hvalid; [done| |done].
    cbn. destruct (decide (h = tmp)) as [->|Hne].
    + by rewrite fn_lookup_insert.
    + by rewrite fn_lookup_insert_ne.
  - destruct (last_at_or_below (Addr.bindings st) a) as [floor|] eqn:Hfloor.
    + apply last_at_or_below_Some in Hfloor as (Hin & _ & _).
      destruct (Hfront _ Hin) as (h & -> & Hallocator & Hassociated).
      pose proof (Calls_inRange_address_overflows st h Hallocator Hassociated depth a)
        as Hrange.
      open_calls. by rewrite Hrange.
    + eapply last_at_or_below_None in Hfloor; [|done]. lia.
Qed.

(** With no bound extent at or below the address, [find] returns the
    null allocation. *)
Lemma Calls_find_unbound depth a :
  (∀ key, is_Some (Addr.bindings st !! key) → a < key) →
  Calls.find clone' tmp depth a st
  = Frame.Returns tmp (Addr.setObject tmp (Addr.mkAllocation true) st).
Proof.
  intros Habove. unfold Calls.find, Frame.find, Frame.null. run_steps.
  rewrite bool_decide_eq_false_2; cycle 1.
  { intros Hin. specialize (Habove _ Hin). lia. }
  destruct (last_at_or_below (Addr.bindings st) a) as [floor|] eqn:Hfloor; [|done].
  apply last_at_or_below_Some in Hfloor as (Hin & Hle & _).
  specialize (Habove _ Hin). lia.
Qed.

Lemma Calls_destroy_null depth :
  Addr.isAssociated st tmp = false →
  Frame.destroy (Calls.address depth) tmp
    (Addr.setObject tmp (Addr.mkAllocation true) st)
  = Frame.Returns () (Calls.visited tmp st).
Proof.
  intros Hunassociated. unfold Frame.destroy. run_steps.
  cbn [Addr.objects Addr.setObject]. rewrite fn_lookup_insert. cbn [Addr.allocator negb].
  pose proof (Calls_isBound_unassociated
                (Addr.setObject tmp (Addr.mkAllocation true) st) tmp Hunassociated depth)
    as Hbound.
  open_calls. by rewrite Hbound.
Qed.

Lemma Calls_hasAddress_unbound depth a :
  (∀ key, is_Some (Addr.bindings st !! key) → a < key) →
  Addr.isAssociated st tmp = false →
  Calls.hasAddress clone' tmp depth a st = Frame.Returns false (Calls.visited tmp st).
Proof.
  intros Habove Hunassociated.
  pose proof (Calls_find_unbound depth a Habove) as Hfind. unfold Calls.find in Hfind.
  unfold Calls.hasAddress, Frame.hasAddress.
  unfold mbind at 1, Frame.run_bind at 1. rewrite Hfind.
  unfold Frame.scoped. run_steps.
  pose proof (Calls_isNull_unassociated
                (Addr.setObject tmp (Addr.mkAllocation true) st) tmp Hunassociated depth)
    as Hnull.
  open_calls. rewrite Hnull.
  by rewrite Calls_destroy_null.
Qed.

Lemma Calls_throwIfNoAllocation_unbound depth a :
  (∀ key, is_Some (Addr.bindings st !! key) → a < key) →
  Addr.isAssociated st tmp = false →
  Calls.throwIfNoAllocation clone' tmp depth a st
  = Frame.Throws (AddressHasNoAllocationException a) (Calls.visited tmp st).
Proof.
  intros Habove Hunassociated.
  pose proof (Calls_hasAddress_unbound depth a Habove Hunassociated) as Hhas.
  unfold Calls.hasAddress in Hhas.
  unfold Calls.throwIfNoAllocation, Frame.throwIfNoAllocation.
  unfold mbind, Frame.run_bind. by rewrite Hhas.
Qed.


Lemma Calls_splitRead_unbound depth a sz :
  (∀ key, is_Some (Addr.bindings st !! key) → a < key) →
  Addr.isAssociated st tmp = false →
  Calls.splitRead clone' tmp depth a sz st
  = Frame.Throws (AddressHasNoAllocationException a) (Calls.visited tmp st).
Proof.
  intros Habove Hunassociated.
  pose proof (Calls_throwIfNoAllocation_unbound depth a Habove Hunassociated) as Hthrow.
  unfold Calls.throwIfNoAllocation in Hthrow.
  unfold Calls.splitRead, Frame.splitRead.
  by apply raised_scoped_bind.
Qed.

Lemma Calls_Allocator_read_unbound depth a sz :
  (∀ key, is_Some (Addr.bindings st !! key) → a < key) →
  Addr.isAssociated st tmp = false →
  Calls.Allocator_read clone' tmp (S depth) a sz st
  = Frame.Throws (AddressHasNoAllocationException a) (Calls.visited tmp st).
Proof.
  intros Habove Hunassociated.
  pose proof (Calls_throwIfNoAllocation_unbound depth a Habove Hunassociated) as Hthrow.
  unfold Calls.throwIfNoAllocation in Hthrow.
  cbn [Calls.Allocator_read]. unfold Frame.Allocator_read.
  by apply raised_scoped_bind.
Qed.

Lemma Calls_hasAddress_bound depth a key :
  Calls.entered st → is_Some (Addr.bindings st !! key) → key ≤ a →
  Frame.raised (Calls.hasAddress clone' tmp depth a st) = Some StackOverflow.
Proof.
  intros. unfold Calls.hasAddress, Frame.hasAddress.
  by apply raised_bind, (Calls_find_bound depth a key).
Qed.

Lemma Calls_throwIfNoAllocation_bound depth a key :
  Calls.entered st → is_Some (Addr.bindings st !! key) → key ≤ a →
  Frame.raised (Calls.throwIfNoAllocation clone' tmp depth a st) = Some StackOverflow.
Proof.
  intros. unfold Calls.throwIfNoAllocation, Frame.throwIfNoAllocation.
  by apply raised_bind, (Calls_hasAddress_bound depth a key).
Qed.


Lemma Calls_splitRead_bound depth a sz key :
  Calls.entered st → is_Some (Addr.bindings st !! key) → key ≤ a →
  Frame.raised (Calls.splitRead clone' tmp depth a sz st) = Some StackOverflow.
Proof.
  intros. unfold Calls.splitRead, Frame.splitRead.
  by apply raised_bind, (Calls_throwIfNoAllocation_bound depth a key).
Qed.

Lemma Calls_Allocator_read_bound depth a sz key :
  Calls.entered st → is_Some (Addr.bindings st !! key) → key ≤ a →
  Frame.raised (Calls.Allocator_read clone' tmp depth a sz st) = Some StackOverflow.
Proof.
  intros. destruct depth as [|depth']; [done|].
  cbn [Calls.Allocator_read]. unfold Frame.Allocator_read.
  apply raised_bind.
  by apply (Calls_throwIfNoAllocation_bound depth' a key).
Qed.

End located.

(** ** The split read, whatever [address()] answers *)

Section any_frame.

Context (address' : Addr.Allocator → handle → result Z).
Context (clone' : handle → handle → Frame.run unit).
Context (read' : Z → Z → Frame.run Data) (tmp : handle).

(** What [Allocator::read(allocation, address, size)] returns has
    [size] bytes, and [size] is not 0. *)
Lemma Frame_read_allocation_Ok st h a sz d :
  Frame.read_allocation address' st h a sz = Ok d →
  sz ≠ 0 ∧ length d = Z.to_nat sz.
Proof.
  unfold Frame.read_allocation, Frame.throwIfNotInRange_size,
    Frame.inRange_address_size, Addr.readAddress.
  destruct (Z.eqb_spec sz 0) as [|Hsz]; [done|].
  intros Hread. split; [done|].
  destruct (_ ≫= λ ok : bool, _) as [[]|]; [|done]. cbn in Hread.
  destruct (readBytes _ _ _) as [d'|] eqn:Hd; [|done].
  injection Hread as <-. by eapply readBytes_length.
Qed.

(** A round of the loop of [splitRead] does not get past its copy: the
    chunk it has read is not empty, and it is copied to behind the last
    element of [result]. *)
Lemma Frame_splitRead_loop_throws st key ks a sz collected :
  0 ≤ sz →
  ∃ e, Frame.splitRead_loop address' st (key :: ks) a sz collected = Throw e.
Proof.
  intros Hsz. cbn [Frame.splitRead_loop].
  destruct (Addr.front st key) as [boundAlloc|]; [|by eexists].
  cbn [mbind result_bind].
  destruct (Frame.inRange_address_size address' st boundAlloc a sz) as [[]|];
    [| |by eexists]; cbn [mbind result_bind].
  - destruct (Frame.read_allocation address' st boundAlloc a sz) as [d|] eqn:Hread;
      [|by eexists].
    apply Frame_read_allocation_Ok in Hread as [Hnz Hlen].
    cbn [mbind result_bind]. unfold Frame.append.
    rewrite decide_False; [by eexists|].
    intros ->. cbn in Hlen. lia.
  - destruct (Frame.end_ address' st boundAlloc) as [e|]; [|by eexists].
    cbn [mbind result_bind].
    destruct (Frame.read_allocation address' st boundAlloc a (wrap (e - a)))
      as [d|] eqn:Hread; [|by eexists].
    apply Frame_read_allocation_Ok in Hread as [Hnz Hlen].
    cbn [mbind result_bind]. unfold Frame.append.
    rewrite decide_False; [by eexists|].
    intros ->. cbn in Hlen. pose proof (wrap_range (e - a)). lia.
Qed.

Lemma Frame_keysFrom_Ok st a ks :
  Frame.keysFrom st a = Ok ks → ∃ key ks', ks = key :: ks'.
Proof.
  unfold Frame.keysFrom.
  destruct (last_at_or_below (Addr.bindings st) a) as [first|] eqn:Hfirst; [|done].
  intros [= <-].
  apply last_at_or_below_Some in Hfirst as (Hin%elem_of_keys & _ & _).
  assert (first ∈ filter (λ k, first ≤ k) (keys (Addr.bindings st))) as Hhead.
  { apply list_elem_of_filter. split; [lia|done]. }
  destruct (filter _ _) as [|key ks']; [by apply elem_of_nil in Hhead|eauto].
Qed.

(** [splitRead] does not return. *)
Lemma Frame_splitRead_throws a sz st :
  0 ≤ sz →
  ∃ e st', Frame.splitRead address' clone' read' tmp a sz st = Frame.Throws e st'.
Proof.
  intros Hsz. unfold Frame.splitRead. run_steps.
  destruct (Frame.throwIfNoAllocation address' clone' tmp a st) as [[] st1|];
    [|by eexists _, _].
  destruct (Frame.willSplit address' clone' tmp a sz st1) as [will st2|];
    [|by eexists _, _].
  assert (∀ st3, ∃ e st',
    match
      match Frame.keysFrom st3 a with
      | Ok ks =>
          '(remaining, collected)
            ← Frame.splitRead_loop address' st3 ks a sz [];
          if remaining =? 0 then Ok collected
          else Throw (SplitsExceededException a sz)
      | Throw e => Throw e
      end
    with
    | Ok d => Frame.Returns d st3
    | Throw e => Frame.Throws e st3
    end = Frame.Throws e st') as Hloop.
  { intros st3. destruct (Frame.keysFrom st3 a) as [ks|] eqn:Hks; [|by eexists _, _].
    apply Frame_keysFrom_Ok in Hks as (key & ks' & ->).
    destruct (Frame_splitRead_loop_throws st3 key ks' a sz [] Hsz) as [e ->].
    by eexists _, _. }
  destruct will.
  - apply Hloop.
  - destruct (read' a sz st2) as [d st3|]; [|by eexists _, _]. apply Hloop.
Qed.


Lemma Frame_unbind_last h st :
  Frame.throwIfNotBound address' st h = Ok () →
  Addr.isPooled st (Addr.baseOf st h) = true →
  Addr.bindingSet st (Addr.baseOf st h) ∖ {[h]} = ∅ →
  Frame.unbind address' h st
  = Frame.Throws VoidAllocatorException
      (Frame.erase (Addr.baseOf st h) (Frame.unbind_tables h st)).
Proof.
  intros Hbound Hpooled Hlast. unfold Frame.unbind, Frame.unpool. run_steps.
  rewrite Hbound. unfold Addr.throwIfNotPooled. rewrite Hpooled.
  rewrite decide_True; cycle 1.
  { unfold Addr.bindingSet at 1. cbn. rewrite lookup_insert_eq. cbn.
    by rewrite Hlast, size_empty. }
  change (Addr.isPooled (Frame.erase _ _) (Addr.baseOf st h))
    with (Addr.isPooled st (Addr.baseOf st h)).
  by rewrite Hpooled.
Qed.


Lemma Frame_rebind_last h a old st :
  Frame.Allocator_isBound address' st h = Ok true →
  Addr.associations st !! h = Some old → address' st h = Ok old → old ≠ a →
  Addr.isPooled st old = true → Addr.isPooled st a = true →
  Addr.bindingSet st old ∖ {[h]} = ∅ →
  Frame.rebind address' h a st
  = Frame.Throws VoidAllocatorException
      (Frame.erase old (Frame.rebind_tables h a st)).
Proof.
  intros Hbound Hassociated Haddress Hne Hold Hnew Hlast.
  assert (Addr.baseOf st h = old) as Hbase.
  { unfold Addr.baseOf. by rewrite Hassociated. }
  unfold Frame.rebind, Frame.unpool. run_steps.
  rewrite Hbound. cbn [negb].
  unfold Addr.throwIfNotAssociated, Addr.isAssociated, Addr.throwIfNotPooled.
  rewrite Hassociated, bool_decide_eq_true_2 by done.
  rewrite Haddress. cbn [result_bind]. rewrite Hold, Hnew, Hbase.
  rewrite decide_True; [done|].
  unfold Addr.bindingSet at 1, Frame.rebind_tables. cbn. rewrite Hbase.
  rewrite lookup_insert_eq. cbn. rewrite lookup_insert_ne by done.
  fold (Addr.bindingSet st old). by rewrite Hlast, size_empty.
Qed.

End any_frame.

(** ** The address-based allocator as written: no call gets anywhere *)

Lemma Calls_isBound_cases depth st h :
  Calls.isBound depth st h = Ok false ∨ Calls.isBound depth st h = Throw StackOverflow.
Proof.
  unfold Calls.isBound, Frame.isBound.
  destruct (Calls_isNull_cases depth st h) as [Hn|Hn]; unfold Calls.isNull in Hn;
    rewrite Hn; [by left|by right].
Qed.

Section as_written.

Context (clone' : handle → handle → Frame.run unit) (tmp : handle).

Lemma Calls_destroy_cases depth h st :
  (∃ st', Frame.destroy (Calls.address depth) h st = Frame.Returns () st'
          ∧ Calls.tables st' = Calls.tables st)
  ∨ Frame.destroy (Calls.address depth) h st = Frame.Throws StackOverflow st.
Proof.
  unfold Frame.destroy. run_steps.
  destruct (Addr.allocator (Addr.objects st h)); cbn [negb]; [|left; by eexists].
  destruct (Calls_isBound_cases depth st h) as [Hb|Hb]; unfold Calls.isBound in Hb;
    rewrite Hb; [left; by eexists|by right].
Qed.

Lemma Calls_scoped_cases {A} depth h (body : Frame.run A) st :
  match body st with
  | Frame.Returns a st1 =>
      (∃ st', Frame.scoped (Calls.address depth) h body st = Frame.Returns a st'
              ∧ Calls.tables st' = Calls.tables st1)
      ∨ Frame.scoped (Calls.address depth) h body st = Frame.Throws StackOverflow st1
  | Frame.Throws e st1 =>
      (∃ st', Frame.scoped (Calls.address depth) h body st = Frame.Throws e st'
              ∧ Calls.tables st' = Calls.tables st1)
      ∨ Frame.scoped (Calls.address depth) h body st = Frame.Throws StackOverflow st1
  end.
Proof.
  unfold Frame.scoped. destruct (body st) as [a st1|e st1].
  - destruct (Calls_destroy_cases depth h st1) as [(st' & -> & Hsame)| ->];
      [left; by eexists|by right].
  - destruct (Calls_destroy_cases depth h st1) as [(st' & -> & Hsame)| ->];
      [left; by eexists|by right].
Qed.

Lemma Calls_find_cases depth a st :
  (∃ st', Calls.find clone' tmp depth a st = Frame.Returns tmp st'
          ∧ Calls.tables st' = Calls.tables st)
  ∨ (∃ e st', Calls.find clone' tmp depth a st = Frame.Throws e st'
              ∧ Calls.tables st' = Calls.tables st
              ∧ e ∈ [StackOverflow; AccessViolation; NoAllocatorException;
                     DeadAllocationException]).
Proof.
  unfold Calls.find, Frame.find, Frame.front, Frame.null. run_steps.
  case_bool_decide as Hexact.
  - destruct (Addr.front st a) as [h|] eqn:Hfront; cycle 1.
    { unfold Addr.front in Hfront. destruct (begin _); [done|].
      injection Hfront as <-. right. eexists _, _. split_and!; [done..|].
      set_solver. }
    unfold Frame.assign, Frame.adopt. run_steps.
    set (st1 := Addr.setObject tmp _ st).
    destruct (Calls_isValid_cases depth st1 h) as [Hv|Hv]; unfold Calls.isValid in Hv;
      rewrite Hv.
    + left. by eexists.
    + right. eexists _, _. split_and!; [done..|]. set_solver.
  - destruct (last_at_or_below (Addr.bindings st) a) as [floor|]; [|left; by eexists].
    destruct (Addr.front st floor) as [h|] eqn:Hfront; cycle 1.
    { unfold Addr.front in Hfront. destruct (begin _); [done|].
      injection Hfront as <-. right. eexists _, _. split_and!; [done..|].
      set_solver. }
    unfold Frame.inRange_address, Frame.start. rewrite Calls_address_throws.
    cbn [mbind result_bind]. right. eexists _, _. split_and!; [done..|].
    destruct depth; [set_solver|].
    destruct (Addr.allocator _); cbn [negb]; [|set_solver].
    destruct (Addr.isAssociated _ _); cbn [negb]; set_solver.
Qed.

Lemma Calls_hasAddress_cases depth a st :
  (∃ st', Calls.hasAddress clone' tmp depth a st = Frame.Returns false st'
          ∧ Calls.tables st' = Calls.tables st)
  ∨ (∃ e st', Calls.hasAddress clone' tmp depth a st = Frame.Throws e st'
              ∧ Calls.tables st' = Calls.tables st
              ∧ e ∈ [StackOverflow; AccessViolation; NoAllocatorException;
                     DeadAllocationException]).
Proof.
  remember (Calls.hasAddress clone' tmp depth a st) as o eqn:Ho.
  unfold Calls.hasAddress, Frame.hasAddress in Ho.
  unfold mbind at 1, Frame.run_bind at 1 in Ho.
  destruct (Calls_find_cases depth a st) as [(st1 & Hfind & Hsame)|
                                             (e & st1 & Hfind & Hsame & He)];
    unfold Calls.find in Hfind; rewrite Hfind in Ho;
    [|right; by exists e, st1].
  match type of Ho with context [Frame.scoped _ tmp ?b st1] =>
    pose proof (Calls_scoped_cases depth tmp b st1) as Hscoped end.
  revert Hscoped. run_steps.
  destruct (Calls_isNull_cases depth st1 tmp) as [Hn|Hn]; unfold Calls.isNull in Hn;
    rewrite Hn; cbn [negb]; intros [(st2 & Hrun & Hsame2)|Hrun];
    run_steps_in Ho; rewrite Hrun in Ho.
  - left. exists st2. split; [done|]. congruence.
  - right. exists StackOverflow, st1. split_and!; [done..|]. set_solver.
  - right. exists StackOverflow, st2. split_and!; [done|congruence|set_solver].
  - right. exists StackOverflow, st1. split_and!; [done..|]. set_solver.
Qed.

(** [throwIfNoAllocation] throws for every address. *)
Lemma Calls_throwIfNoAllocation_throws depth a st :
  ∃ e st', Calls.throwIfNoAllocation clone' tmp depth a st = Frame.Throws e st'
           ∧ Calls.tables st' = Calls.tables st
           ∧ e ∈ [AddressHasNoAllocationException a; StackOverflow; AccessViolation;
                  NoAllocatorException; DeadAllocationException].
Proof.
  remember (Calls.throwIfNoAllocation clone' tmp depth a st) as o eqn:Ho.
  unfold Calls.throwIfNoAllocation, Frame.throwIfNoAllocation in Ho.
  unfold mbind, Frame.run_bind in Ho.
  destruct (Calls_hasAddress_cases depth a st) as [(st1 & Hhas & Hsame)|
                                                   (e & st1 & Hhas & Hsame & He)];
    unfold Calls.hasAddress in Hhas; rewrite Hhas in Ho.
  - eexists _, st1. split_and!; [done..|]. set_solver.
  - exists e, st1. split_and!; [done..|]. set_solver.
Qed.



Lemma Calls_Allocator_read_throws depth a sz st :
  ∃ e st', Calls.Allocator_read clone' tmp depth a sz st = Frame.Throws e st'
           ∧ Calls.tables st' = Calls.tables st
           ∧ e ∈ [AddressHasNoAllocationException a; StackOverflow; AccessViolation;
                  NoAllocatorException; DeadAllocationException].
Proof.
  destruct depth as [|depth].
  { eexists _, _. split_and!; [done..|]. set_solver. }
  destruct (Calls_throwIfNoAllocation_throws depth a st) as (e & st' & Hthrow & Hrest).
  exists e, st'. split; [|done].
  unfold Calls.throwIfNoAllocation in Hthrow.
  cbn [Calls.Allocator_read]. unfold Frame.Allocator_read.
  by apply raised_scoped_bind.
Qed.

End as_written.

(** ** The address-based allocator as written: what the scenarios come to *)

Lemma Addr_unassociated st h :
  Addr.associations st = ∅ → Addr.isAssociated st h = false.
Proof.
  intros Hnone. unfold Addr.isAssociated. rewrite Hnone, lookup_empty.
  apply bool_decide_eq_false. by intros [? ?].
Qed.

Lemma Addr_nothing_bound st a key :
  Addr.bindings st = ∅ → is_Some (Addr.bindings st !! key) → a < key.
Proof. intros ->. rewrite lookup_empty. by intros [? ?]. Qed.

(** [bind] of an allocation that is associated with nothing: the
    question whether it is bound already ends the call. *)
Lemma Calls_bind_dead depth h a st :
  Addr.allocator (Addr.objects st h) = true → Addr.isAssociated st h = false →
  Addr.isPooled st a = true →
  Calls.bind (S depth) h a st = Frame.Throws DeadAllocationException st.
Proof.
  intros Hallocator Hunassociated Hpooled.
  unfold Calls.bind, Frame.bind, Frame.throwIfBound, Frame.Allocator_isBound,
    Addr.throwIfNotPooled.
  run_steps. rewrite Hpooled, Calls_address_throws, Hallocator, Hunassociated. done.
Qed.




Lemma Calls_deallocate_overflows depth h st :
  Addr.allocator (Addr.objects st h) = true → Addr.isAssociated st h = true →
  Calls.deallocate depth h st = Frame.Throws StackOverflow st.
Proof.
  intros Hallocator Hassociated.
  pose proof (Calls_throwIfInvalid_overflows st h Hallocator Hassociated depth) as Hv.
  open_calls. unfold Frame.deallocate. run_steps. by rewrite Hv.
Qed.

(** C1. With A = [0, 16) and B = [16, 24) pooled and adjacent,
    [splitRead(address = 10, size = 10)] does not return the ten bytes.
    Whatever [address()], [clone] and the inner [read] do, no call of
    [splitRead] returns: the first chunk its loop reads is copied to
    behind the last element of [result]. As the code is written the call
    does not come that far. No allocation can be bound to A: [bind]
    throws [DeadAllocationException]; with the extents pooled and nothing
    bound, the call throws [AddressHasNoAllocationException]; and were
    the tables filled as the two [bind] calls should fill them, the call
    would overflow the stack. *)
Theorem splitRead_returns_no_bytes :
  (∀ address' clone' read' tmp a sz st,
     0 ≤ sz →
     ∃ e st', Frame.splitRead address' clone' read' tmp a sz st = Frame.Throws e st')
  ∧ (∀ depth,
       Calls.bind (S depth) 1%positive 0 Scenario.pooledAB
       = Frame.Throws DeadAllocationException Scenario.pooledAB)
  ∧ (∀ clone' tmp depth,
       Calls.splitRead clone' tmp depth 10 10 Scenario.pooledAB
       = Frame.Throws (AddressHasNoAllocationException 10)
           (Calls.visited tmp Scenario.pooledAB))
  ∧ (∀ clone' tmp depth,
       Frame.raised (Calls.splitRead clone' tmp depth 10 10 Scenario.AB)
       = Some StackOverflow).
Proof.
  split_and!.
  - intros. by apply Frame_splitRead_throws.
  - intros depth. apply Calls_bind_dead; by_evaluation.
  - intros clone' tmp depth. apply Calls_splitRead_unbound.
    + intros key. by apply Addr_nothing_bound.
    + by apply Addr_unassociated.
  - intros clone' tmp depth. apply (Calls_splitRead_bound _ _ _ _ _ _ 0).
    + by_evaluation.
    + by_evaluation.
    + lia.
Qed.









(** X18. The circle of calls of the address-based allocator: no
    allocation is ever valid and none is ever bound. [address()],
    [throwIfInvalid()] and [Allocator::isBound] throw for every
    allocation, [isValid()] and [isBound()] answer no or do not answer,
    and [bind], [rebind], [unbind], [copy] and [deallocate] throw and
    leave the allocator as it is. For an allocation that has its
    allocator and an entry in [associations], each of the questions
    overflows the stack, however much of it there is. *)
Theorem no_allocation_is_ever_bound (depth : nat) (st : Addr.Allocator)
    (h other : handle) (a : Z) :
  (∃ e, Calls.address depth st h = Throw e)
  ∧ (∃ e, Calls.throwIfInvalid depth st h = Throw e)
  ∧ (∃ e, Calls.Allocator_isBound depth st h = Throw e)
  ∧ (Calls.isValid depth st h = Ok false
     ∨ Calls.isValid depth st h = Throw StackOverflow)
  ∧ (Calls.isBound depth st h = Ok false
     ∨ Calls.isBound depth st h = Throw StackOverflow)
  ∧ (∃ e, Calls.bind depth h a st = Frame.Throws e st)
  ∧ (∃ e, Calls.rebind depth h a st = Frame.Throws e st)
  ∧ (∃ e, Calls.unbind depth h st = Frame.Throws e st)
  ∧ (∃ e, Calls.copy depth h other st = Frame.Throws e st)
  ∧ (∃ e, Calls.deallocate depth h st = Frame.Throws e st)
  ∧ (Addr.allocator (Addr.objects st h) = true → Addr.isAssociated st h = true →
     Calls.address depth st h = Throw StackOverflow
     ∧ Calls.Allocation_size depth st h = Throw StackOverflow
     ∧ Calls.isNull depth st h = Throw StackOverflow
     ∧ Calls.isBound depth st h = Throw StackOverflow
     ∧ Calls.isValid depth st h = Throw StackOverflow
     ∧ Calls.throwIfInvalid depth st h = Throw StackOverflow
     ∧ Calls.Allocator_isBound depth st h = Throw StackOverflow)
  ∧ (Addr.isAssociated st h = false →
     Calls.isNull depth st h = Ok true
     ∧ Calls.throwIfInvalid depth st h
       = Throw (if Addr.allocator (Addr.objects st h) then DeadAllocationException
                else NoAllocatorException)).
Proof.
  split_and!.
  - rewrite Calls_address_throws. by eexists.
  - apply Calls_throwIfInvalid_throws.
  - apply Calls_Allocator_isBound_throws.
  - apply Calls_isValid_cases.
  - apply Calls_isBound_cases.
  - apply Calls_bind_throws.
  - apply Calls_rebind_throws.
  - apply Calls_unbind_throws.
  - apply Calls_copy_throws.
  - apply Calls_deallocate_throws.
  - intros Hallocator Hassociated. split_and!.
    + by apply Calls_address_overflows.
    + by apply Calls_Allocation_size_overflows.
    + by apply Calls_isNull_overflows.
    + by apply Calls_isBound_overflows.
    + by apply Calls_isValid_overflows.
    + by apply Calls_throwIfInvalid_overflows.
    + by apply Calls_Allocator_isBound_overflows.
  - intros Hunassociated. split.
    + by apply Calls_isNull_unassociated.
    + by apply Calls_throwIfInvalid_unassociated.
Qed.

(** X19. The range check of the address-based allocation, as it is
    written: [inRange(offset, size)] answers no or overflows the stack,
    and never answers yes. It answers no for every access of size 0 and
    for every allocation that has no entry in [associations]; for an
    allocation that has its allocator and an entry, every access of a
    size other than 0 overflows the stack, and so does every
    [inRange(address)]. *)
Theorem inRange_answers_no_or_not_at_all (depth : nat) (st : Addr.Allocator)
    (h : handle) (o s : Z) :
  (Calls.inRange_offset_size depth st h o s = Ok false
   ∨ Calls.inRange_offset_size depth st h o s = Throw StackOverflow)
  ∧ Calls.inRange_offset_size depth st h o 0 = Ok false
  ∧ Calls.inRange_address_size depth st h o 0 = Ok false
  ∧ (Addr.isAssociated st h = false →
     Calls.inRange_offset_size depth st h o s = Ok false)
  ∧ (Addr.allocator (Addr.objects st h) = true → Addr.isAssociated st h = true →
     Calls.inRange_address depth st h o = Throw StackOverflow
     ∧ (s ≠ 0 →
        Calls.inRange_offset_size depth st h o s = Throw StackOverflow
        ∧ Calls.inRange_address_size depth st h o s = Throw StackOverflow)).
Proof.
  split_and!.
  - apply Calls_inRange_offset_size_cases.
  - done.
  - done.
  - intros Hunassociated.
    pose proof (Calls_inRange_offset_unassociated st h Hunassociated depth o) as Hr.
    open_calls. unfold Frame.inRange_offset_size.
    destruct (s =? 0); [done|]. by rewrite Hr.
  - intros Hallocator Hassociated. split.
    + by apply Calls_inRange_address_overflows.
    + intros Hs. split.
      * by apply Calls_inRange_offset_size_overflows.
      * by apply Calls_inRange_address_size_overflows.
Qed.

(** X20. Locating an allocation in the address-based allocator, as it
    is written: [find] returns the null allocation or throws,
    [hasAddress] answers no or throws, and [throwIfNoAllocation] and
    [Allocator::read] throw for every address; none of them changes the
    tables. Where no entry of [bindings] lies at or below the address,
    [find] returns the null allocation, [hasAddress] answers no and the
    read throws [AddressHasNoAllocationException]; where there is such an
    entry, in tables filled the way [bind] fills them, [find] overflows
    the stack. *)
Theorem find_finds_no_allocation (clone' : handle → handle → Frame.run unit)
    (tmp : handle) (depth : nat) (a sz : Z) (st : Addr.Allocator) :
  ((∃ st', Calls.find clone' tmp depth a st = Frame.Returns tmp st'
           ∧ Calls.tables st' = Calls.tables st)
   ∨ (∃ e st', Calls.find clone' tmp depth a st = Frame.Throws e st'
               ∧ Calls.tables st' = Calls.tables st
               ∧ e ∈ [StackOverflow; AccessViolation; NoAllocatorException;
                      DeadAllocationException]))
  ∧ ((∃ st', Calls.hasAddress clone' tmp depth a st = Frame.Returns false st'
             ∧ Calls.tables st' = Calls.tables st)
     ∨ (∃ e st', Calls.hasAddress clone' tmp depth a st = Frame.Throws e st'
                 ∧ Calls.tables st' = Calls.tables st
                 ∧ e ∈ [StackOverflow; AccessViolation; NoAllocatorException;
                        DeadAllocationException]))
  ∧ (∃ e st', Calls.throwIfNoAllocation clone' tmp depth a st = Frame.Throws e st'
              ∧ Calls.tables st' = Calls.tables st)
  ∧ (∃ e st', Calls.Allocator_read clone' tmp depth a sz st = Frame.Throws e st'
              ∧ Calls.tables st' = Calls.tables st)
  ∧ ((∀ key, is_Some (Addr.bindings st !! key) → a < key) →
     Addr.isAssociated st tmp = false →
     Calls.find clone' tmp depth a st
     = Frame.Returns tmp (Addr.setObject tmp (Addr.mkAllocation true) st)
     ∧ Calls.hasAddress clone' tmp depth a st
       = Frame.Returns false (Calls.visited tmp st)
     ∧ Calls.Allocator_read clone' tmp (S depth) a sz st
       = Frame.Throws (AddressHasNoAllocationException a) (Calls.visited tmp st))
  ∧ (∀ key, Calls.entered st → is_Some (Addr.bindings st !! key) → key ≤ a →
       Frame.raised (Calls.find clone' tmp depth a st) = Some StackOverflow
       ∧ Frame.raised (Calls.Allocator_read clone' tmp depth a sz st)
         = Some StackOverflow).
Proof.
  split_and!.
  - apply Calls_find_cases.
  - apply Calls_hasAddress_cases.
  - destruct (Calls_throwIfNoAllocation_throws clone' tmp depth a st)
      as (e & st' & ? & ? & _). by exists e, st'.
  - destruct (Calls_Allocator_read_throws clone' tmp depth a sz st)
      as (e & st' & ? & ? & _). by exists e, st'.
  - intros Habove Hunassociated. split_and!.
    + by apply Calls_find_unbound.
    + by apply Calls_hasAddress_unbound.
    + by apply Calls_Allocator_read_unbound.
  - intros key Hentered Hkey Hle. split.
    + by apply (Calls_find_bound _ _ _ _ _ key).
    + by apply (Calls_Allocator_read_bound _ _ _ _ _ _ key).
Qed.
